(** * CodeJeet SEO layer: aggregation, cache controller, related-content
      recommender, page links, JSON-LD lists and sitemap, embedded from the
      TypeScript sources.

    Conventions of the embedding.
    - A JS string is a [string] of bytes; [toLowerCase], [toUpperCase] and the
      regular expression [\s] act on the ASCII range.
    - A JS [Map] and a JS [Set] keep insertion order, which the sorts and the
      iterations of the source observe: they are association lists and lists
      in insertion order ([JsMap], [JsSet]).
    - [Array.prototype.sort] is stable; every comparator of the source
      compares keys (a difference of counts or of frequencies, or a difference
      of tiers and then of counts), so the stable arrangement is unique and an
      insertion sort computes it ([JsArray.sort]).  Only the sign of a
      comparator matters, so comparators return a [Z].
    - Counts and lengths are [nat]; identifiers and [limit] arguments are [Z];
      frequencies and acceptance rates are finite numbers, taken in [Q].
    - Plain-object tables ([companyTiers], the abbreviation table) are the
      listed keys only; properties inherited from [Object.prototype] are not
      part of the tables, and the statements on tiers assume of the slugs
      they look up that none is the name of such a property ([ownTierKey]).
    - The builders are given over records that have every field of the
      interface; [buildFromRaw] runs the build over records as they arrive,
      whose [company], [topics] or [difficulty] may be [undefined].
    - [seoConfig.siteUrl] is [siteUrlOf] of the environment variable; the
      functions that make URLs are taken at the default site URL, the hub
      links also at any other ([getHubLinksAt]). *)

From Stdlib Require Import List String Ascii Bool Arith ZArith QArith Lia.
From Stdlib Require Import DecimalString Permutation Sorted Lqa.
Import ListNotations.

Local Open Scope Q_scope.
Local Open Scope Z_scope.
Local Open Scope string_scope.
Local Open Scope list_scope.
Local Open Scope nat_scope.

(* ------------------------------------------------------------------ *)
(** ** JavaScript strings *)

Module Str.

Definition is_upper (c : ascii) : bool :=
  let n := nat_of_ascii c in (65 <=? n) && (n <=? 90).

Definition is_lower (c : ascii) : bool :=
  let n := nat_of_ascii c in (97 <=? n) && (n <=? 122).

Definition lower_char (c : ascii) : ascii :=
  if is_upper c then ascii_of_nat (nat_of_ascii c + 32) else c.

Definition upper_char (c : ascii) : ascii :=
  if is_lower c then ascii_of_nat (nat_of_ascii c - 32) else c.

(** [s.toLowerCase()] *)
Fixpoint toLowerCase (s : string) : string :=
  match s with
  | EmptyString => EmptyString
  | String c s' => String (lower_char c) (toLowerCase s')
  end.

(** [s.toUpperCase()] *)
Fixpoint toUpperCase (s : string) : string :=
  match s with
  | EmptyString => EmptyString
  | String c s' => String (upper_char c) (toUpperCase s')
  end.

(** The class [\s]: tab, line feed, vertical tab, form feed, carriage return
    and space. *)
Definition is_space (c : ascii) : bool :=
  let n := nat_of_ascii c in ((9 <=? n) && (n <=? 13)) || (n =? 32).

(** [s.replace(/\s+/g, "-")]: every maximal run of white space becomes one
    hyphen.  [prev] tells that the previous character was white space. *)
Fixpoint hyphenate_from (prev : bool) (s : string) : string :=
  match s with
  | EmptyString => EmptyString
  | String c s' =>
      if is_space c
      then if prev then hyphenate_from true s'
           else String "-" (hyphenate_from true s')
      else String c (hyphenate_from false s')
  end.

Definition hyphenate (s : string) : string := hyphenate_from false s.

(** [s.split(sep)] for a one-character separator. *)
Fixpoint split (sep : ascii) (s : string) : list string :=
  match s with
  | EmptyString => [EmptyString]
  | String c s' =>
      if Ascii.eqb c sep then EmptyString :: split sep s'
      else match split sep s' with
           | [] => [String c EmptyString]
           | w :: ws => String c w :: ws
           end
  end.

(** [parts.join(sep)] *)
Fixpoint join (sep : string) (parts : list string) : string :=
  match parts with
  | [] => EmptyString
  | [w] => w
  | w :: ws => (w ++ sep ++ join sep ws)%string
  end.

(** [s.slice(n)] for [0 <= n]. *)
Fixpoint drop (n : nat) (s : string) : string :=
  match n, s with
  | 0, _ => s
  | S _, EmptyString => EmptyString
  | S n', String _ s' => drop n' s'
  end.

(** First occurrence of [pat] in [s]: the text before it and the text after
    it. *)
Fixpoint find_first (pat s : string) : option (string * string) :=
  if String.prefix pat s then Some (EmptyString, drop (String.length pat) s)
  else match s with
       | EmptyString => None
       | String c s' =>
           match find_first pat s' with
           | Some (before, after) => Some (String c before, after)
           | None => None
           end
       end.

(** Expansion of a replacement string (GetSubstitution) when the pattern is a
    string, so that there are no captures: [$$] is a dollar, [$&] the match,
    [$`] the text before the match, [$'] the text after it; any other
    character, a dollar before anything else included, stands for itself. *)
Fixpoint substitution (matched before after : string) (template : string)
  : string :=
  match template with
  | EmptyString => EmptyString
  | String "$" (String "$" t) => String "$" (substitution matched before after t)
  | String "$" (String "&" t) =>
      (matched ++ substitution matched before after t)%string
  | String "$" (String "`" t) =>
      (before ++ substitution matched before after t)%string
  | String "$" (String "'" t) =>
      (after ++ substitution matched before after t)%string
  | String c t => String c (substitution matched before after t)
  end.

(** [s.replace(pat, value)] for a string pattern: the first occurrence only. *)
Definition replace (pat value s : string) : string :=
  match find_first pat s with
  | Some (before, after) =>
      (before ++ substitution pat before after value ++ after)%string
  | None => s
  end.

(** Template-literal conversion of a non-negative integer. *)
Definition of_nat (n : nat) : string := NilEmpty.string_of_uint (Nat.to_uint n).

End Str.

(* ------------------------------------------------------------------ *)
(** ** JavaScript [Map] with string keys, in insertion order *)

Module JsMap.

Definition t (V : Type) : Type := list (string * V).

Definition empty {V : Type} : t V := [].

Fixpoint get {V : Type} (k : string) (m : t V) : option V :=
  match m with
  | [] => None
  | (k', v) :: m' => if String.eqb k k' then Some v else get k m'
  end.

Definition has {V : Type} (k : string) (m : t V) : bool :=
  match get k m with Some _ => true | None => false end.

(** [m.set(k, v)]: an existing key keeps its place, a new key goes last. *)
Fixpoint set {V : Type} (k : string) (v : V) (m : t V) : t V :=
  match m with
  | [] => [(k, v)]
  | (k', v') :: m' =>
      if String.eqb k k' then (k, v) :: m' else (k', v') :: set k v m'
  end.

Definition keys {V : Type} (m : t V) : list string := map fst m.
Definition values {V : Type} (m : t V) : list V := map snd m.
Definition size {V : Type} (m : t V) : nat := List.length m.

(** [if (!m.has(k)) m.set(k, []); m.get(k).push(x)] *)
Definition push {V : Type} (k : string) (x : V) (m : t (list V)) : t (list V) :=
  match get k m with
  | Some l => set k (l ++ [x]) m
  | None => set k [x] m
  end.

(** [m.set(k, (m.get(k) || 0) + 1)] *)
Definition incr (k : string) (m : t nat) : t nat :=
  match get k m with
  | Some n => set k (n + 1) m
  | None => set k 1 m
  end.

(** [new Map(entries)]: a later entry with a key already met overwrites. *)
Definition of_entries {V : Type} (es : list (string * V)) : t V :=
  fold_left (fun m e => set (fst e) (snd e) m) es [].

End JsMap.

(** ** JavaScript [Set] of strings, in insertion order *)

Module JsSet.

Definition t : Type := list string.

Definition has (x : string) (s : t) : bool := existsb (String.eqb x) s.

Definition add (x : string) (s : t) : t := if has x s then s else s ++ [x].

(** [new Set(l)] *)
Definition of_list (l : list string) : t := fold_left (fun s x => add x s) l [].

Definition size (s : t) : nat := List.length s.

End JsSet.

(** ** JavaScript arrays *)

Module JsArray.

Section Sort.
Context {A : Type} (cmp : A -> A -> Z).

(** [x] goes before the first element it does not have to follow. *)
Fixpoint insert (x : A) (l : list A) : list A :=
  match l with
  | [] => [x]
  | y :: ys => if (cmp x y <=? 0)%Z then x :: y :: ys else y :: insert x ys
  end.

(** [l.sort(cmp)] *)
Definition sort (l : list A) : list A := fold_right insert [] l.
End Sort.

(** [l.slice(0, e)]: a negative [e] counts from the end. *)
Definition slice0 {A : Type} (e : Z) (l : list A) : list A :=
  if (e <? 0)%Z then firstn (Z.to_nat (Z.of_nat (List.length l) + e)) l
  else firstn (Z.to_nat e) l.

(** [l.find(p)] *)
Definition find {A : Type} (p : A -> bool) (l : list A) : option A :=
  List.find p l.

(** Sign of a difference of two numbers, as a comparator result. *)
Definition sign (q : Q) : Z := Z.sgn (Qnum q).

End JsArray.

(* ------------------------------------------------------------------ *)
(** ** Configuration (config module) *)

(** The default of [seoConfig.siteUrl]. *)
Definition defaultSiteUrl : string := "https://codejeet.vercel.app".

(** [process.env.NEXT_PUBLIC_SITE_URL || "https://codejeet.vercel.app"]: the
    variable when it is set to a text that is not empty, the default
    otherwise. *)
Definition siteUrlOf (env : option string) : string :=
  match env with
  | Some url => if String.eqb url EmptyString then defaultSiteUrl else url
  | None => defaultSiteUrl
  end.

(** [seoConfig.siteUrl] of a deployment that leaves the variable unset.  The
    functions below that build URLs are taken at this value; what depends on
    the value itself (the filters of the hub links of a page) is stated for
    every site URL, on [canonicalUrlAt] and [getHubLinksAt]. *)
Definition siteUrl : string := siteUrlOf None.

Inductive PageKey : Type :=
  | PkCompanies | PkTopics | PkProblems
  | PkCompany | PkTopic | PkProblem | PkCompanyTopic.

(** [seoConfig.canonicalPatterns] *)
Definition canonicalPatterns (p : PageKey) : string :=
  match p with
  | PkCompanies => "/companies"
  | PkTopics => "/topics"
  | PkProblems => "/problems"
  | PkCompany => "/company/{slug}"
  | PkTopic => "/topic/{slug}"
  | PkProblem => "/problem/{slug}"
  | PkCompanyTopic => "/company/{company}/{topic}"
  end.

(** [getCanonicalUrl] where [seoConfig.siteUrl] is [site]; [params] lists
    [Object.entries(params)] in order. *)
Definition canonicalUrlAt (site : string) (pageType : PageKey)
           (params : list (string * string)) : string :=
  let pattern :=
    fold_left
      (fun pattern kv => Str.replace ("{" ++ fst kv ++ "}")%string (snd kv) pattern)
      params (canonicalPatterns pageType) in
  (site ++ pattern)%string.

Definition getCanonicalUrl (pageType : PageKey) (params : list (string * string))
  : string :=
  canonicalUrlAt siteUrl pageType params.

(** The abbreviation table of [formatDisplayName]. *)
Definition abbrevs : JsMap.t string :=
  [ ("aws", "AWS"); ("ibm", "IBM"); ("jpmorgan", "JPMorgan"); ("ml", "ML");
    ("ai", "AI"); ("dfs", "DFS"); ("bfs", "BFS"); ("dp", "DP");
    ("sql", "SQL"); ("api", "API") ].

Definition capitalize (word : string) : string :=
  match word with
  | EmptyString => EmptyString
  | String c rest => String (Str.upper_char c) rest
  end.

Definition formatDisplayName (slug : string) : string :=
  Str.join " "
    (map (fun word =>
            match JsMap.get (Str.toLowerCase word) abbrevs with
            | Some a => a
            | None => capitalize word
            end)
         (Str.split "-" slug)).

Definition companyTiers : JsMap.t Z :=
  [ ("google", 1); ("amazon", 1); ("meta", 1); ("facebook", 1);
    ("microsoft", 1); ("apple", 1); ("netflix", 1);
    ("uber", 2); ("airbnb", 2); ("linkedin", 2); ("twitter", 2);
    ("salesforce", 2); ("adobe", 2); ("oracle", 2); ("nvidia", 2);
    ("stripe", 2); ("square", 2); ("paypal", 2); ("bloomberg", 2);
    ("snap", 2); ("spotify", 2); ("lyft", 2); ("doordash", 2);
    ("instacart", 2); ("coinbase", 2); ("robinhood", 2); ("databricks", 2);
    ("snowflake", 2); ("palantir", 2); ("splunk", 2) ]%Z.

(** [companyTiers[slug.toLowerCase()] || 3], for a slug whose lower-cased
    form is no name of a property that every object inherits ([constructor],
    [__proto__]): under such a name the object literal answers with the
    inherited property, which is no number.  The statements that depend on a
    tier assume [ownTierKey] of the slugs they look up. *)
Definition getCompanyTier (slug : string) : Z :=
  match JsMap.get (Str.toLowerCase slug) companyTiers with
  | Some 0%Z | None => 3%Z
  | Some tier => tier
  end.

(** [seoConfig.thinContentThresholds.companyTopic] *)
Definition thinContentThreshold_companyTopic : nat := 3.

(* ------------------------------------------------------------------ *)
(** ** Data model (types module) *)

(** Modelled from the spec: the raw record type [QuestionWithDetails] is
    declared in the data module, which is not among the sources.  The fields
    are the ones the aggregation layer reads; [difficulty] is the string the
    code lower-cases, and [isPremiumFlag] is the column ["Is Premium"]. *)
Record QuestionWithDetails : Type := mkQuestion {
  q_id : Z;
  q_slug : string;
  q_title : string;
  q_difficulty : string;
  q_topics : list string;
  q_acceptance_rate : Q;
  q_company : string;
  q_frequency : Q;
  q_timeframe : string;
  q_isPremiumFlag : string;
  q_link : string
}.

(** The three counters of the interface, and the other keys the indexed
    increment may create at run time (their value is NaN). *)
Record DifficultyBreakdown : Type := mkBreakdown {
  easy : nat;
  medium : nat;
  hard : nat;
  nanKeys : JsSet.t
}.

Record TopicCount : Type := mkTopicCount {
  tc_slug : string;
  tc_name : string;
  tc_count : nat
}.

Record CompanyCount : Type := mkCompanyCount {
  cc_slug : string;
  cc_name : string;
  cc_count : nat
}.

Record CompanyFrequency : Type := mkCompanyFrequency {
  cf_company : string;
  cf_displayName : string;
  cf_frequency : Q;
  cf_timeframe : string
}.

(** [averageAcceptance], [averageFrequency] (floating-point roundings) and
    [lastUpdated] (wall clock) are left out of the records below, and so are
    the description texts; no function embedded here reads them. *)
Record Company : Type := mkCompany {
  co_slug : string;
  co_name : string;
  co_displayName : string;
  co_questionCount : nat;
  co_uniqueQuestionCount : nat;
  co_difficultyBreakdown : DifficultyBreakdown;
  co_topTopics : list TopicCount
}.

Record Topic : Type := mkTopic {
  tp_slug : string;
  tp_name : string;
  tp_questionCount : nat;
  tp_difficultyBreakdown : DifficultyBreakdown;
  tp_topCompanies : list CompanyCount;
  tp_relatedTopics : list string
}.

Record UniqueQuestion : Type := mkUniqueQuestion {
  uq_id : Z;
  uq_slug : string;
  uq_title : string;
  uq_difficulty : string;
  uq_topics : list string;
  uq_acceptanceRate : Q;
  uq_companies : list CompanyFrequency;
  uq_isPremium : bool;
  uq_leetcodeUrl : string;
  uq_relatedQuestions : list string
}.

Record QuestionWithCompanyContext : Type := mkQuestionContext {
  qc_id : Z;
  qc_slug : string;
  qc_title : string;
  qc_difficulty : string;
  qc_topics : list string;
  qc_acceptanceRate : Q;
  qc_frequency : Q;
  qc_timeframe : string;
  qc_isPremium : bool;
  qc_leetcodeUrl : string
}.

Record InternalLink : Type := mkLink {
  href : string;
  text : string;
  title : string;
  priority : Q
}.

Record CompanyTopicCrossRef : Type := mkCrossRef {
  cr_companySlug : string;
  cr_companyName : string;
  cr_topicSlug : string;
  cr_topicName : string;
  cr_questionCount : nat;
  cr_difficultyBreakdown : DifficultyBreakdown
}.

Record CrossReferenceIndex : Type := mkCrossReferenceIndex {
  companyTopics : JsMap.t (list CompanyTopicCrossRef);
  topicCompanies : JsMap.t (list CompanyTopicCrossRef);
  questionCompanies : JsMap.t (list string);
  questionTopics : JsMap.t (list string)
}.

(** The counts of the snapshot; [lastBuilt] (wall clock) is left out. *)
Record Stats : Type := mkStats {
  totalCompanies : nat;
  totalTopics : nat;
  totalUniqueQuestions : nat;
  totalQuestionRecords : nat
}.

Record BuildCache : Type := mkBuildCache {
  companies : JsMap.t Company;
  topics : JsMap.t Topic;
  questions : JsMap.t UniqueQuestion;
  crossRefs : CrossReferenceIndex;
  companyQuestions : JsMap.t (list QuestionWithCompanyContext);
  topicQuestions : JsMap.t (list QuestionWithCompanyContext);
  stats : Stats
}.

(* ------------------------------------------------------------------ *)
(** ** Aggregation layer (data-aggregator module): helper functions *)

(** [name.toLowerCase().replace(/\s+/g, "-")], written out at each use in the
    source. *)
Definition toSlug (name : string) : string := Str.hyphenate (Str.toLowerCase name).

(** [breakdown[key]++] *)
Definition bump (b : DifficultyBreakdown) (key : string) : DifficultyBreakdown :=
  if String.eqb key "easy"
  then mkBreakdown (easy b + 1) (medium b) (hard b) (nanKeys b)
  else if String.eqb key "medium"
  then mkBreakdown (easy b) (medium b + 1) (hard b) (nanKeys b)
  else if String.eqb key "hard"
  then mkBreakdown (easy b) (medium b) (hard b + 1) (nanKeys b)
  else mkBreakdown (easy b) (medium b) (hard b) (JsSet.add key (nanKeys b)).

Definition calculateDifficultyBreakdown (questions : list QuestionWithDetails)
  : DifficultyBreakdown :=
  fold_left (fun breakdown q => bump breakdown (Str.toLowerCase (q_difficulty q)))
            questions (mkBreakdown 0 0 0 []).

(** Comparator [(a, b) => b[1] - a[1]] on map entries. *)
Definition byCountDesc (a b : string * nat) : Z :=
  (Z.of_nat (snd b) - Z.of_nat (snd a))%Z.

(** Comparator by tier, then by count descending. *)
Definition byTierThenCount (a b : string * nat) : Z :=
  let tierDiff := (getCompanyTier (fst a) - getCompanyTier (fst b))%Z in
  if negb (tierDiff =? 0)%Z then tierDiff
  else (Z.of_nat (snd b) - Z.of_nat (snd a))%Z.

Definition calculateTopTopics (questions : list QuestionWithDetails) (limit : Z)
  : list TopicCount :=
  let topicCounts :=
    fold_left (fun m q => fold_left (fun m topic => JsMap.incr topic m) (q_topics q) m)
              questions JsMap.empty in
  map (fun e => mkTopicCount (toSlug (fst e)) (fst e) (snd e))
      (JsArray.slice0 limit (JsArray.sort byCountDesc topicCounts)).

Definition calculateTopCompanies (questions : list QuestionWithDetails) (limit : Z)
  : list CompanyCount :=
  let companyCounts :=
    fold_left (fun m q => JsMap.incr (q_company q) m) questions JsMap.empty in
  map (fun e => mkCompanyCount (fst e) (formatDisplayName (fst e)) (snd e))
      (JsArray.slice0 limit (JsArray.sort byTierThenCount companyCounts)).

(** [q.topics.some((t) => t.toLowerCase() === lower)] *)
Definition hasTopicLower (lower : string) (q : QuestionWithDetails) : bool :=
  existsb (fun t => String.eqb (Str.toLowerCase t) lower) (q_topics q).

Definition calculateRelatedTopics (questions : list QuestionWithDetails)
           (targetTopic : string) (limit : Z) : list string :=
  let targetLower := Str.toLowerCase targetTopic in
  let cooccurrence :=
    fold_left
      (fun m q =>
         if hasTopicLower targetLower q
         then fold_left
                (fun m topic =>
                   if negb (String.eqb (Str.toLowerCase topic) targetLower)
                   then JsMap.incr topic m else m)
                (q_topics q) m
         else m)
      questions JsMap.empty in
  map (fun e => toSlug (fst e))
      (JsArray.slice0 limit (JsArray.sort byCountDesc cooccurrence)).

Definition findRelatedQuestions (questions : list QuestionWithDetails)
           (target : QuestionWithDetails) (limit : Z) : list string :=
  let scores :=
    fold_left
      (fun scores q =>
         if String.eqb (q_slug q) (q_slug target) then scores
         else
           let sameDifficulty :=
             if String.eqb (q_difficulty q) (q_difficulty target) then 1 else 0 in
           let overlap :=
             List.length
               (filter (fun t =>
                          existsb (fun tt => String.eqb (Str.toLowerCase tt)
                                                        (Str.toLowerCase t))
                                  (q_topics target))
                       (q_topics q)) in
           let score := sameDifficulty + overlap * 2 in
           if 0 <? score then JsMap.set (q_slug q) score scores else scores)
      questions JsMap.empty in
  map fst (JsArray.slice0 limit (JsArray.sort byCountDesc scores)).

(* ------------------------------------------------------------------ *)
(** ** Aggregation layer: the derived structures *)

Definition companyEntryOrder (a b : string * Company) : Z :=
  let tierDiff := (getCompanyTier (fst a) - getCompanyTier (fst b))%Z in
  if negb (tierDiff =? 0)%Z then tierDiff
  else (Z.of_nat (co_questionCount (snd b)) - Z.of_nat (co_questionCount (snd a)))%Z.

Definition aggregateCompanies (questions : list QuestionWithDetails)
           (companyList : list string) : JsMap.t Company :=
  let companies :=
    fold_left
      (fun companies companySlug =>
         let companyQuestions :=
           filter (fun q => String.eqb (q_company q) companySlug) questions in
         if List.length companyQuestions =? 0 then companies
         else
           let difficultyBreakdown := calculateDifficultyBreakdown companyQuestions in
           let topTopics := calculateTopTopics companyQuestions 10 in
           let uniqueQuestionSlugs := JsSet.of_list (map q_slug companyQuestions) in
           JsMap.set companySlug
             {| co_slug := companySlug;
                co_name := companySlug;
                co_displayName := formatDisplayName companySlug;
                co_questionCount := List.length companyQuestions;
                co_uniqueQuestionCount := JsSet.size uniqueQuestionSlugs;
                co_difficultyBreakdown := difficultyBreakdown;
                co_topTopics := topTopics |}
             companies)
      companyList JsMap.empty in
  JsMap.of_entries (JsArray.sort companyEntryOrder companies).

Definition topicEntryOrder (a b : string * Topic) : Z :=
  (Z.of_nat (tp_questionCount (snd b)) - Z.of_nat (tp_questionCount (snd a)))%Z.

Definition aggregateTopics (questions : list QuestionWithDetails)
           (topicList : list string) : JsMap.t Topic :=
  let topics :=
    fold_left
      (fun topics topicName =>
         let topicQuestions :=
           filter (hasTopicLower (Str.toLowerCase topicName)) questions in
         if List.length topicQuestions =? 0 then topics
         else
           let topicSlug := toSlug topicName in
           JsMap.set topicSlug
             {| tp_slug := topicSlug;
                tp_name := topicName;
                tp_questionCount := List.length topicQuestions;
                tp_difficultyBreakdown := calculateDifficultyBreakdown topicQuestions;
                tp_topCompanies := calculateTopCompanies topicQuestions 10;
                tp_relatedTopics := calculateRelatedTopics questions topicName 5 |}
             topics)
      topicList JsMap.empty in
  JsMap.of_entries (JsArray.sort topicEntryOrder topics).

(** Comparator [(a, b) => b.frequency - a.frequency] on company frequencies. *)
Definition byFrequencyDesc (a b : CompanyFrequency) : Z :=
  JsArray.sign (cf_frequency b - cf_frequency a).

Definition questionEntryOrder (a b : string * UniqueQuestion) : Z :=
  (Z.of_nat (List.length (uq_companies (snd b)))
   - Z.of_nat (List.length (uq_companies (snd a))))%Z.

Definition deduplicateQuestions (questions : list QuestionWithDetails)
  : JsMap.t UniqueQuestion :=
  (* Group by question slug *)
  let questionCompanies :=
    fold_left
      (fun m q =>
         JsMap.push (q_slug q)
           {| cf_company := q_company q;
              cf_displayName := formatDisplayName (q_company q);
              cf_frequency := q_frequency q;
              cf_timeframe := q_timeframe q |}
           m)
      questions JsMap.empty in
  (* Create unique question entries *)
  let uniqueQuestions :=
    fold_left
      (fun uniqueQuestions q =>
         if JsMap.has (q_slug q) uniqueQuestions then uniqueQuestions
         else
           let companies :=
             JsArray.sort byFrequencyDesc
               (match JsMap.get (q_slug q) questionCompanies with
                | Some l => l
                | None => []
                end) in
           let relatedSlugs := findRelatedQuestions questions q 5 in
           JsMap.set (q_slug q)
             {| uq_id := q_id q;
                uq_slug := q_slug q;
                uq_title := q_title q;
                uq_difficulty := q_difficulty q;
                uq_topics := q_topics q;
                uq_acceptanceRate := q_acceptance_rate q;
                uq_companies := companies;
                uq_isPremium := String.eqb (q_isPremiumFlag q) "Y";
                uq_leetcodeUrl := q_link q;
                uq_relatedQuestions := relatedSlugs |}
             uniqueQuestions)
      questions JsMap.empty in
  JsMap.of_entries (JsArray.sort questionEntryOrder uniqueQuestions).

(** The key [`${q.company}:${topic.toLowerCase()}`] of the cross-reference
    buckets. *)
Definition crossRefKey (company topic : string) : string :=
  (company ++ ":" ++ Str.toLowerCase topic)%string.

(** The buckets [crossRefMap]: one push per record and per entry of its topic
    list. *)
Definition crossRefBuckets (questions : list QuestionWithDetails)
  : JsMap.t (list QuestionWithDetails) :=
  fold_left
    (fun m q =>
       fold_left (fun m topic => JsMap.push (crossRefKey (q_company q) topic) q m)
                 (q_topics q) m)
    questions JsMap.empty.

(** The cross-reference made from one bucket.  [key.split(":")] always has two
    pieces at least, since every key holds a colon. *)
Definition makeCrossRef (key : string) (qs : list QuestionWithDetails)
  : CompanyTopicCrossRef :=
  let parts := Str.split ":" key in
  let companySlug := nth 0 parts EmptyString in
  let topicLower := nth 1 parts EmptyString in
  let topicSlug := Str.hyphenate topicLower in
  {| cr_companySlug := companySlug;
     cr_companyName := formatDisplayName companySlug;
     cr_topicSlug := topicSlug;
     cr_topicName :=
       match qs with
       | q0 :: _ =>
           match JsArray.find (fun t => String.eqb (Str.toLowerCase t) topicLower)
                              (q_topics q0) with
           | Some t => if String.eqb t EmptyString then topicLower else t
           | None => topicLower
           end
       | [] => topicLower
       end;
     cr_questionCount := List.length qs;
     cr_difficultyBreakdown := calculateDifficultyBreakdown qs |}.

Definition byQuestionCountDesc (a b : CompanyTopicCrossRef) : Z :=
  (Z.of_nat (cr_questionCount b) - Z.of_nat (cr_questionCount a))%Z.

(** [for (const refs of m.values()) refs.sort(cmp)] *)
Definition sortValues {V : Type} (cmp : V -> V -> Z) (m : JsMap.t (list V))
  : JsMap.t (list V) :=
  map (fun e => (fst e, JsArray.sort cmp (snd e))) m.

Definition buildCrossReferenceIndex (questions : list QuestionWithDetails)
  : CrossReferenceIndex :=
  (* question -> companies and question -> topics *)
  let questionCompanies :=
    fold_left
      (fun m q =>
         let m := if JsMap.has (q_slug q) m then m else JsMap.set (q_slug q) [] m in
         let companies :=
           match JsMap.get (q_slug q) m with Some l => l | None => [] end in
         if existsb (String.eqb (q_company q)) companies then m
         else JsMap.set (q_slug q) (companies ++ [q_company q]) m)
      questions JsMap.empty in
  let questionTopics :=
    fold_left
      (fun m q =>
         if JsMap.has (q_slug q) m then m else JsMap.set (q_slug q) (q_topics q) m)
      questions JsMap.empty in
  (* company-topic cross references *)
  let crossRefMap := crossRefBuckets questions in
  let views :=
    fold_left
      (fun (views : JsMap.t (list CompanyTopicCrossRef)
                    * JsMap.t (list CompanyTopicCrossRef)) entry =>
         let crossRef := makeCrossRef (fst entry) (snd entry) in
         (JsMap.push (cr_companySlug crossRef) crossRef (fst views),
          JsMap.push (cr_topicSlug crossRef) crossRef (snd views)))
      crossRefMap (JsMap.empty, JsMap.empty) in
  {| companyTopics := sortValues byQuestionCountDesc (fst views);
     topicCompanies := sortValues byQuestionCountDesc (snd views);
     questionCompanies := questionCompanies;
     questionTopics := questionTopics |}.

Definition toContext (q : QuestionWithDetails) : QuestionWithCompanyContext :=
  {| qc_id := q_id q;
     qc_slug := q_slug q;
     qc_title := q_title q;
     qc_difficulty := q_difficulty q;
     qc_topics := q_topics q;
     qc_acceptanceRate := q_acceptance_rate q;
     qc_frequency := q_frequency q;
     qc_timeframe := q_timeframe q;
     qc_isPremium := String.eqb (q_isPremiumFlag q) "Y";
     qc_leetcodeUrl := q_link q |}.

Definition byContextFrequencyDesc (a b : QuestionWithCompanyContext) : Z :=
  JsArray.sign (qc_frequency b - qc_frequency a).

Definition buildCompanyQuestionsIndex (questions : list QuestionWithDetails)
  : JsMap.t (list QuestionWithCompanyContext) :=
  let index :=
    fold_left (fun index q => JsMap.push (q_company q) (toContext q) index)
              questions JsMap.empty in
  sortValues byContextFrequencyDesc index.

(** The loop that keeps the first occurrence of each slug. *)
Definition dedupeBySlug (qs : list QuestionWithCompanyContext)
  : list QuestionWithCompanyContext :=
  snd (fold_left
         (fun (st : JsSet.t * list QuestionWithCompanyContext) q =>
            if negb (JsSet.has (qc_slug q) (fst st))
            then (JsSet.add (qc_slug q) (fst st), snd st ++ [q])
            else st)
         qs ([], [])).

Definition buildTopicQuestionsIndex (questions : list QuestionWithDetails)
  : JsMap.t (list QuestionWithCompanyContext) :=
  let index :=
    fold_left
      (fun index q =>
         fold_left (fun index topic => JsMap.push (toSlug topic) (toContext q) index)
                   (q_topics q) index)
      questions JsMap.empty in
  map (fun e => (fst e, dedupeBySlug (JsArray.sort byContextFrequencyDesc (snd e))))
      index.

(* ------------------------------------------------------------------ *)
(** ** The build *)

(** A rejected promise carries the reason of the failure. *)
Inductive BuildError : Type :=
  | SourceUnavailable (what : string)
  | TypeError.   (* thrown by the runtime when a property of [undefined] is read *)

Definition Result (A : Type) : Type := (BuildError + A)%type.

Definition ret {A : Type} (a : A) : Result A := inr a.

Definition bind {A B : Type} (c : Result A) (k : A -> Result B) : Result B :=
  match c with
  | inl e => inl e
  | inr a => k a
  end.

Notation "x <- c ;; k" := (bind c (fun x => k))
  (at level 61, c at next level, right associativity).

(** Modelled from the spec: the raw-data collaborator ([getQuestions],
    [getCompanies], [getTopics] of the data module, which is not among the
    sources).  Each load either fails or yields its complete list. *)
Record DataSource : Type := mkDataSource {
  getQuestions : Result (list QuestionWithDetails);
  getCompanies : Result (list string);
  getTopics : Result (list string)
}.

(** The settled value of the promise of [buildAggregatedData]: an awaited load
    that rejects rejects the build; nothing else in the body throws on records
    that carry their fields. *)
Definition buildAggregatedData (src : DataSource) : Result BuildCache :=
  rawQuestions <- getQuestions src ;;
  companyList <- getCompanies src ;;
  topicList <- getTopics src ;;
  let companies := aggregateCompanies rawQuestions companyList in
  let topics := aggregateTopics rawQuestions topicList in
  let questions := deduplicateQuestions rawQuestions in
  let crossRefs := buildCrossReferenceIndex rawQuestions in
  let companyQuestions := buildCompanyQuestionsIndex rawQuestions in
  let topicQuestions := buildTopicQuestionsIndex rawQuestions in
  let stats :=
    {| totalCompanies := JsMap.size companies;
       totalTopics := JsMap.size topics;
       totalUniqueQuestions := JsMap.size questions;
       totalQuestionRecords := List.length rawQuestions |} in
  ret {| companies := companies;
         topics := topics;
         questions := questions;
         crossRefs := crossRefs;
         companyQuestions := companyQuestions;
         topicQuestions := topicQuestions;
         stats := stats |}.

(* ------------------------------------------------------------------ *)
(** ** The build over records as they arrive *)

(** The interface [QuestionWithDetails] is erased at run time, and the build
    checks no record against it.  Of the fields of a record the build reads a
    property or calls a method of three, [company], [topics] and
    [difficulty]: these may be [undefined] here.  The other fields are only
    copied, compared or added up, which never throws; they are taken as
    present. *)
Record RawQuestion : Type := mkRawQuestion {
  rq_id : Z;
  rq_slug : string;
  rq_title : string;
  rq_difficulty : option string;
  rq_topics : option (list string);
  rq_acceptance_rate : Q;
  rq_company : option string;
  rq_frequency : Q;
  rq_timeframe : string;
  rq_isPremiumFlag : string;
  rq_link : string
}.

(** A record that has the three fields, read as the interface promises. *)
Definition typed (q : RawQuestion) : option QuestionWithDetails :=
  match rq_difficulty q, rq_topics q, rq_company q with
  | Some difficulty, Some topics, Some company =>
      Some {| q_id := rq_id q; q_slug := rq_slug q; q_title := rq_title q;
              q_difficulty := difficulty; q_topics := topics;
              q_acceptance_rate := rq_acceptance_rate q; q_company := company;
              q_frequency := rq_frequency q; q_timeframe := rq_timeframe q;
              q_isPremiumFlag := rq_isPremiumFlag q; q_link := rq_link q |}
  | _, _, _ => None
  end.

Definition untyped (q : QuestionWithDetails) : RawQuestion :=
  {| rq_id := q_id q; rq_slug := q_slug q; rq_title := q_title q;
     rq_difficulty := Some (q_difficulty q); rq_topics := Some (q_topics q);
     rq_acceptance_rate := q_acceptance_rate q; rq_company := Some (q_company q);
     rq_frequency := q_frequency q; rq_timeframe := q_timeframe q;
     rq_isPremiumFlag := q_isPremiumFlag q; rq_link := q_link q |}.

Fixpoint typedRecords (raw : list RawQuestion) : option (list QuestionWithDetails) :=
  match raw with
  | [] => Some []
  | q :: rest =>
      match typed q, typedRecords rest with
      | Some t, Some ts => Some (t :: ts)
      | _, _ => None
      end
  end.

(** Reading a property of [undefined], calling a method of it or iterating
    over it throws a [TypeError]. *)
Definition deref {A : Type} (field : option A) : Result A :=
  match field with
  | Some x => ret x
  | None => inl TypeError
  end.

(** A loop, run for what it throws. *)
Fixpoint forEach {A : Type} (body : A -> Result unit) (xs : list A) : Result unit :=
  match xs with
  | [] => ret tt
  | x :: rest => _ <- body x ;; forEach body rest
  end.

(** [xs.filter(test)] with a test that may throw. *)
Fixpoint filterM {A : Type} (test : A -> Result bool) (xs : list A) : Result (list A) :=
  match xs with
  | [] => ret []
  | x :: rest =>
      keep <- test x ;;
      kept <- filterM test rest ;;
      ret (if keep : bool then x :: kept else kept)
  end.

(** A loop that threads an accumulator and may throw. *)
Fixpoint foldM {A S : Type} (step : S -> A -> Result S) (xs : list A) (s : S)
  : Result S :=
  match xs with
  | [] => ret s
  | x :: rest => s' <- step s x ;; foldM step rest s'
  end.

(** What follows keeps, of each function of the build, the reads that throw
    on [undefined], in the order and under the conditions of the source; the
    values are those of the functions above once every read has succeeded. *)

(** [q.company === companySlug] *)
Definition companyIs (companySlug : string) (q : RawQuestion) : bool :=
  match rq_company q with
  | Some company => String.eqb company companySlug
  | None => false
  end.

(** [calculateDifficultyBreakdown]: [q.difficulty.toLowerCase()] for every
    question. *)
Definition readsOfDifficultyBreakdown (questions : list RawQuestion) : Result unit :=
  forEach (fun q => _ <- deref (rq_difficulty q) ;; ret tt) questions.

(** [calculateTopTopics]: [for (const topic of q.topics)] for every question. *)
Definition readsOfTopTopics (questions : list RawQuestion) : Result unit :=
  forEach (fun q => _ <- deref (rq_topics q) ;; ret tt) questions.

(** [calculateTopCompanies]: the companies are counted under [q.company]; the
    comparator lower-cases both keys it is given ([getCompanyTier]), and with
    one key only, which is sorted without a comparison and kept by the slice,
    [formatDisplayName] splits it. *)
Definition readsOfTopCompanies (questions : list RawQuestion) : Result unit :=
  forEach (fun q => _ <- deref (rq_company q) ;; ret tt) questions.

(** [calculateRelatedTopics]: [q.topics.some(...)] for every question. *)
Definition readsOfRelatedTopics (questions : list RawQuestion) : Result unit :=
  forEach (fun q => _ <- deref (rq_topics q) ;; ret tt) questions.

Definition readsOfAggregateCompanies (questions : list RawQuestion)
           (companyList : list string) : Result unit :=
  forEach
    (fun companySlug =>
       let companyQuestions := filter (companyIs companySlug) questions in
       if List.length companyQuestions =? 0 then ret tt
       else
         _ <- readsOfDifficultyBreakdown companyQuestions ;;
         readsOfTopTopics companyQuestions)
    companyList.

(** [q.topics.some((t) => t.toLowerCase() === topicName.toLowerCase())] *)
Definition someTopicIs (topicName : string) (q : RawQuestion) : Result bool :=
  topics <- deref (rq_topics q) ;;
  ret (existsb (fun t => String.eqb (Str.toLowerCase t) (Str.toLowerCase topicName))
               topics).

Definition readsOfAggregateTopics (questions : list RawQuestion)
           (topicList : list string) : Result unit :=
  forEach
    (fun topicName =>
       topicQuestions <- filterM (someTopicIs topicName) questions ;;
       if List.length topicQuestions =? 0 then ret tt
       else
         _ <- readsOfDifficultyBreakdown topicQuestions ;;
         _ <- readsOfTopCompanies topicQuestions ;;
         readsOfRelatedTopics questions)
    topicList.

(** [findRelatedQuestions]: [q.topics.filter(...)] for every question of
    another slug, and [target.topics.some(...)] once per topic of it. *)
Definition readsOfFindRelatedQuestions (questions : list RawQuestion)
           (target : RawQuestion) : Result unit :=
  forEach
    (fun q =>
       if String.eqb (rq_slug q) (rq_slug target) then ret tt
       else
         topics <- deref (rq_topics q) ;;
         forEach (fun _ => _ <- deref (rq_topics target) ;; ret tt) topics)
    questions.

(** [generateQuestionDescription]: [q.topics.slice(0, 3)]. *)
Definition readsOfQuestionDescription (q : RawQuestion) : Result unit :=
  _ <- deref (rq_topics q) ;; ret tt.

(** The second loop of [deduplicateQuestions]: the first record of each slug
    makes the entry. *)
Fixpoint readsOfUniqueEntries (questions : list RawQuestion) (seen : JsSet.t)
         (rest : list RawQuestion) : Result unit :=
  match rest with
  | [] => ret tt
  | q :: rest' =>
      if JsSet.has (rq_slug q) seen then readsOfUniqueEntries questions seen rest'
      else
        _ <- readsOfFindRelatedQuestions questions q ;;
        _ <- readsOfQuestionDescription q ;;
        readsOfUniqueEntries questions (JsSet.add (rq_slug q) seen) rest'
  end.

Definition readsOfDeduplicateQuestions (questions : list RawQuestion) : Result unit :=
  (* Group by question slug: formatDisplayName(q.company) splits the slug *)
  _ <- forEach (fun q => _ <- deref (rq_company q) ;; ret tt) questions ;;
  (* Create unique question entries *)
  readsOfUniqueEntries questions [] questions.

(** The key of a bucket; the template literal prints a missing company as
    [undefined]. *)
Definition rawCrossRefKey (q : RawQuestion) (topic : string) : string :=
  crossRefKey (match rq_company q with
               | Some company => company
               | None => "undefined"
               end) topic.

(** The buckets [crossRefMap] over raw records: [for (const topic of
    q.topics)]. *)
Definition rawCrossRefBuckets (questions : list RawQuestion)
  : Result (JsMap.t (list RawQuestion)) :=
  foldM
    (fun m q =>
       topics <- deref (rq_topics q) ;;
       ret (fold_left (fun m topic => JsMap.push (rawCrossRefKey q topic) q m)
                      topics m))
    questions JsMap.empty.

(** [buildCrossReferenceIndex]: the loop that fills the buckets, then
    [calculateDifficultyBreakdown(qs)] for every bucket. *)
Definition readsOfCrossReferenceIndex (questions : list RawQuestion) : Result unit :=
  buckets <- rawCrossRefBuckets questions ;;
  forEach (fun entry => readsOfDifficultyBreakdown (snd entry)) buckets.

(** [buildTopicQuestionsIndex]: [for (const topic of q.topics)]. *)
Definition readsOfTopicQuestionsIndex (questions : list RawQuestion) : Result unit :=
  forEach (fun q => _ <- deref (rq_topics q) ;; ret tt) questions.

(** The question is in a bucket of the map. *)
Definition bucketed (q : RawQuestion) (m : JsMap.t (list RawQuestion)) : Prop :=
  exists k l, JsMap.get k m = Some l /\ In q l.

(** A computation that returns or throws a [TypeError]. *)
Definition returnsOrThrows {A : Type} (c : Result A) : Prop :=
  (exists a, c = inr a) \/ c = inl TypeError.

(** The raw-data collaborator, without the promise of the interface. *)
Record RawDataSource : Type := mkRawDataSource {
  rawGetQuestions : Result (list RawQuestion);
  rawGetCompanies : Result (list string);
  rawGetTopics : Result (list string)
}.

(** What a build that returns publishes: a snapshot of the typed model, or,
    from records of which one lacks a difficulty that nothing reads, a
    snapshot that holds [undefined] for the difficulty of a question of the
    company index, which the typed model does not describe. *)
Inductive Published : Type :=
  | Snapshot (cache : BuildCache)
  | SnapshotWithUndefined.

(** [buildAggregatedData] over raw records: the loads, the six builders in
    the order of the source ([buildCompanyQuestionsIndex] reads nothing that
    throws), then the snapshot. *)
Definition buildFromRaw (src : RawDataSource) : Result Published :=
  rawQuestions <- rawGetQuestions src ;;
  companyList <- rawGetCompanies src ;;
  topicList <- rawGetTopics src ;;
  _ <- readsOfAggregateCompanies rawQuestions companyList ;;
  _ <- readsOfAggregateTopics rawQuestions topicList ;;
  _ <- readsOfDeduplicateQuestions rawQuestions ;;
  _ <- readsOfCrossReferenceIndex rawQuestions ;;
  _ <- readsOfTopicQuestionsIndex rawQuestions ;;
  match typedRecords rawQuestions with
  | Some questions =>
      cache <- buildAggregatedData
                 {| getQuestions := inr questions;
                    getCompanies := inr companyList;
                    getTopics := inr topicList |} ;;
      ret (Snapshot cache)
  | None => ret SnapshotWithUndefined
  end.

(* ------------------------------------------------------------------ *)
(** ** Public accessors, after [await getBuildCache()] has yielded [cache] *)

(** [x || null]: an entity object is never falsy. *)
Definition getCompanyBySlug (cache : BuildCache) (slug : string) : option Company :=
  JsMap.get slug (companies cache).

Definition getTopicBySlug (cache : BuildCache) (slug : string) : option Topic :=
  JsMap.get slug (topics cache).

Definition getQuestionBySlug (cache : BuildCache) (slug : string)
  : option UniqueQuestion :=
  JsMap.get slug (questions cache).

(** [x || []]: an array is never falsy. *)
Definition orEmpty {A : Type} (x : option (list A)) : list A :=
  match x with Some l => l | None => [] end.

Definition getQuestionsByCompany (cache : BuildCache) (companySlug : string)
  : list QuestionWithCompanyContext :=
  orEmpty (JsMap.get companySlug (companyQuestions cache)).

Definition getQuestionsByTopic (cache : BuildCache) (topicSlug : string)
  : list QuestionWithCompanyContext :=
  orEmpty (JsMap.get topicSlug (topicQuestions cache)).

Definition getCompanyTopicCrossRefs (cache : BuildCache) (companySlug : string)
  : list CompanyTopicCrossRef :=
  orEmpty (JsMap.get companySlug (companyTopics (crossRefs cache))).

Definition getTopicCompanyCrossRefs (cache : BuildCache) (topicSlug : string)
  : list CompanyTopicCrossRef :=
  orEmpty (JsMap.get topicSlug (topicCompanies (crossRefs cache))).

Definition getQuestionCompanies (cache : BuildCache) (questionSlug : string)
  : list string :=
  orEmpty (JsMap.get questionSlug (questionCompanies (crossRefs cache))).

(* ------------------------------------------------------------------ *)
(** ** Cache controller: [getBuildCache] on the event loop

    The module variables [buildCache] and [cachePromise], the promises made
    by [buildAggregatedData()] (numbered in creation order) and the calls of
    [getBuildCache] made so far.  Execution is cooperative: a call runs up to
    its [await] without interruption, a build promise settles at some later
    turn, and the suspended frame is resumed after that. *)

Module CacheCtl.

Inductive PromiseState : Type :=
  | Pending
  | Fulfilled (v : BuildCache)
  | Rejected (e : BuildError).

(** What the promise returned by one call of [getBuildCache] stands on. *)
Inductive Call : Type :=
  | Returned (v : BuildCache)   (* [return buildCache], at once or after the await *)
  | Forwarded (p : nat)         (* [return cachePromise]: adopts build promise [p] *)
  | Suspended (p : nat)         (* stopped at [await cachePromise], awaiting [p] *)
  | Threw (e : BuildError).     (* the await threw: the frame ended there *)

Record State : Type := mkState {
  buildCache : option BuildCache;
  cachePromise : option nat;
  promises : list PromiseState;
  calls : list Call
}.

(** A freshly loaded module. *)
Definition init : State :=
  {| buildCache := None; cachePromise := None; promises := []; calls := [] |}.

(** Number of invocations of [buildAggregatedData]. *)
Definition builds (st : State) : nat := List.length (promises st).

(** One call of [getBuildCache], up to its return or its [await]. *)
Definition getBuildCache (st : State) : State :=
  match buildCache st with
  | Some v =>
      {| buildCache := buildCache st; cachePromise := cachePromise st;
         promises := promises st; calls := calls st ++ [Returned v] |}
  | None =>
      match cachePromise st with
      | Some p =>
          {| buildCache := buildCache st; cachePromise := cachePromise st;
             promises := promises st; calls := calls st ++ [Forwarded p] |}
      | None =>
          let p := List.length (promises st) in
          {| buildCache := None; cachePromise := Some p;
             promises := promises st ++ [Pending];
             calls := calls st ++ [Suspended p] |}
      end
  end.

Fixpoint update {A : Type} (i : nat) (x : A) (l : list A) : list A :=
  match l, i with
  | [], _ => []
  | _ :: l', 0 => x :: l'
  | y :: l', S i' => y :: update i' x l'
  end.

(** Build promise [p] settles with the outcome of the build; a promise settles
    once. *)
Definition settle (p : nat) (outcome : Result BuildCache) (st : State) : State :=
  match nth_error (promises st) p with
  | Some Pending =>
      {| buildCache := buildCache st; cachePromise := cachePromise st;
         promises :=
           update p (match outcome with
                     | inr v => Fulfilled v
                     | inl e => Rejected e
                     end) (promises st);
         calls := calls st |}
  | _ => st
  end.

(** The frames suspended on a settled promise run on: on fulfilment
    [buildCache = v; cachePromise = null; return buildCache], on rejection the
    [await] throws and the two assignments are skipped. *)
Fixpoint resumeFrames (ps : list PromiseState) (cs : list Call)
         (bc : option BuildCache) (cp : option nat)
  : list Call * option BuildCache * option nat :=
  match cs with
  | [] => ([], bc, cp)
  | Suspended p :: cs' =>
      match nth p ps Pending with
      | Fulfilled v =>
          let '(cs'', bc', cp') := resumeFrames ps cs' (Some v) None in
          (Returned v :: cs'', bc', cp')
      | Rejected e =>
          let '(cs'', bc', cp') := resumeFrames ps cs' bc cp in
          (Threw e :: cs'', bc', cp')
      | Pending =>
          let '(cs'', bc', cp') := resumeFrames ps cs' bc cp in
          (Suspended p :: cs'', bc', cp')
      end
  | c :: cs' =>
      let '(cs'', bc', cp') := resumeFrames ps cs' bc cp in
      (c :: cs'', bc', cp')
  end.

Definition resume (st : State) : State :=
  let '(cs, bc, cp) :=
    resumeFrames (promises st) (calls st) (buildCache st) (cachePromise st) in
  {| buildCache := bc; cachePromise := cp; promises := promises st; calls := cs |}.

(** State of the promise a call returned. *)
Definition outcome (st : State) (c : Call) : PromiseState :=
  match c with
  | Returned v => Fulfilled v
  | Forwarded p => nth p (promises st) Pending
  | Suspended _ => Pending
  | Threw e => Rejected e
  end.

Definition outcomes (st : State) : list PromiseState :=
  map (outcome st) (calls st).

(** [n] calls in a row, none of them interleaved with a settlement. *)
Definition concurrentCalls (n : nat) (st : State) : State :=
  Nat.iter n getBuildCache st.

(** The build started by the data source [src] finishes, and the waiting frame
    runs on. *)
Definition finishBuild (src : DataSource) (p : nat) (st : State) : State :=
  resume (settle p (buildAggregatedData src) st).

End CacheCtl.

(* ------------------------------------------------------------------ *)
(** ** Related-content recommender (internal-linking module) *)

Definition priorityHigh : Q := 1.
Definition priorityMid : Q := 8 # 10.
Definition priorityLow : Q := 7 # 10.

Definition companyLink (company : Company) : InternalLink :=
  {| href := getCanonicalUrl PkCompany [("slug", co_slug company)];
     text := co_displayName company;
     title := (co_displayName company ++ " Interview Questions ("
               ++ Str.of_nat (co_questionCount company) ++ " problems)")%string;
     priority := if (getCompanyTier (co_slug company) =? 1)%Z
                 then priorityHigh else priorityMid |}.

Definition topicLink (prio : Q) (topic : Topic) : InternalLink :=
  {| href := getCanonicalUrl PkTopic [("slug", tp_slug topic)];
     text := tp_name topic;
     title := (tp_name topic ++ " Problems ("
               ++ Str.of_nat (tp_questionCount topic) ++ " questions)")%string;
     priority := prio |}.

Definition problemLink (prio : Q) (question : UniqueQuestion) : InternalLink :=
  {| href := getCanonicalUrl PkProblem [("slug", uq_slug question)];
     text := uq_title question;
     title := (uq_title question ++ " - " ++ uq_difficulty question)%string;
     priority := prio |}.

(** Comparator [(a, b) => b.score - a.score]. *)
Definition byScoreDesc {A : Type} (a b : A * Z) : Z := (snd b - snd a)%Z.

(** The loop of [getRelatedCompanies] that fills [scored]. *)
Definition scoreRelatedCompanies (currentCompany : Company)
           (allCompanies : JsMap.t Company) : list (Company * Z) :=
  let currentTopics := JsSet.of_list (map tc_slug (co_topTopics currentCompany)) in
  let currentTier := getCompanyTier (co_slug currentCompany) in
  fold_left
    (fun scored company =>
       if String.eqb (co_slug company) (co_slug currentCompany) then scored
       else
         let score := 0%Z in
         (* Topic overlap (primary factor) *)
         let topicOverlap :=
           List.length (filter (fun t => JsSet.has (tc_slug t) currentTopics)
                               (co_topTopics company)) in
         let score := (score + Z.of_nat topicOverlap * 10)%Z in
         (* Same tier bonus *)
         let companyTier := getCompanyTier (co_slug company) in
         let score := if (companyTier =? currentTier)%Z then (score + 5)%Z else score in
         let score := if (companyTier <? currentTier)%Z then (score + 3)%Z else score in
         (* Similar size bonus *)
         let sizeDiff :=
           Z.abs (Z.of_nat (co_questionCount company)
                  - Z.of_nat (co_questionCount currentCompany)) in
         let score := if (sizeDiff <? 50)%Z then (score + 3)%Z else score in
         let score := if (sizeDiff <? 100)%Z then (score + 1)%Z else score in
         if (score >? 0)%Z then scored ++ [(company, score)] else scored)
    (JsMap.values allCompanies) [].

(** [scored.sort(...).slice(0, limit)] *)
Definition rankRelatedCompanies (currentCompany : Company)
           (allCompanies : JsMap.t Company) (limit : Z) : list (Company * Z) :=
  JsArray.slice0 limit
    (JsArray.sort byScoreDesc (scoreRelatedCompanies currentCompany allCompanies)).

Definition getRelatedCompanies (currentCompany : Company)
           (allCompanies : JsMap.t Company) (limit : Z) : list InternalLink :=
  map (fun cs => companyLink (fst cs))
      (rankRelatedCompanies currentCompany allCompanies limit).

Definition byTopicCountDesc (a b : Topic) : Z :=
  (Z.of_nat (tp_questionCount b) - Z.of_nat (tp_questionCount a))%Z.

Definition getRelatedTopics (currentTopic : Topic) (allTopics : JsMap.t Topic)
           (limit : Z) : list InternalLink :=
  let relatedSlugs := JsSet.of_list (tp_relatedTopics currentTopic) in
  (* First, add explicitly related topics *)
  let links :=
    fold_left
      (fun links slug =>
         match JsMap.get slug allTopics with
         | Some topic => links ++ [topicLink priorityHigh topic]
         | None => links
         end)
      relatedSlugs [] in
  (* Then add popular topics if needed *)
  let links :=
    if (Z.of_nat (List.length links) <? limit)%Z
    then
      let popular :=
        JsArray.slice0 (limit - Z.of_nat (List.length links))
          (JsArray.sort byTopicCountDesc
             (filter (fun t => negb (String.eqb (tp_slug t) (tp_slug currentTopic))
                               && negb (JsSet.has (tp_slug t) relatedSlugs))
                     (JsMap.values allTopics))) in
      links ++ map (topicLink priorityLow) popular
    else links in
  JsArray.slice0 limit links.

(** The loop of [getRelatedProblems] that fills [scored]. *)
Definition scoreRelatedProblems (currentQuestion : UniqueQuestion)
           (allQuestions : JsMap.t UniqueQuestion) : list (UniqueQuestion * Z) :=
  let currentTopics := JsSet.of_list (map Str.toLowerCase (uq_topics currentQuestion)) in
  let relatedSlugs := JsSet.of_list (uq_relatedQuestions currentQuestion) in
  fold_left
    (fun scored question =>
       if String.eqb (uq_slug question) (uq_slug currentQuestion)
          || JsSet.has (uq_slug question) relatedSlugs
       then scored
       else
         let score := 0%Z in
         let topicOverlap :=
           List.length (filter (fun t => JsSet.has (Str.toLowerCase t) currentTopics)
                               (uq_topics question)) in
         let score := (score + Z.of_nat topicOverlap * 5)%Z in
         let score :=
           if String.eqb (uq_difficulty question) (uq_difficulty currentQuestion)
           then (score + 2)%Z else score in
         let score :=
           (score + Z.min (Z.of_nat (List.length (uq_companies question))) 5)%Z in
         if (score >? 0)%Z then scored ++ [(question, score)] else scored)
    (JsMap.values allQuestions) [].

Definition getRelatedProblems (currentQuestion : UniqueQuestion)
           (allQuestions : JsMap.t UniqueQuestion) (limit : Z) : list InternalLink :=
  let relatedSlugs := JsSet.of_list (uq_relatedQuestions currentQuestion) in
  (* First, add explicitly related questions *)
  let links :=
    fold_left
      (fun links slug =>
         match JsMap.get slug allQuestions with
         | Some question => links ++ [problemLink priorityHigh question]
         | None => links
         end)
      relatedSlugs [] in
  (* Then add questions with topic overlap *)
  let links :=
    if (Z.of_nat (List.length links) <? limit)%Z
    then
      let additional :=
        JsArray.slice0 (limit - Z.of_nat (List.length links))
          (JsArray.sort byScoreDesc (scoreRelatedProblems currentQuestion allQuestions)) in
      links ++ map (fun qs => problemLink priorityMid (fst qs)) additional
    else links in
  JsArray.slice0 limit links.

(* ------------------------------------------------------------------ *)
(** ** The properties of the specification, in its own words *)

Module Spec.

(** Sum of the three difficulty counts of a breakdown. *)
Definition breakdownTotal (b : DifficultyBreakdown) : nat :=
  easy b + medium b + hard b.

(** The domain of the difficulty field. *)
Definition difficultyInDomain (d : string) : Prop :=
  d = "Easy" \/ d = "Medium" \/ d = "Hard".

(** What the code accepts: the three names in any letter case. *)
Definition difficultyCounted (d : string) : Prop :=
  Str.toLowerCase d = "easy" \/ Str.toLowerCase d = "medium"
  \/ Str.toLowerCase d = "hard".

(** A malformed record: a required field is missing, or the difficulty is out
    of the domain. *)
Definition malformed (q : RawQuestion) : Prop :=
  rq_company q = None
  \/ rq_topics q = None
  \/ match rq_difficulty q with
     | Some difficulty => ~ difficultyInDomain difficulty
     | None => True
     end.

(** A record of which the build reads a field that is not there: the company,
    the topic list, or the difficulty of a record that a listed company or a
    cross-reference bucket counts. *)
Definition readsUndefined (companyList : list string) (q : RawQuestion) : bool :=
  match rq_company q, rq_topics q, rq_difficulty q with
  | None, _, _ => true
  | Some _, None, _ => true
  | Some company, Some topics, None =>
      existsb (String.eqb company) companyList || negb (List.length topics =? 0)
  | Some _, Some _, Some _ => false
  end.

(** The records grouped under a company. *)
Definition recordsOf (company : string) (questions : list QuestionWithDetails)
  : list QuestionWithDetails :=
  filter (fun q => String.eqb (q_company q) company) questions.

(** Invariant of the data model: the breakdown of every company sums to its
    question count. *)
Definition breakdownSumsToCount (questions : list QuestionWithDetails)
           (companyList : list string) : Prop :=
  forall slug c,
    In (slug, c) (aggregateCompanies questions companyList) ->
    breakdownTotal (co_difficultyBreakdown c) = co_questionCount c.

(** Every cross-reference of the index, from either view. *)
Definition crossRefsOf (idx : CrossReferenceIndex) : list CompanyTopicCrossRef :=
  List.concat (JsMap.values (companyTopics idx))
  ++ List.concat (JsMap.values (topicCompanies idx)).

(** Three readings of "the topic list of the record contains the topic". *)
Definition listsTopicExactly (topic : string) (q : QuestionWithDetails) : bool :=
  existsb (String.eqb topic) (q_topics q).

Definition listsTopic (topic : string) (q : QuestionWithDetails) : bool :=
  hasTopicLower (Str.toLowerCase topic) q.

Definition listsTopicSlug (topicSlug : string) (q : QuestionWithDetails) : bool :=
  existsb (fun t => String.eqb (toSlug t) topicSlug) (q_topics q).

(** Number of raw records of the company whose topic list contains the topic. *)
Definition recordCount (contains : QuestionWithDetails -> bool) (company : string)
           (questions : list QuestionWithDetails) : nat :=
  List.length (filter contains (recordsOf company questions)).

(** Number of entries of the topic lists of the company's records that name
    the topic, letter case apart: a record that lists it twice counts twice. *)
Definition topicEntryCount (company topic : string)
           (questions : list QuestionWithDetails) : nat :=
  list_sum
    (map (fun q =>
            List.length
              (filter (fun t => String.eqb (Str.toLowerCase t) (Str.toLowerCase topic))
                      (q_topics q)))
         (recordsOf company questions)).

(** The cross-reference property, for a given reading [contains] of "the
    topic list of the record contains the topic of the cross-reference". *)
Definition crossRefCountsRecords
           (contains : CompanyTopicCrossRef -> QuestionWithDetails -> bool)
           (questions : list QuestionWithDetails) : Prop :=
  forall r,
    In r (crossRefsOf (buildCrossReferenceIndex questions)) ->
    cr_questionCount r = recordCount (contains r) (cr_companySlug r) questions.

Definition byName (r : CompanyTopicCrossRef) : QuestionWithDetails -> bool :=
  listsTopic (cr_topicName r).

Definition byExactName (r : CompanyTopicCrossRef) : QuestionWithDetails -> bool :=
  listsTopicExactly (cr_topicName r).

Definition bySlug (r : CompanyTopicCrossRef) : QuestionWithDetails -> bool :=
  listsTopicSlug (cr_topicSlug r).

Definition noColon (s : string) : Prop :=
  existsb (Ascii.eqb ":") (list_ascii_of_string s) = false.

(** Neither the company nor a topic of the record holds the separator of the
    bucket keys. *)
Definition wellSeparated (q : QuestionWithDetails) : Prop :=
  noColon (q_company q) /\ forall t, In t (q_topics q) -> noColon t.

(** No record lists a topic twice, letter case apart. *)
Definition topicsListedOnce (q : QuestionWithDetails) : Prop :=
  NoDup (map Str.toLowerCase (q_topics q)).

(** Whether [breakdown[key]++] hits one of the three counters. *)
Definition countedKey (key : string) : bool :=
  String.eqb key "easy" || String.eqb key "medium" || String.eqb key "hard".

(** The records of a company that one of the three counters counts. *)
Definition countedRecords (company : string) (questions : list QuestionWithDetails)
  : list QuestionWithDetails :=
  filter (fun q => countedKey (Str.toLowerCase (q_difficulty q)))
         (recordsOf company questions).

(** "A malformed record fails the build": what the build would do if it
    validated its records. *)
Definition rejectsMalformed (src : RawDataSource) : Prop :=
  forall raw,
    rawGetQuestions src = inr raw ->
    Exists malformed raw ->
    exists e, buildFromRaw src = inl e.

(** The (company, frequency) pairs of a unique question, in order. *)
Definition companyFrequencies (uq : UniqueQuestion) : list (string * Q) :=
  map (fun cf => (cf_company cf, cf_frequency cf)) (uq_companies uq).

(** The (company, frequency) pairs of the raw records of a question. *)
Definition recordFrequencies (slug : string) (questions : list QuestionWithDetails)
  : list (string * Q) :=
  map (fun q => (q_company q, q_frequency q))
      (filter (fun q => String.eqb (q_slug q) slug) questions).

(** The top-topic entries of the candidate whose slug is among the top-topic
    slugs of the current company: the overlap the scoring loop counts. *)
Definition sharedTopTopics (current candidate : Company) : nat :=
  List.length
    (filter (fun t => existsb (fun u => String.eqb (tc_slug t) (tc_slug u))
                              (co_topTopics current))
            (co_topTopics candidate)).

(** The slugs the top topics of the two companies share, each once. *)
Definition sharedSlugs (current candidate : Company) : list string :=
  filter (fun s => existsb (String.eqb s) (map tc_slug (co_topTopics current)))
         (nodup string_dec (map tc_slug (co_topTopics candidate))).

Definition sizeDifference (current candidate : Company) : Z :=
  Z.abs (Z.of_nat (co_questionCount candidate) - Z.of_nat (co_questionCount current)).

Definition sizeBonus (d : Z) : Z :=
  ((if d <? 50 then 3 else 0) + (if d <? 100 then 1 else 0))%Z.

(** The score of a candidate, in closed form. *)
Definition companyScore (current candidate : Company) : Z :=
  (10 * Z.of_nat (sharedTopTopics current candidate)
   + (if getCompanyTier (co_slug candidate) =? getCompanyTier (co_slug current)
      then 5 else 0)
   + (if getCompanyTier (co_slug candidate) <? getCompanyTier (co_slug current)
      then 3 else 0)
   + sizeBonus (sizeDifference current candidate))%Z.

(** The candidates with their scores: every company but the current one, the
    ones without a positive score dropped. *)
Definition scoredCandidates (current : Company) (all : JsMap.t Company)
  : list (Company * Z) :=
  filter (fun cs => (0 <? snd cs)%Z)
    (map (fun c => (c, companyScore current c))
       (filter (fun c => negb (String.eqb (co_slug c) (co_slug current)))
               (JsMap.values all))).

(** The score as the specification words it: 10 per top-topic slug that the
    two companies share. *)
Definition claimedScore (current candidate : Company) : Z :=
  (10 * Z.of_nat (List.length (sharedSlugs current candidate))
   + (if getCompanyTier (co_slug candidate) =? getCompanyTier (co_slug current)
      then 5 else 0)
   + (if getCompanyTier (co_slug candidate) <? getCompanyTier (co_slug current)
      then 3 else 0)
   + sizeBonus (sizeDifference current candidate))%Z.

(** "Every candidate is scored 10 per shared top-topic slug, plus the tier and
    size bonuses." *)
Definition scoresPerSharedSlug (current : Company) (all : JsMap.t Company) : Prop :=
  forall candidate score,
    In (candidate, score) (scoreRelatedCompanies current all) ->
    score = claimedScore current candidate.

(** Scores in descending order. *)
Definition scoresDescending {A : Type} (l : list (A * Z)) : Prop :=
  StronglySorted (fun a b => (snd b <= snd a)%Z) l.

(** Frequencies in descending order. *)
Definition frequenciesDescending (l : list CompanyFrequency) : Prop :=
  StronglySorted (fun a b => (cf_frequency b <= cf_frequency a)%Q) l.

(** A slug no map of the snapshot knows. *)
Definition slugAbsent (cache : BuildCache) (slug : string) : Prop :=
  ~ In slug (JsMap.keys (companies cache))
  /\ ~ In slug (JsMap.keys (topics cache))
  /\ ~ In slug (JsMap.keys (questions cache))
  /\ ~ In slug (JsMap.keys (companyQuestions cache))
  /\ ~ In slug (JsMap.keys (topicQuestions cache))
  /\ ~ In slug (JsMap.keys (companyTopics (crossRefs cache)))
  /\ ~ In slug (JsMap.keys (topicCompanies (crossRefs cache)))
  /\ ~ In slug (JsMap.keys (questionCompanies (crossRefs cache))).

End Spec.

(* ------------------------------------------------------------------ *)
(** ** Sample inputs *)

Module Sample.

Definition record (company slug difficulty : string) (topics : list string)
           (frequency : Q) : QuestionWithDetails :=
  {| q_id := 1; q_slug := slug; q_title := slug; q_difficulty := difficulty;
     q_topics := topics; q_acceptance_rate := 50; q_company := company;
     q_frequency := frequency; q_timeframe := "all"; q_isPremiumFlag := "N";
     q_link := ("https://leetcode.com/problems/" ++ slug)%string |}.

(** The two records of the example of the specification. *)
Definition googleTwoSum : QuestionWithDetails :=
  record "google" "two-sum" "Easy" ["Array"; "Hash Table"] 80.

Definition amazonTwoSum : QuestionWithDetails :=
  record "amazon" "two-sum" "Easy" ["Array"; "Hash Table"] 40.

(** A record whose difficulty is out of the domain. *)
Definition extreme : QuestionWithDetails :=
  record "google" "two-sum" "Extreme" ["Array"] 80.

(** A record that lists one topic twice. *)
Definition twice : QuestionWithDetails :=
  record "google" "two-sum" "Easy" ["Array"; "Array"] 80.

(** A record that lists a topic under two spellings with the same slug. *)
Definition twoSpellings : QuestionWithDetails :=
  record "google" "lru-cache" "Medium" ["Hash Table"; "hash-table"] 80.

Definition source (questions : list QuestionWithDetails)
           (companyList topicList : list string) : DataSource :=
  {| getQuestions := inr questions;
     getCompanies := inr companyList;
     getTopics := inr topicList |}.

(** Raw records: a typed one with a field taken away. *)
Definition rawSource (questions : list RawQuestion)
           (companyList topicList : list string) : RawDataSource :=
  {| rawGetQuestions := inr questions;
     rawGetCompanies := inr companyList;
     rawGetTopics := inr topicList |}.

Definition without (company topics difficulty : bool) (q : QuestionWithDetails)
  : RawQuestion :=
  {| rq_id := q_id q; rq_slug := q_slug q; rq_title := q_title q;
     rq_difficulty := if difficulty then None else Some (q_difficulty q);
     rq_topics := if topics then None else Some (q_topics q);
     rq_acceptance_rate := q_acceptance_rate q;
     rq_company := if company then None else Some (q_company q);
     rq_frequency := q_frequency q; rq_timeframe := q_timeframe q;
     rq_isPremiumFlag := q_isPremiumFlag q; rq_link := q_link q |}.

(** The record of google without its difficulty. *)
Definition noDifficulty : RawQuestion := without false false true googleTwoSum.

(** A record without a difficulty that nothing reads: it names no topic, and
    its company is not in the company list. *)
Definition unreadDifficulty : RawQuestion :=
  without false false true (record "initech" "fizz-buzz" "Easy" [] 10).

(** A source whose first load fails. *)
Definition unavailable : DataSource :=
  {| getQuestions := inl (SourceUnavailable "questions");
     getCompanies := inr [];
     getTopics := inr [] |}.

(** The source of the example of the specification. *)
Definition twoSum : list QuestionWithDetails := [googleTwoSum; amazonTwoSum].

Definition example : DataSource :=
  source twoSum ["google"; "amazon"] ["Array"; "Hash Table"].

Definition noCompany : Company :=
  {| co_slug := ""; co_name := ""; co_displayName := ""; co_questionCount := 0;
     co_uniqueQuestionCount := 0; co_difficultyBreakdown := mkBreakdown 0 0 0 [];
     co_topTopics := [] |}.

(** The company [slug] as [aggregateCompanies] makes it from [questions]. *)
Definition companyIn (questions : list QuestionWithDetails) (slug : string)
  : Company :=
  match JsMap.get slug (aggregateCompanies questions [slug]) with
  | Some c => c
  | None => noCompany
  end.

Definition googleOfExample : Company :=
  Eval vm_compute in companyIn twoSum "google".

Definition googleOfExtreme : Company :=
  Eval vm_compute in companyIn [extreme] "google".

(** Two companies that ask one question; the records of the second spell its
    topic in two ways that have one slug. *)
Definition spelledTwice : list QuestionWithDetails :=
  [ record "google" "lru-cache" "Medium" ["Hash Table"] 80;
    record "amazon" "lru-cache" "Medium" ["Hash Table"; "hash-table"] 80 ].

Definition companiesOfSpelledTwice : JsMap.t Company :=
  Eval vm_compute in aggregateCompanies spelledTwice ["google"; "amazon"].

Definition googleOfSpelledTwice : Company :=
  Eval vm_compute in companyIn spelledTwice "google".

Definition amazonOfSpelledTwice : Company :=
  Eval vm_compute in companyIn spelledTwice "amazon".

(** The cross-reference (google, array) made from the record that lists
    Array twice. *)
Definition arrayOfTwice : CompanyTopicCrossRef :=
  Eval vm_compute in
    hd (makeCrossRef "" []) (Spec.crossRefsOf (buildCrossReferenceIndex [twice])).

(** The snapshot built from the example. *)
Definition builtExample : BuildCache :=
  match buildAggregatedData example with
  | inr cache => cache
  | inl _ =>
      {| companies := []; topics := []; questions := [];
         crossRefs := mkCrossReferenceIndex [] [] [] [];
         companyQuestions := []; topicQuestions := [];
         stats := mkStats 0 0 0 0 |}
  end.

End Sample.

(* ------------------------------------------------------------------ *)
(** ** Vocabulary of the proofs *)

(** The (record, topic) pairs that [buildCrossReferenceIndex] pushes into its
    buckets, in order. *)
Definition crossRefPairs (questions : list QuestionWithDetails)
  : list (QuestionWithDetails * string) :=
  flat_map (fun q => map (pair q) (q_topics q)) questions.

Definition pairKey (qt : QuestionWithDetails * string) : string :=
  crossRefKey (q_company (fst qt)) (snd qt).

(** The entry that [deduplicateQuestions] pushes for a record. *)
Definition companyFrequencyOf (q : QuestionWithDetails) : CompanyFrequency :=
  {| cf_company := q_company q;
     cf_displayName := formatDisplayName (q_company q);
     cf_frequency := q_frequency q;
     cf_timeframe := q_timeframe q |}.

(** The values a list of keys finds in a map, in order. *)
Definition lookupAll {V : Type} (all : JsMap.t V) (slugs : list string) : list V :=
  flat_map (fun slug => match JsMap.get slug all with Some x => [x] | None => [] end)
           slugs.

(** The topics [getRelatedTopics] makes its links from, in order. *)
Definition relatedTopicTargets (currentTopic : Topic) (allTopics : JsMap.t Topic)
           (limit : Z) : list Topic :=
  let relatedSlugs := JsSet.of_list (tp_relatedTopics currentTopic) in
  let explicit := lookupAll allTopics relatedSlugs in
  JsArray.slice0 limit
    (explicit
     ++ if (Z.of_nat (List.length explicit) <? limit)%Z
        then JsArray.slice0 (limit - Z.of_nat (List.length explicit))
               (JsArray.sort byTopicCountDesc
                  (filter (fun t => negb (String.eqb (tp_slug t) (tp_slug currentTopic))
                                    && negb (JsSet.has (tp_slug t) relatedSlugs))
                          (JsMap.values allTopics)))
        else []).

(** The questions [getRelatedProblems] makes its links from, in order. *)
Definition relatedProblemTargets (currentQuestion : UniqueQuestion)
           (allQuestions : JsMap.t UniqueQuestion) (limit : Z) : list UniqueQuestion :=
  let relatedSlugs := JsSet.of_list (uq_relatedQuestions currentQuestion) in
  let explicit := lookupAll allQuestions relatedSlugs in
  JsArray.slice0 limit
    (explicit
     ++ if (Z.of_nat (List.length explicit) <? limit)%Z
        then map fst
               (JsArray.slice0 (limit - Z.of_nat (List.length explicit))
                  (JsArray.sort byScoreDesc
                     (scoreRelatedProblems currentQuestion allQuestions)))
        else []).

(** Score of a candidate question in [getRelatedProblems]. *)
Definition problemScore (currentQuestion question : UniqueQuestion) : Z :=
  let currentTopics := JsSet.of_list (map Str.toLowerCase (uq_topics currentQuestion)) in
  let topicOverlap :=
    List.length (filter (fun t => JsSet.has (Str.toLowerCase t) currentTopics)
                        (uq_topics question)) in
  let score := (0 + Z.of_nat topicOverlap * 5)%Z in
  let score :=
    if String.eqb (uq_difficulty question) (uq_difficulty currentQuestion)
    then (score + 2)%Z else score in
  (score + Z.min (Z.of_nat (List.length (uq_companies question))) 5)%Z.

(* ------------------------------------------------------------------ *)
(** ** Further public API of the aggregation layer *)

Definition getAggregatedCompanies (cache : BuildCache) : JsMap.t Company :=
  companies cache.

Definition getAggregatedTopics (cache : BuildCache) : JsMap.t Topic :=
  topics cache.

Definition getUniqueQuestions (cache : BuildCache) : JsMap.t UniqueQuestion :=
  questions cache.

Definition getStats (cache : BuildCache) : Stats := stats cache.

(** [q.topics.some((t) => t.toLowerCase().replace(/\s+/g, "-") === topicSlug)] *)
Definition hasTopicSlug (topicSlug : string) (q : QuestionWithCompanyContext) : bool :=
  existsb (fun t => String.eqb (toSlug t) topicSlug) (qc_topics q).

Definition getQuestionsByCompanyAndTopic (cache : BuildCache)
           (companySlug topicSlug : string) : list QuestionWithCompanyContext :=
  let companyQuestions := orEmpty (JsMap.get companySlug (companyQuestions cache)) in
  filter (hasTopicSlug topicSlug) companyQuestions.

(** Comparator of [getTopCrossReferences]: by tier, then by count descending. *)
Definition crossRefOrder (a b : CompanyTopicCrossRef) : Z :=
  let tierDiff :=
    (getCompanyTier (cr_companySlug a) - getCompanyTier (cr_companySlug b))%Z in
  if negb (tierDiff =? 0)%Z then tierDiff
  else (Z.of_nat (cr_questionCount b) - Z.of_nat (cr_questionCount a))%Z.

Definition getTopCrossReferences (cache : BuildCache) (limit : Z)
  : list CompanyTopicCrossRef :=
  let allCrossRefs :=
    fold_left (fun allCrossRefs refs => allCrossRefs ++ refs)
              (JsMap.values (companyTopics (crossRefs cache))) [] in
  JsArray.slice0 limit
    (JsArray.sort crossRefOrder
       (filter (fun ref => 3 <=? cr_questionCount ref) allCrossRefs)).

Definition getQuestionsByDifficulty (cache : BuildCache) (difficulty : string)
  : list QuestionWithCompanyContext :=
  let st :=
    fold_left
      (fun (st : JsSet.t * list QuestionWithCompanyContext) questions =>
         fold_left
           (fun (st : JsSet.t * list QuestionWithCompanyContext) q =>
              if String.eqb (qc_difficulty q) difficulty
                 && negb (JsSet.has (qc_slug q) (fst st))
              then (JsSet.add (qc_slug q) (fst st), snd st ++ [q])
              else st)
           questions st)
      (JsMap.values (companyQuestions cache)) ([], []) in
  JsArray.sort byContextFrequencyDesc (snd st).

(* ------------------------------------------------------------------ *)
(** ** Further functions of the internal-linking module *)

(** [s.includes(sub)] *)
Definition includes (s sub : string) : bool :=
  match Str.find_first sub s with Some _ => true | None => false end.

(** [getHubLinks] where [seoConfig.siteUrl] is [site]. *)
Definition getHubLinksAt (site : string) : list InternalLink :=
  [ {| href := canonicalUrlAt site PkCompanies []; text := "All Companies";
       title := "Browse all company interview questions"; priority := 1 |};
    {| href := canonicalUrlAt site PkTopics []; text := "All Topics";
       title := "Browse all DSA topics"; priority := 1 |};
    {| href := canonicalUrlAt site PkProblems []; text := "All Problems";
       title := "Browse all LeetCode problems"; priority := 1 |};
    {| href := (site ++ "/system-design")%string; text := "System Design";
       title := "System Design Interview Guide"; priority := 1 |} ].

Definition getHubLinks : list InternalLink := getHubLinksAt siteUrl.

(** [getHubLinks().filter((l) => !l.href.includes(own))], the hub links of a
    page, where [seoConfig.siteUrl] is [site]. *)
Definition hubLinksWithout (site own : string) : list InternalLink :=
  filter (fun l => negb (includes (href l) own)) (getHubLinksAt site).

Definition companyTopicLink (ref : CompanyTopicCrossRef) : InternalLink :=
  {| href := getCanonicalUrl PkCompanyTopic
               [("company", cr_companySlug ref); ("topic", cr_topicSlug ref)];
     text := (cr_companyName ref ++ " " ++ cr_topicName ref)%string;
     title := (Str.of_nat (cr_questionCount ref) ++ " " ++ cr_topicName ref
               ++ " questions at " ++ cr_companyName ref)%string;
     priority := priorityLow |}.

Definition getCompanyTopicLinks (crossRefs : list CompanyTopicCrossRef) (limit : Z)
  : list InternalLink :=
  map companyTopicLink
      (JsArray.slice0 limit
         (filter (fun ref => thinContentThreshold_companyTopic <=? cr_questionCount ref)
                 crossRefs)).

Record CompanyPageLinks : Type := mkCompanyPageLinks {
  cpl_relatedCompanies : list InternalLink;
  cpl_topicLinks : list InternalLink;
  cpl_hubLinks : list InternalLink
}.

Definition generateCompanyPageLinks (company : Company)
           (allCompanies : JsMap.t Company) (crossRefs : list CompanyTopicCrossRef)
  : CompanyPageLinks :=
  {| cpl_relatedCompanies := getRelatedCompanies company allCompanies 6;
     cpl_topicLinks := getCompanyTopicLinks crossRefs 8;
     cpl_hubLinks :=
       filter (fun l => negb (includes (href l) "/companies")) getHubLinks |}.

Record TopicPageLinks : Type := mkTopicPageLinks {
  tpl_relatedTopics : list InternalLink;
  tpl_companyLinks : list InternalLink;
  tpl_hubLinks : list InternalLink
}.

Definition generateTopicPageLinks (topic : Topic) (allTopics : JsMap.t Topic)
           (crossRefs : list CompanyTopicCrossRef) : TopicPageLinks :=
  let companyLinks :=
    map (fun ref =>
           {| href := getCanonicalUrl PkCompanyTopic
                        [("company", cr_companySlug ref); ("topic", cr_topicSlug ref)];
              text := cr_companyName ref;
              title := (Str.of_nat (cr_questionCount ref) ++ " " ++ tp_name topic
                        ++ " questions at " ++ cr_companyName ref)%string;
              priority := if (getCompanyTier (cr_companySlug ref) =? 1)%Z
                          then priorityHigh else priorityMid |})
        (JsArray.slice0 6 crossRefs) in
  {| tpl_relatedTopics := getRelatedTopics topic allTopics 6;
     tpl_companyLinks := companyLinks;
     tpl_hubLinks :=
       filter (fun l => negb (includes (href l) "/topics")) getHubLinks |}.

Record ProblemPageLinks : Type := mkProblemPageLinks {
  ppl_relatedProblems : list InternalLink;
  ppl_companyLinks : list InternalLink;
  ppl_topicLinks : list InternalLink;
  ppl_hubLinks : list InternalLink
}.

Definition generateProblemPageLinks (question : UniqueQuestion)
           (allQuestions : JsMap.t UniqueQuestion) (allCompanies : JsMap.t Company)
           (allTopics : JsMap.t Topic) : ProblemPageLinks :=
  let companyLinks :=
    map (fun cf =>
           {| href := getCanonicalUrl PkCompany [("slug", cf_company cf)];
              text := cf_displayName cf;
              title :=
                match JsMap.get (cf_company cf) allCompanies with
                | Some company =>
                    (cf_displayName cf ++ " Interview Questions ("
                     ++ Str.of_nat (co_questionCount company) ++ " problems)")%string
                | None => (cf_displayName cf ++ " Interview Questions")%string
                end;
              priority := if (getCompanyTier (cf_company cf) =? 1)%Z
                          then priorityHigh else priorityMid |})
        (JsArray.slice0 5 (uq_companies question)) in
  let topicLinks :=
    map (fun topicName =>
           let slug := toSlug topicName in
           {| href := getCanonicalUrl PkTopic [("slug", slug)];
              text := topicName;
              title :=
                match JsMap.get slug allTopics with
                | Some topic =>
                    (topicName ++ " Problems ("
                     ++ Str.of_nat (tp_questionCount topic) ++ " questions)")%string
                | None => (topicName ++ " Problems")%string
                end;
              priority := priorityMid |})
        (JsArray.slice0 5 (uq_topics question)) in
  {| ppl_relatedProblems := getRelatedProblems question allQuestions 6;
     ppl_companyLinks := companyLinks;
     ppl_topicLinks := topicLinks;
     ppl_hubLinks :=
       filter (fun l => negb (includes (href l) "/problems")) getHubLinks |}.

(* ------------------------------------------------------------------ *)
(** ** The company-topic page (cross-reference route) *)

(** [generateStaticParams], after [getTopCrossReferences(500)] has yielded. *)
Definition generateStaticParams (cache : BuildCache) : list (string * string) :=
  let crossRefs := getTopCrossReferences cache 500 in
  map (fun ref => (cr_companySlug ref, cr_topicSlug ref))
      (filter (fun ref => thinContentThreshold_companyTopic <=? cr_questionCount ref)
              crossRefs).

(** What a request for a company-topic page ends in. *)
Inductive PageOutcome : Type :=
  | Rendered
  | RedirectedToCompany (companySlug : string)
  | NotFound.

(** [!x], for what an accessor returned: an entity object or [null]. *)
Definition isNull {A : Type} (x : option A) : bool :=
  match x with Some _ => false | None => true end.

(** [CompanyTopicPage], up to the thin-content protection, after its three
    loads have yielded: [redirect] and [notFound] leave the page, and
    [redirect] comes first when the company exists. *)
Definition companyTopicPage (cache : BuildCache) (companySlug topicSlug : string)
  : PageOutcome :=
  let company := getCompanyBySlug cache companySlug in
  let topic := getTopicBySlug cache topicSlug in
  let questions := getQuestionsByCompanyAndTopic cache companySlug topicSlug in
  if isNull company || isNull topic
     || (List.length questions <? thinContentThreshold_companyTopic)
  then if isNull company then NotFound else RedirectedToCompany companySlug
  else Rendered.

(* ------------------------------------------------------------------ *)
(** ** JSON-LD schema factory (schema module): breadcrumbs and item lists *)

Record BreadcrumbItem : Type := mkBreadcrumbItem {
  bi_name : string;
  bi_url : string
}.

(** [item] is [undefined] on the last element. *)
Record SchemaBreadcrumbItem : Type := mkSchemaBreadcrumbItem {
  sb_position : nat;
  sb_name : string;
  sb_item : option string
}.

Record SchemaListItem : Type := mkSchemaListItem {
  li_position : nat;
  li_url : string;
  li_name : string
}.

Record SchemaItemList : Type := mkSchemaItemList {
  il_name : string;
  il_description : string;
  il_numberOfItems : nat;
  il_itemListElement : list SchemaListItem
}.

(** [l.map((x, index) => f(x, index))], the indices counted from [start]. *)
Fixpoint mapFrom {A B : Type} (start : nat) (f : A -> nat -> B) (l : list A) : list B :=
  match l with
  | [] => []
  | x :: xs => f x start :: mapFrom (S start) f xs
  end.

Definition mapIndexed {A B : Type} (f : A -> nat -> B) (l : list A) : list B :=
  mapFrom 0 f l.

(** [itemListElement] of [generateBreadcrumbSchema]. *)
Definition generateBreadcrumbSchema (items : list BreadcrumbItem)
  : list SchemaBreadcrumbItem :=
  mapIndexed
    (fun item index =>
       {| sb_position := index + 1;
          sb_name := bi_name item;
          sb_item := if (Z.of_nat index <? Z.of_nat (List.length items) - 1)%Z
                     then Some (bi_url item) else None |})
    items.

Definition generateQuestionListSchema (questions : list QuestionWithCompanyContext)
           (listName listDescription : string) : SchemaItemList :=
  {| il_name := listName;
     il_description := listDescription;
     il_numberOfItems := List.length questions;
     il_itemListElement :=
       mapIndexed
         (fun q index =>
            {| li_position := index + 1;
               li_url := getCanonicalUrl PkProblem [("slug", qc_slug q)];
               li_name := (qc_title q ++ " (" ++ qc_difficulty q ++ ")")%string |})
         (JsArray.slice0 100 questions) |}.

Definition generateCompanyListSchema (companies : list Company) (totalCount : nat)
  : SchemaItemList :=
  {| il_name := "Tech Company Interview Questions";
     il_description := ("Browse coding interview questions from "
                        ++ Str.of_nat totalCount ++ " tech companies")%string;
     il_numberOfItems := totalCount;
     il_itemListElement :=
       mapIndexed
         (fun company index =>
            {| li_position := index + 1;
               li_url := getCanonicalUrl PkCompany [("slug", co_slug company)];
               li_name := (co_displayName company ++ " ("
                           ++ Str.of_nat (co_questionCount company)
                           ++ " questions)")%string |})
         (JsArray.slice0 50 companies) |}.

Definition generateTopicListSchema (topics : list Topic) (totalCount : nat)
  : SchemaItemList :=
  {| il_name := "DSA Topics for Coding Interviews";
     il_description := ("Master " ++ Str.of_nat totalCount
                        ++ " algorithm and data structure topics")%string;
     il_numberOfItems := totalCount;
     il_itemListElement :=
       mapIndexed
         (fun topic index =>
            {| li_position := index + 1;
               li_url := getCanonicalUrl PkTopic [("slug", tp_slug topic)];
               li_name := (tp_name topic ++ " ("
                           ++ Str.of_nat (tp_questionCount topic)
                           ++ " questions)")%string |})
         (JsArray.slice0 50 topics) |}.

Definition getHomeBreadcrumb : BreadcrumbItem :=
  {| bi_name := "Home"; bi_url := siteUrl |}.

Definition getCompaniesBreadcrumb : BreadcrumbItem :=
  {| bi_name := "Companies"; bi_url := getCanonicalUrl PkCompanies [] |}.

Definition getCompanyBreadcrumb (company : Company) : BreadcrumbItem :=
  {| bi_name := co_displayName company;
     bi_url := getCanonicalUrl PkCompany [("slug", co_slug company)] |}.

Definition generateCompanyBreadcrumbs (company : Company) : list BreadcrumbItem :=
  [getHomeBreadcrumb; getCompaniesBreadcrumb; getCompanyBreadcrumb company].

(* ------------------------------------------------------------------ *)
(** ** Sitemap (sitemap route), after its four loads have yielded *)

(** [lastModified] (wall clock) is left out. *)
Record SitemapEntry : Type := mkSitemapEntry {
  se_url : string;
  se_changeFrequency : string;
  se_priority : Q
}.

Definition staticEntries : list SitemapEntry :=
  [ mkSitemapEntry siteUrl "daily" 1;
    mkSitemapEntry (siteUrl ++ "/companies") "weekly" (9 # 10);
    mkSitemapEntry (siteUrl ++ "/topics") "weekly" (9 # 10);
    mkSitemapEntry (siteUrl ++ "/problems") "weekly" (9 # 10);
    mkSitemapEntry (siteUrl ++ "/system-design") "weekly" (9 # 10) ].

Definition difficultyEntries : list SitemapEntry :=
  map (fun difficulty =>
         mkSitemapEntry (siteUrl ++ "/difficulty/" ++ difficulty) "weekly" (7 # 10))
      ["easy"; "medium"; "hard"].

Definition companyEntry (company : Company) : SitemapEntry :=
  mkSitemapEntry (siteUrl ++ "/company/" ++ co_slug company) "weekly" (8 # 10).

Definition topicEntry (topic : Topic) : SitemapEntry :=
  mkSitemapEntry (siteUrl ++ "/topic/" ++ tp_slug topic) "weekly" (8 # 10).

Definition problemEntry (question : UniqueQuestion) : SitemapEntry :=
  mkSitemapEntry (siteUrl ++ "/problem/" ++ uq_slug question) "monthly" (7 # 10).

Definition crossRefEntry (crossRef : CompanyTopicCrossRef) : SitemapEntry :=
  mkSitemapEntry
    (siteUrl ++ "/company/" ++ cr_companySlug crossRef ++ "/" ++ cr_topicSlug crossRef)
    "monthly" (6 # 10).

Definition sitemap (cache : BuildCache) : list SitemapEntry :=
  let companies := getAggregatedCompanies cache in
  let topics := getAggregatedTopics cache in
  let questions := getUniqueQuestions cache in
  let crossRefs := getTopCrossReferences cache 1000 in
  let entries := staticEntries in
  let entries := entries ++ difficultyEntries in
  let entries := entries ++ map companyEntry (JsMap.values companies) in
  let entries := entries ++ map topicEntry (JsMap.values topics) in
  let entries := entries ++ map problemEntry (JsMap.values questions) in
  let entries :=
    fold_left
      (fun entries crossRef =>
         if thinContentThreshold_companyTopic <=? cr_questionCount crossRef
         then entries ++ [crossRefEntry crossRef]
         else entries)
      crossRefs entries in
  entries.

(* ------------------------------------------------------------------ *)
(** ** Runs of the cache controller *)

Module CacheRun.
Import CacheCtl.

(** What can happen on the event loop: a call of [getBuildCache], the
    settlement of a build promise, the resumption of the suspended frames. *)
Inductive Event : Type :=
  | EvCall
  | EvSettle (p : nat) (outcome : Result BuildCache)
  | EvResume.

Definition step (st : State) (ev : Event) : State :=
  match ev with
  | EvCall => getBuildCache st
  | EvSettle p outcome => settle p outcome st
  | EvResume => resume st
  end.

Definition run (events : list Event) (st : State) : State :=
  fold_left step events st.

(** A call stands on the one build promise, in the state it has. *)
Definition callAgrees (ps : list PromiseState) (c : Call) : Prop :=
  match c with
  | Returned v => ps = [Fulfilled v]
  | Forwarded p => p = 0
  | Suspended p => p = 0
  | Threw e => ps = [Rejected e]
  end.

(** The states the controller can be in: no build yet, or one build promise
    that the module variables and every call agree with. *)
Definition coherent (st : State) : Prop :=
  match promises st with
  | [] => buildCache st = None /\ cachePromise st = None /\ calls st = []
  | [s] =>
      match buildCache st with
      | Some v => s = Fulfilled v
      | None => cachePromise st = Some 0
      end
      /\ Forall (callAgrees [s]) (calls st)
  | _ :: _ :: _ => False
  end.

End CacheRun.

(* ------------------------------------------------------------------ *)
(** ** Orders of the derived maps and lists *)

Module Order.

(** Order of the company map: by tier, then by question count descending. *)
Definition companyBefore (a b : string * Company) : Prop :=
  (getCompanyTier (fst a) < getCompanyTier (fst b))%Z
  \/ (getCompanyTier (fst a) = getCompanyTier (fst b)
      /\ co_questionCount (snd b) <= co_questionCount (snd a)).

(** Order of the topic map: by question count descending. *)
Definition topicBefore (a b : string * Topic) : Prop :=
  tp_questionCount (snd b) <= tp_questionCount (snd a).

(** Order of the question map: by number of companies descending. *)
Definition questionBefore (a b : string * UniqueQuestion) : Prop :=
  List.length (uq_companies (snd b)) <= List.length (uq_companies (snd a)).

(** Order of a question listing: by frequency descending. *)
Definition contextBefore (a b : QuestionWithCompanyContext) : Prop :=
  (qc_frequency b <= qc_frequency a)%Q.

(** Order of a cross-reference view: by question count descending. *)
Definition crossRefBefore (a b : CompanyTopicCrossRef) : Prop :=
  cr_questionCount b <= cr_questionCount a.

(** Order of the top cross-references: by tier of the company, then by
    question count descending. *)
Definition topCrossRefBefore (a b : CompanyTopicCrossRef) : Prop :=
  (getCompanyTier (cr_companySlug a) < getCompanyTier (cr_companySlug b))%Z
  \/ (getCompanyTier (cr_companySlug a) = getCompanyTier (cr_companySlug b)
      /\ cr_questionCount b <= cr_questionCount a).

(** Order of counted names: by count descending. *)
Definition countBefore (a b : string * nat) : Prop := snd b <= snd a.

(** Order of the top topics of a company: by count descending. *)
Definition topTopicBefore (a b : TopicCount) : Prop := tc_count b <= tc_count a.

(** Order of the top companies of a topic: by tier, then by count descending. *)
Definition topCompanyBefore (a b : CompanyCount) : Prop :=
  (getCompanyTier (cc_slug a) < getCompanyTier (cc_slug b))%Z
  \/ (getCompanyTier (cc_slug a) = getCompanyTier (cc_slug b)
      /\ cc_count b <= cc_count a).

End Order.

(* ------------------------------------------------------------------ *)
(** ** Further vocabulary *)

(** The entries of [l] whose slug neither is in [seen] nor occurred before. *)
Fixpoint firstOfEachSlug (seen : JsSet.t) (l : list QuestionWithCompanyContext)
  : list QuestionWithCompanyContext :=
  match l with
  | [] => []
  | x :: xs =>
      if JsSet.has (qc_slug x) seen then firstOfEachSlug seen xs
      else x :: firstOfEachSlug (seen ++ [qc_slug x]) xs
  end.

(** The fields a unique question takes over from a record. *)
Definition representedBy (uq : UniqueQuestion) (q : QuestionWithDetails) : Prop :=
  uq_id uq = q_id q
  /\ uq_slug uq = q_slug q
  /\ uq_title uq = q_title q
  /\ uq_difficulty uq = q_difficulty q
  /\ uq_topics uq = q_topics q
  /\ uq_acceptanceRate uq = q_acceptance_rate q
  /\ uq_isPremium uq = String.eqb (q_isPremiumFlag q) "Y"
  /\ uq_leetcodeUrl uq = q_link q.

(** No character of the string is white space. *)
Definition spaceFree (s : string) : Prop :=
  existsb Str.is_space (list_ascii_of_string s) = false.

(** No dollar sign in the string. *)
Definition dollarFree (s : string) : Prop :=
  existsb (Ascii.eqb "$") (list_ascii_of_string s) = false.

(** No opening brace in the string. *)
Definition braceFree (s : string) : Prop :=
  existsb (Ascii.eqb "{") (list_ascii_of_string s) = false.

(** The snapshot of a source whose three loads succeed. *)
Definition loaded (raw : list QuestionWithDetails) (companyList topicList : list string)
  : DataSource :=
  {| getQuestions := inr raw; getCompanies := inr companyList;
     getTopics := inr topicList |}.

(** The cross-reference of every bucket, in bucket order. *)
Definition bucketRefs (questions : list QuestionWithDetails) : list CompanyTopicCrossRef :=
  map (fun entry => makeCrossRef (fst entry) (snd entry)) (crossRefBuckets questions).

(** Number of elements of [xs] with key [k]. *)
Definition occurrences {X : Type} (key : X -> string) (k : string) (xs : list X) : nat :=
  List.length (filter (fun x => String.eqb (key x) k) xs).

(** The tier table is an object literal: looked up under the name of a
    property that every object inherits, it yields that property, which is no
    number.  No lower-cased slug but these two is such a name. *)
Definition ownTierKey (slug : string) : Prop :=
  Str.toLowerCase slug <> "constructor" /\ Str.toLowerCase slug <> "__proto__".

(* ------------------------------------------------------------------ *)
(** ** A second example: five records of three companies *)

Module Catalog.

Definition raw : list QuestionWithDetails :=
  [ Sample.record "google" "two-sum" "Easy" ["Array"; "Hash Table"] 80;
    Sample.record "google" "three-sum" "Medium" ["Array"; "Two Pointers"] 60;
    Sample.record "google" "merge-intervals" "Medium" ["Array"; "Sorting"] 50;
    Sample.record "amazon" "two-sum" "Easy" ["Array"; "Hash Table"] 40;
    Sample.record "stripe" "lru-cache" "Medium" ["Hash Table"; "Design"] 90 ].

Definition companyList : list string := ["google"; "amazon"; "stripe"; "netflix"].

Definition topicList : list string :=
  ["Array"; "Hash Table"; "Two Pointers"; "Sorting"; "Design"; "Graph"].

Definition noSnapshot : BuildCache :=
  {| companies := []; topics := []; questions := [];
     crossRefs := mkCrossReferenceIndex [] [] [] [];
     companyQuestions := []; topicQuestions := [];
     stats := mkStats 0 0 0 0 |}.

(** The snapshot built from the five records. *)
Definition built : BuildCache :=
  match buildAggregatedData (loaded raw companyList topicList) with
  | inr cache => cache
  | inl _ => noSnapshot
  end.

Definition google : Company :=
  Eval vm_compute in
    match getCompanyBySlug built "google" with
    | Some c => c
    | None => Sample.noCompany
    end.

Definition array : Topic :=
  Eval vm_compute in
    match getTopicBySlug built "array" with
    | Some t => t
    | None => mkTopic "" "" 0 (mkBreakdown 0 0 0 []) [] []
    end.

Definition twoSumQuestion : UniqueQuestion :=
  Eval vm_compute in
    match getQuestionBySlug built "two-sum" with
    | Some q => q
    | None => mkUniqueQuestion 0 "" "" "" [] 0 [] false "" []
    end.

(** The cross-reference of google and Array, with its three questions. *)
Definition googleArray : CompanyTopicCrossRef :=
  Eval vm_compute in
    hd (makeCrossRef "" []) (getCompanyTopicCrossRefs built "google").

End Catalog.

(* ================================================================== *)
(** * Proofs *)

(* ------------------------------------------------------------------ *)
(** ** Lemmas on arrays, maps and sets *)

Section SortFacts.
Context {A : Type} (cmp : A -> A -> Z).

Lemma insert_perm (x : A) (l : list A) :
  Permutation (JsArray.insert cmp x l) (x :: l).
Proof.
  induction l as [|y ys IH]; simpl.
  - apply Permutation_refl.
  - destruct (cmp x y <=? 0)%Z.
    + apply Permutation_refl.
    + eapply perm_trans; [apply perm_skip, IH | apply perm_swap].
Qed.

Lemma sort_perm (l : list A) : Permutation (JsArray.sort cmp l) l.
Proof.
  induction l as [|x xs IH]; simpl.
  - constructor.
  - eapply perm_trans; [apply insert_perm | apply perm_skip, IH].
Qed.

Lemma In_sort (x : A) (l : list A) : In x (JsArray.sort cmp l) <-> In x l.
Proof.
  split; apply Permutation_in; [| apply Permutation_sym]; apply sort_perm.
Qed.

Lemma sort_length (l : list A) : List.length (JsArray.sort cmp l) = List.length l.
Proof. apply Permutation_length, sort_perm. Qed.

(** [cmp] decides an order [R]: what does not have to follow is before,
    what has to follow is after. *)
Variable R : A -> A -> Prop.
Hypothesis cmp_before : forall x y, (cmp x y <= 0)%Z -> R x y.
Hypothesis cmp_after : forall x y, (0 < cmp x y)%Z -> R y x.

Lemma insert_sorted (x : A) (l : list A) :
  Sorted R l -> Sorted R (JsArray.insert cmp x l).
Proof.
  induction l as [|y ys IH]; simpl; intros Hs.
  - repeat constructor.
  - destruct (cmp x y <=? 0)%Z eqn:E.
    + constructor; [exact Hs | constructor; apply cmp_before, Z.leb_le, E].
    + apply Z.leb_gt in E.
      inversion Hs as [|? ? Hys Hhd]; subst.
      constructor; [apply IH, Hys |].
      destruct ys as [|z zs]; simpl.
      * constructor. apply cmp_after, E.
      * destruct (cmp x z <=? 0)%Z.
        -- constructor. apply cmp_after, E.
        -- inversion Hhd; subst. constructor. assumption.
Qed.

Lemma sort_sorted (l : list A) : Sorted R (JsArray.sort cmp l).
Proof.
  induction l as [|x xs IH]; simpl; [constructor | apply insert_sorted, IH].
Qed.

Lemma sort_strongly_sorted (l : list A) :
  (forall x y z, R x y -> R y z -> R x z) ->
  StronglySorted R (JsArray.sort cmp l).
Proof.
  intros Htrans. apply Sorted_StronglySorted; [exact Htrans | apply sort_sorted].
Qed.
End SortFacts.

Lemma slice0_prefix {A : Type} (e : Z) (l : list A) :
  exists n, JsArray.slice0 e l = firstn n l.
Proof. unfold JsArray.slice0. destruct (e <? 0)%Z; eauto. Qed.

Lemma In_slice0 {A : Type} (e : Z) (l : list A) (x : A) :
  In x (JsArray.slice0 e l) -> In x l.
Proof.
  destruct (slice0_prefix e l) as [n ->]. rewrite <- (firstn_skipn n l) at 2.
  intros H. apply in_or_app. now left.
Qed.

Lemma slice0_length {A : Type} (n : nat) (l : list A) :
  List.length (JsArray.slice0 (Z.of_nat n) l) <= n.
Proof.
  unfold JsArray.slice0.
  destruct (Z.of_nat n <? 0)%Z eqn:E; [apply Z.ltb_lt in E; lia |].
  rewrite Nat2Z.id. apply firstn_le_length.
Qed.

Lemma StronglySorted_firstn {A : Type} (R : A -> A -> Prop) (n : nat) (l : list A) :
  StronglySorted R l -> StronglySorted R (firstn n l).
Proof.
  revert n. induction l as [|x xs IH]; intros [|n] Hs; simpl; try constructor.
  - inversion Hs; subst. now apply IH.
  - inversion Hs as [|? ? _ Hall]; subst.
    rewrite Forall_forall in *. intros y Hy. apply Hall.
    rewrite <- (firstn_skipn n xs). apply in_or_app. now left.
Qed.

Section MapFacts.
Context {V : Type}.
Implicit Types (m : JsMap.t V) (k : string) (v : V).

Lemma get_set_same k v m : JsMap.get k (JsMap.set k v m) = Some v.
Proof.
  induction m as [|[k' v'] m IH]; simpl.
  - now rewrite String.eqb_refl.
  - destruct (String.eqb k k') eqn:E; simpl.
    + now rewrite String.eqb_refl.
    + now rewrite E.
Qed.

Lemma get_set_other k k' v m :
  k' <> k -> JsMap.get k' (JsMap.set k v m) = JsMap.get k' m.
Proof.
  intros Hne. induction m as [|[k0 v0] m IH]; simpl.
  - apply String.eqb_neq in Hne. now rewrite Hne.
  - destruct (String.eqb k k0) eqn:E; simpl.
    + apply String.eqb_eq in E. subst k0.
      apply String.eqb_neq in Hne. now rewrite Hne.
    + now rewrite IH.
Qed.

Lemma In_set k v m e : In e (JsMap.set k v m) -> e = (k, v) \/ In e m.
Proof.
  induction m as [|[k' v'] m IH]; simpl.
  - intuition.
  - destruct (String.eqb k k'); simpl; intuition.
Qed.

Lemma get_None k m : JsMap.get k m = None <-> ~ In k (JsMap.keys m).
Proof.
  induction m as [|[k' v'] m IH]; simpl.
  - intuition.
  - destruct (String.eqb k k') eqn:E.
    + apply String.eqb_eq in E. subst. split; [discriminate | intuition].
    + apply String.eqb_neq in E. rewrite IH. intuition.
Qed.

Lemma get_Some_In k v m : JsMap.get k m = Some v -> In (k, v) m.
Proof.
  induction m as [|[k' v'] m IH]; simpl; [discriminate |].
  destruct (String.eqb k k') eqn:E.
  - apply String.eqb_eq in E. intros [= ->]. subst. now left.
  - intros H. right. now apply IH.
Qed.

Lemma In_get k v m : NoDup (JsMap.keys m) -> In (k, v) m -> JsMap.get k m = Some v.
Proof.
  induction m as [|[k' v'] m IH]; simpl; [easy |].
  intros Hnd [H | H]; inversion Hnd as [|? ? Hk' Hnd']; subst.
  - injection H as -> ->. now rewrite String.eqb_refl.
  - destruct (String.eqb k k') eqn:E.
    + apply String.eqb_eq in E. subst k'. exfalso. apply Hk'.
      change (In (fst (k, v)) (map fst m)). now apply in_map.
    + now apply IH.
Qed.

Lemma keys_set k v m :
  JsMap.keys (JsMap.set k v m)
  = if JsMap.has k m then JsMap.keys m else JsMap.keys m ++ [k].
Proof.
  unfold JsMap.has, JsMap.keys.
  induction m as [|[k' v'] m IH]; simpl; [reflexivity |].
  destruct (String.eqb k k') eqn:E; simpl.
  - apply String.eqb_eq in E. now subst.
  - rewrite IH. now destruct (JsMap.get k m).
Qed.

Lemma NoDup_keys_set k v m :
  NoDup (JsMap.keys m) -> NoDup (JsMap.keys (JsMap.set k v m)).
Proof.
  intros Hnd. rewrite keys_set. unfold JsMap.has.
  destruct (JsMap.get k m) eqn:E; [exact Hnd |].
  apply get_None in E.
  apply NoDup_app; [exact Hnd | repeat constructor; simpl; tauto |].
  intros x Hx [<- | []]. now apply E.
Qed.

(** Every entry of [new Map(entries)] is one of the entries. *)
Lemma In_of_entries (es : list (string * V)) e :
  In e (JsMap.of_entries es) -> In e es.
Proof.
  unfold JsMap.of_entries.
  assert (G : forall acc, In e (fold_left (fun m e0 => JsMap.set (fst e0) (snd e0) m) es acc)
                          -> In e acc \/ In e es).
  { induction es as [|[k v] es IH]; simpl; intros acc H; [now left |].
    apply IH in H. destruct H as [H | H]; [| now right; right].
    apply In_set in H. destruct H as [-> | H]; [right; now left | now left]. }
  intros H. apply G in H. now destruct H.
Qed.
End MapFacts.

Lemma set_has_of_list (x : string) (l : list string) :
  JsSet.has x (JsSet.of_list l) = existsb (String.eqb x) l.
Proof.
  unfold JsSet.of_list.
  assert (G : forall acc, JsSet.has x (fold_left (fun s y => JsSet.add y s) l acc)
                          = JsSet.has x acc || existsb (String.eqb x) l).
  { induction l as [|y ys IH]; simpl; intros acc; [now rewrite orb_false_r |].
    rewrite IH. unfold JsSet.add.
    destruct (JsSet.has y acc) eqn:E.
    - destruct (String.eqb x y) eqn:Exy; [| reflexivity].
      apply String.eqb_eq in Exy. subst. rewrite E. reflexivity.
    - unfold JsSet.has. rewrite existsb_app. simpl.
      rewrite orb_false_r, orb_assoc. reflexivity. }
  rewrite G. reflexivity.
Qed.

Lemma set_has_In (x : string) (s : JsSet.t) : JsSet.has x s = true <-> In x s.
Proof.
  unfold JsSet.has. rewrite existsb_exists. split.
  - intros [y [Hy E]]. apply String.eqb_eq in E. now subst.
  - intros H. exists x. split; [exact H | apply String.eqb_refl].
Qed.

(** [new Set(l)] holds the elements of [l], each once. *)
Lemma set_of_list_spec (l : list string) :
  NoDup (JsSet.of_list l) /\ forall x, In x (JsSet.of_list l) <-> In x l.
Proof.
  unfold JsSet.of_list.
  assert (G : forall acc, NoDup acc ->
            NoDup (fold_left (fun s y => JsSet.add y s) l acc)
            /\ forall x, In x (fold_left (fun s y => JsSet.add y s) l acc)
                         <-> In x acc \/ In x l).
  { induction l as [|y ys IH]; simpl; intros acc Hnd.
    - split; [exact Hnd | intuition].
    - assert (Hadd : NoDup (JsSet.add y acc)
                     /\ forall x, In x (JsSet.add y acc) <-> In x acc \/ y = x).
      { unfold JsSet.add. destruct (JsSet.has y acc) eqn:E.
        - apply set_has_In in E. split; [exact Hnd |].
          intros x. split; [tauto | intros [H | <-]; assumption].
        - split.
          + apply NoDup_app; [exact Hnd | repeat constructor; simpl; tauto |].
            intros x Hx [<- | []]. apply set_has_In in Hx. congruence.
          + intros x. rewrite in_app_iff. simpl. tauto. }
      destruct Hadd as [Hnd' Hin]. destruct (IH _ Hnd') as [H1 H2].
      split; [exact H1 |]. intros x. rewrite H2, Hin. tauto. }
  destruct (G [] (NoDup_nil _)) as [H1 H2]. split; [exact H1 |].
  intros x. rewrite H2. simpl. tauto.
Qed.

Lemma set_size_le (l : list string) : JsSet.size (JsSet.of_list l) <= List.length l.
Proof.
  destruct (set_of_list_spec l) as [Hnd Hin].
  apply NoDup_incl_length; [exact Hnd |]. intros x. apply Hin.
Qed.

Lemma set_size_distinct (l : list string) :
  JsSet.size (JsSet.of_list l) = List.length (nodup string_dec l).
Proof.
  destruct (set_of_list_spec l) as [Hnd Hin].
  apply Permutation_length, NoDup_Permutation;
    [exact Hnd | apply NoDup_nodup |].
  intros x. rewrite Hin, nodup_In. reflexivity.
Qed.

Lemma fold_left_ind {A B : Type} (P : A -> Prop) (f : A -> B -> A) (l : list B) (a : A) :
  P a -> (forall a b, In b l -> P a -> P (f a b)) -> P (fold_left f l a).
Proof.
  revert a. induction l as [|b l IH]; simpl; intros a Ha Hstep; [exact Ha |].
  apply IH; [apply Hstep; [now left | exact Ha] |].
  intros a' b' Hb'. apply Hstep. now right.
Qed.

Lemma fold_left_same {A B : Type} (f g : A -> B -> A) (l : list B) (a : A) :
  (forall a b, f a b = g a b) -> fold_left f l a = fold_left g l a.
Proof.
  intros H. revert a. induction l as [|b l IH]; simpl; intros a; [reflexivity |].
  now rewrite H, IH.
Qed.

(* ------------------------------------------------------------------ *)
(** ** Company aggregation *)

Lemma bump_total (b : DifficultyBreakdown) (key : string) :
  Spec.breakdownTotal (bump b key)
  = Spec.breakdownTotal b + (if Spec.countedKey key then 1 else 0).
Proof.
  unfold bump, Spec.countedKey, Spec.breakdownTotal.
  destruct (String.eqb key "easy"); simpl; [lia |].
  destruct (String.eqb key "medium"); simpl; [lia |].
  destruct (String.eqb key "hard"); simpl; lia.
Qed.

(** The three counters tell how many records have a difficulty that names one
    of them. *)
Lemma breakdown_total (qs : list QuestionWithDetails) :
  Spec.breakdownTotal (calculateDifficultyBreakdown qs)
  = List.length (filter (fun q => Spec.countedKey (Str.toLowerCase (q_difficulty q))) qs).
Proof.
  unfold calculateDifficultyBreakdown.
  assert (G : forall b,
    Spec.breakdownTotal
      (fold_left (fun breakdown q => bump breakdown (Str.toLowerCase (q_difficulty q))) qs b)
    = Spec.breakdownTotal b
      + List.length (filter (fun q => Spec.countedKey (Str.toLowerCase (q_difficulty q))) qs)).
  { induction qs as [|q qs IH]; simpl; intros b; [lia |].
    rewrite IH, bump_total.
    destruct (Spec.countedKey (Str.toLowerCase (q_difficulty q))); simpl; lia. }
  rewrite G. reflexivity.
Qed.

Lemma countedKey_true (d : string) :
  Spec.difficultyCounted d <-> Spec.countedKey (Str.toLowerCase d) = true.
Proof.
  unfold Spec.difficultyCounted, Spec.countedKey.
  rewrite !orb_true_iff, !String.eqb_eq. tauto.
Qed.

Lemma filter_all {A : Type} (p : A -> bool) (l : list A) :
  (forall x, In x l -> p x = true) -> filter p l = l.
Proof.
  induction l as [|x xs IH]; simpl; intros H; [reflexivity |].
  rewrite (H x (or_introl eq_refl)). f_equal. apply IH. intros y Hy. apply H. now right.
Qed.

(** Shape of an entry of the company map. *)
Lemma aggregateCompanies_entry (questions : list QuestionWithDetails)
      (companyList : list string) (slug : string) (c : Company) :
  In (slug, c) (aggregateCompanies questions companyList) ->
  In slug companyList
  /\ Spec.recordsOf slug questions <> []
  /\ co_slug c = slug
  /\ co_questionCount c = List.length (Spec.recordsOf slug questions)
  /\ co_uniqueQuestionCount c
     = JsSet.size (JsSet.of_list (map q_slug (Spec.recordsOf slug questions)))
  /\ co_difficultyBreakdown c
     = calculateDifficultyBreakdown (Spec.recordsOf slug questions)
  /\ co_topTopics c = calculateTopTopics (Spec.recordsOf slug questions) 10.
Proof.
  unfold aggregateCompanies. intros H.
  apply In_of_entries in H. apply In_sort in H. revert H.
  apply (fold_left_ind (fun m => In (slug, c) m -> _)); simpl; [tauto |].
  intros m k Hk IH.
  fold (Spec.recordsOf k questions).
  destruct (List.length (Spec.recordsOf k questions) =? 0) eqn:E; [exact IH |].
  intros H. apply In_set in H. destruct H as [H | H]; [| now apply IH].
  injection H as -> ->. simpl.
  repeat split; try reflexivity; try assumption.
  intros Hnil. rewrite Hnil in E. discriminate.
Qed.

(* ------------------------------------------------------------------ *)
(** ** Grouping by key *)

Section Grouping.
Context {X V : Type} (key : X -> string) (val : X -> V).

Lemma get_push k x (m : JsMap.t (list V)) k' :
  JsMap.get k' (JsMap.push k x m)
  = if String.eqb k k'
    then Some (match JsMap.get k m with Some l => l ++ [x] | None => [x] end)
    else JsMap.get k' m.
Proof.
  unfold JsMap.push. destruct (String.eqb k k') eqn:E.
  - apply String.eqb_eq in E. subst k'.
    destruct (JsMap.get k m); apply get_set_same.
  - apply String.eqb_neq in E.
    destruct (JsMap.get k m); apply get_set_other; congruence.
Qed.

(** After pushing [val x] under [key x] for every [x], a key holds the
    values of its elements, in order. *)
Lemma get_group (xs : list X) (acc : JsMap.t (list V)) (k : string) :
  JsMap.get k (fold_left (fun m x => JsMap.push (key x) (val x) m) xs acc)
  = match JsMap.get k acc, map val (filter (fun x => String.eqb (key x) k) xs) with
    | Some l, extra => Some (l ++ extra)
    | None, [] => None
    | None, extra => Some extra
    end.
Proof.
  revert acc. induction xs as [|x xs IH]; simpl; intros acc.
  - destruct (JsMap.get k acc); [now rewrite app_nil_r | reflexivity].
  - rewrite IH, get_push.
    destruct (String.eqb (key x) k) eqn:E; simpl.
    + apply String.eqb_eq in E. subst k.
      destruct (JsMap.get (key x) acc); simpl; [now rewrite <- app_assoc | reflexivity].
    + reflexivity.
Qed.

Lemma NoDup_keys_push k x (m : JsMap.t (list V)) :
  NoDup (JsMap.keys m) -> NoDup (JsMap.keys (JsMap.push k x m)).
Proof. unfold JsMap.push. destruct (JsMap.get k m); apply NoDup_keys_set. Qed.

Lemma NoDup_keys_group (xs : list X) (acc : JsMap.t (list V)) :
  NoDup (JsMap.keys acc) ->
  NoDup (JsMap.keys (fold_left (fun m x => JsMap.push (key x) (val x) m) xs acc)).
Proof.
  intros H. apply fold_left_ind; [exact H |].
  intros m x _. apply NoDup_keys_push.
Qed.

(** The entries of the grouping of [xs] from the empty map. *)
Lemma In_group (xs : list X) (k : string) (l : list V) :
  In (k, l) (fold_left (fun m x => JsMap.push (key x) (val x) m) xs JsMap.empty) ->
  l = map val (filter (fun x => String.eqb (key x) k) xs) /\ l <> [].
Proof.
  intros H. apply In_get in H; [| apply NoDup_keys_group; constructor].
  rewrite get_group in H. simpl in H.
  destruct (map val (filter (fun x => String.eqb (key x) k) xs)); [discriminate |].
  injection H as <-. split; [reflexivity | discriminate].
Qed.
End Grouping.

(* ------------------------------------------------------------------ *)
(** ** Question deduplication *)

Lemma sign_nonpos (q : Q) : (JsArray.sign q <= 0)%Z <-> (q <= 0)%Q.
Proof.
  unfold JsArray.sign, Qle. simpl. rewrite Z.mul_1_r.
  destruct (Qnum q); simpl; split; intros; try lia; try easy.
Qed.

Lemma byFrequencyDesc_before (a b : CompanyFrequency) :
  (byFrequencyDesc a b <= 0)%Z -> (cf_frequency b <= cf_frequency a)%Q.
Proof. unfold byFrequencyDesc. rewrite sign_nonpos. lra. Qed.

Lemma byFrequencyDesc_after (a b : CompanyFrequency) :
  (0 < byFrequencyDesc a b)%Z -> (cf_frequency a <= cf_frequency b)%Q.
Proof.
  unfold byFrequencyDesc. intros H.
  assert (Hn : ~ (cf_frequency b - cf_frequency a <= 0)%Q).
  { rewrite <- sign_nonpos. lia. }
  lra.
Qed.

Lemma sort_byFrequencyDesc (l : list CompanyFrequency) :
  Spec.frequenciesDescending (JsArray.sort byFrequencyDesc l).
Proof.
  apply sort_strongly_sorted.
  - apply byFrequencyDesc_before.
  - apply byFrequencyDesc_after.
  - intros x y z Hxy Hyz. lra.
Qed.

Lemma questionCompanies_get (questions : list QuestionWithDetails) (slug : string) :
  match JsMap.get slug
          (fold_left (fun m q => JsMap.push (q_slug q) (companyFrequencyOf q) m)
                     questions JsMap.empty) with
  | Some l => l
  | None => []
  end
  = map companyFrequencyOf (filter (fun q => String.eqb (q_slug q) slug) questions).
Proof.
  rewrite (get_group q_slug companyFrequencyOf). simpl.
  now destruct (map companyFrequencyOf
                    (filter (fun q => String.eqb (q_slug q) slug) questions)).
Qed.

(** The company list of a unique question: the entries of the records of its
    slug, sorted. *)
Lemma deduplicateQuestions_entry (questions : list QuestionWithDetails)
      (slug : string) (uq : UniqueQuestion) :
  In (slug, uq) (deduplicateQuestions questions) ->
  uq_slug uq = slug
  /\ uq_companies uq
     = JsArray.sort byFrequencyDesc
         (map companyFrequencyOf
              (filter (fun q => String.eqb (q_slug q) slug) questions)).
Proof.
  unfold deduplicateQuestions. intros H.
  apply In_of_entries in H. apply In_sort in H. revert H.
  apply (fold_left_ind (fun m => In (slug, uq) m -> _)); simpl; [tauto |].
  intros m q _ IH.
  destruct (JsMap.has (q_slug q) m); [exact IH |].
  intros H. apply In_set in H. destruct H as [H | H]; [| now apply IH].
  injection H as -> ->. simpl. split; [reflexivity |].
  f_equal. apply questionCompanies_get.
Qed.

(* ------------------------------------------------------------------ *)
(** ** Strings *)

Lemma lower_char_colon (c : ascii) : Str.lower_char c = ":"%char <-> c = ":"%char.
Proof.
  destruct c as [[] [] [] [] [] [] [] []]; vm_compute; split; congruence.
Qed.

Lemma lower_char_idem (c : ascii) : Str.lower_char (Str.lower_char c) = Str.lower_char c.
Proof. destruct c as [[] [] [] [] [] [] [] []]; reflexivity. Qed.

Lemma toLowerCase_idem (s : string) :
  Str.toLowerCase (Str.toLowerCase s) = Str.toLowerCase s.
Proof.
  induction s as [|c s IH]; simpl; [reflexivity |].
  now rewrite lower_char_idem, IH.
Qed.

Lemma noColon_cons (c : ascii) (s : string) :
  Spec.noColon (String c s) <-> c <> ":"%char /\ Spec.noColon s.
Proof.
  unfold Spec.noColon. cbn [list_ascii_of_string existsb].
  rewrite orb_false_iff, Ascii.eqb_neq. intuition congruence.
Qed.

Lemma noColon_lower (s : string) : Spec.noColon s -> Spec.noColon (Str.toLowerCase s).
Proof.
  induction s as [|c s IH]; simpl; [easy |].
  rewrite !noColon_cons, lower_char_colon. tauto.
Qed.

Lemma split_noColon (s : string) : Spec.noColon s -> Str.split ":" s = [s].
Proof.
  induction s as [|c s IH]; simpl; [reflexivity |].
  rewrite noColon_cons. intros [Hc Hs].
  apply Ascii.eqb_neq in Hc. rewrite Hc, (IH Hs). reflexivity.
Qed.

Lemma split_key (c t : string) :
  Spec.noColon c -> Spec.noColon t ->
  Str.split ":" (c ++ String ":" t)%string = [c; t].
Proof.
  intros Hc Ht. induction c as [|a c IH]; simpl.
  - now rewrite split_noColon.
  - apply noColon_cons in Hc. destruct Hc as [Ha Hc].
    apply Ascii.eqb_neq in Ha. rewrite Ha, (IH Hc). reflexivity.
Qed.

Lemma key_injective (c c' x x' : string) :
  Spec.noColon c -> Spec.noColon c' ->
  (c ++ String ":" x)%string = (c' ++ String ":" x')%string -> c = c' /\ x = x'.
Proof.
  revert c'. induction c as [|a c IH]; intros [|a' c'] Hc Hc' E; simpl in E.
  - injection E as ->. now split.
  - injection E as <- _. apply noColon_cons in Hc'. now destruct Hc'.
  - injection E as -> _. apply noColon_cons in Hc. now destruct Hc.
  - injection E as <- E. apply noColon_cons in Hc, Hc'.
    destruct (IH c' (proj2 Hc) (proj2 Hc') E) as [-> ->]. now split.
Qed.

(** Two bucket keys agree when the companies agree and the topics agree,
    letter case apart. *)
Lemma crossRefKey_eqb (c c' t t' : string) :
  Spec.noColon c -> Spec.noColon c' ->
  String.eqb (crossRefKey c t) (crossRefKey c' t')
  = String.eqb c c' && String.eqb (Str.toLowerCase t) (Str.toLowerCase t').
Proof.
  intros Hc Hc'. unfold crossRefKey.
  change (":" ++ Str.toLowerCase t)%string with (String ":" (Str.toLowerCase t)).
  change (":" ++ Str.toLowerCase t')%string with (String ":" (Str.toLowerCase t')).
  destruct (String.eqb (c ++ String ":" (Str.toLowerCase t))
                       (c' ++ String ":" (Str.toLowerCase t'))) eqn:E.
  - apply String.eqb_eq in E. apply key_injective in E; [| assumption ..].
    destruct E as [-> ->]. now rewrite !String.eqb_refl.
  - symmetry. apply andb_false_iff.
    destruct (String.eqb c c') eqn:E1; [| now left].
    destruct (String.eqb (Str.toLowerCase t) (Str.toLowerCase t')) eqn:E2; [| now right].
    apply String.eqb_eq in E1, E2. subst c'. rewrite E2, String.eqb_refl in E.
    discriminate.
Qed.

(* ------------------------------------------------------------------ *)
(** ** Cross-reference index *)

Lemma fold_left_nested {A X Y : Type} (f : A -> X * Y -> A) (g : X -> list Y)
      (xs : list X) (a : A) :
  fold_left (fun a x => fold_left (fun a y => f a (x, y)) (g x) a) xs a
  = fold_left f (flat_map (fun x => map (pair x) (g x)) xs) a.
Proof.
  revert a. induction xs as [|x xs IH]; simpl; intros a; [reflexivity |].
  rewrite fold_left_app, IH. f_equal.
  generalize (g x). intros ys. revert a.
  induction ys as [|y ys IHy]; simpl; intros a; [reflexivity | apply IHy].
Qed.

Lemma crossRefBuckets_pairs (questions : list QuestionWithDetails) :
  crossRefBuckets questions
  = fold_left (fun m qt => JsMap.push (pairKey qt) (fst qt) m)
              (crossRefPairs questions) JsMap.empty.
Proof.
  unfold crossRefBuckets, crossRefPairs.
  apply (fold_left_nested
           (fun m (qt : QuestionWithDetails * string) =>
              JsMap.push (pairKey qt) (fst qt) m)).
Qed.

Lemma In_concat_values {V : Type} (m : JsMap.t (list V)) (r : V) :
  In r (List.concat (JsMap.values m)) <-> exists k l, In (k, l) m /\ In r l.
Proof.
  unfold JsMap.values. rewrite in_concat. split.
  - intros [l [Hl Hr]]. apply in_map_iff in Hl. destruct Hl as [[k l'] [E Hin]].
    simpl in E. subst l'. eauto.
  - intros [k [l [Hin Hr]]]. exists l. split; [| exact Hr].
    change l with (snd (k, l)). now apply in_map.
Qed.

Section Views.
Context {X V : Type} (key : X -> string) (val : X -> V).

Lemma In_values_push k x (m : JsMap.t (list V)) r :
  In r (List.concat (JsMap.values (JsMap.push k x m))) ->
  In r (List.concat (JsMap.values m)) \/ r = x.
Proof.
  rewrite !In_concat_values. intros [k' [l [Hin Hr]]].
  unfold JsMap.push in Hin. destruct (JsMap.get k m) as [l0|] eqn:E.
  - apply In_set in Hin. destruct Hin as [Heq | Hin]; [| left; eauto].
    injection Heq as -> ->. apply in_app_or in Hr. destruct Hr as [Hr | [<- | []]].
    + left. exists k, l0. split; [now apply get_Some_In | exact Hr].
    + now right.
  - apply In_set in Hin. destruct Hin as [Heq | Hin]; [| left; eauto].
    injection Heq as -> ->. destruct Hr as [<- | []]. now right.
Qed.

Lemma In_values_group (xs : list X) (acc : JsMap.t (list V)) r :
  In r (List.concat
          (JsMap.values (fold_left (fun m x => JsMap.push (key x) (val x) m) xs acc))) ->
  In r (List.concat (JsMap.values acc)) \/ In r (map val xs).
Proof.
  revert acc. induction xs as [|x xs IH]; simpl; intros acc H; [now left |].
  apply IH in H. destruct H as [H | H]; [| now right; right].
  apply In_values_push in H. destruct H as [H | ->]; [now left | right; now left].
Qed.
End Views.

Lemma In_values_sortValues {V : Type} (cmp : V -> V -> Z) (m : JsMap.t (list V)) r :
  In r (List.concat (JsMap.values (sortValues cmp m))) ->
  In r (List.concat (JsMap.values m)).
Proof.
  rewrite !In_concat_values. intros [k [l [Hin Hr]]].
  unfold sortValues in Hin. apply in_map_iff in Hin.
  destruct Hin as [[k' l'] [E Hin]]. simpl in E. injection E as <- <-.
  apply In_sort in Hr. eauto.
Qed.

(** Every cross-reference of the index is made from one bucket. *)
Lemma crossRefsOf_bucket (questions : list QuestionWithDetails) (r : CompanyTopicCrossRef) :
  In r (Spec.crossRefsOf (buildCrossReferenceIndex questions)) ->
  exists k l, In (k, l) (crossRefBuckets questions) /\ r = makeCrossRef k l.
Proof.
  unfold Spec.crossRefsOf, buildCrossReferenceIndex. simpl.
  set (step := fun (views : JsMap.t (list CompanyTopicCrossRef)
                           * JsMap.t (list CompanyTopicCrossRef))
                   (entry : string * list QuestionWithDetails) =>
                 (JsMap.push (cr_companySlug (makeCrossRef (fst entry) (snd entry)))
                             (makeCrossRef (fst entry) (snd entry)) (fst views),
                  JsMap.push (cr_topicSlug (makeCrossRef (fst entry) (snd entry)))
                             (makeCrossRef (fst entry) (snd entry)) (snd views))).
  set (mk := fun entry : string * list QuestionWithDetails =>
               makeCrossRef (fst entry) (snd entry)).
  assert (G : forall entries a b,
    fold_left step entries (a, b)
    = (fold_left (fun m e => JsMap.push (cr_companySlug (mk e)) (mk e) m) entries a,
       fold_left (fun m e => JsMap.push (cr_topicSlug (mk e)) (mk e) m) entries b)).
  { induction entries as [|e es IH]; simpl; intros a b; [reflexivity | apply IH]. }
  rewrite G. simpl. intros H.
  assert (Hmk : In r (map mk (crossRefBuckets questions))).
  { apply in_app_or in H. destruct H as [H | H];
      apply In_values_sortValues in H; apply In_values_group in H;
      destruct H as [H | H]; try exact H; simpl in H; contradiction. }
  apply in_map_iff in Hmk. destruct Hmk as [[k l] [E Hin]].
  exists k, l. split; [exact Hin | now rewrite <- E].
Qed.

(** A bucket holds the records of the pairs that bear its key. *)
Lemma bucket_records (questions : list QuestionWithDetails) (k : string)
      (l : list QuestionWithDetails) :
  In (k, l) (crossRefBuckets questions) ->
  l = map fst (filter (fun qt => String.eqb (pairKey qt) k) (crossRefPairs questions))
  /\ l <> [].
Proof. rewrite crossRefBuckets_pairs. apply (In_group pairKey fst). Qed.

Lemma In_crossRefPairs (questions : list QuestionWithDetails) q t :
  In (q, t) (crossRefPairs questions) <-> In q questions /\ In t (q_topics q).
Proof.
  unfold crossRefPairs. rewrite in_flat_map. split.
  - intros [q' [Hq Hin]]. apply in_map_iff in Hin. destruct Hin as [t' [E Ht]].
    injection E as -> ->. now split.
  - intros [Hq Ht]. exists q. split; [exact Hq | now apply in_map].
Qed.

Lemma filter_pairs_length (questions : list QuestionWithDetails)
      (p : QuestionWithDetails * string -> bool) :
  List.length (filter p (crossRefPairs questions))
  = list_sum (map (fun q => List.length (filter (fun t => p (q, t)) (q_topics q)))
                  questions).
Proof.
  unfold crossRefPairs. induction questions as [|q qs IH]; simpl; [reflexivity |].
  rewrite filter_app, length_app, IH. f_equal.
  generalize (q_topics q). intros ts.
  induction ts as [|t ts IHt]; simpl; [reflexivity |].
  destruct (p (q, t)); simpl; now rewrite IHt.
Qed.

Lemma list_sum_filter {A : Type} (p : A -> bool) (f g : A -> nat) (l : list A) :
  (forall x, In x l -> f x = if p x then g x else 0) ->
  list_sum (map f l) = list_sum (map g (filter p l)).
Proof.
  induction l as [|x xs IH]; simpl; intros H; [reflexivity |].
  rewrite (H x (or_introl eq_refl)), IH by (intros y Hy; apply H; now right).
  destruct (p x); reflexivity.
Qed.

Lemma list_sum_indicator {A : Type} (p : A -> bool) (l : list A) :
  list_sum (map (fun x => if p x then 1 else 0) l) = List.length (filter p l).
Proof.
  induction l as [|x xs IH]; simpl; [reflexivity |].
  rewrite IH. destruct (p x); reflexivity.
Qed.

Lemma filter_ext_in_length {A : Type} (p p' : A -> bool) (l : list A) :
  (forall x, In x l -> p x = p' x) ->
  List.length (filter p l) = List.length (filter p' l).
Proof. intros H. now rewrite (filter_ext_in p p' l H). Qed.

Lemma filter_none {A : Type} (p : A -> bool) (l : list A) :
  (forall x, In x l -> p x = false) -> filter p l = [].
Proof.
  induction l as [|x xs IH]; simpl; intros H; [reflexivity |].
  rewrite (H x (or_introl eq_refl)). apply IH. intros y Hy. apply H. now right.
Qed.

(** In a list without repetition under [h], at most one element has a given
    image. *)
Lemma count_once (h : string -> string) (x : string) (l : list string) :
  NoDup (map h l) ->
  List.length (filter (fun t => String.eqb (h t) x) l)
  = if existsb (fun t => String.eqb (h t) x) l then 1 else 0.
Proof.
  induction l as [|t ts IH]; simpl; intros Hnd; [reflexivity |].
  inversion Hnd as [|? ? Hnotin Hnd']; subst.
  destruct (String.eqb (h t) x) eqn:E; simpl.
  - apply String.eqb_eq in E. rewrite filter_none; [reflexivity |].
    intros y Hy. apply String.eqb_neq. intros Ey. apply Hnotin.
    rewrite E, <- Ey. now apply in_map.
  - now apply IH.
Qed.

Section CrossRefCount.
Variable questions : list QuestionWithDetails.

Hypothesis companies_noColon :
  forall q, In q questions -> Spec.noColon (q_company q).
Hypothesis topics_noColon :
  forall q t, In q questions -> In t (q_topics q) -> Spec.noColon t.

(** The bucket of the pair [(q0, t0)]: what the cross-reference made from it
    holds. *)
Lemma makeCrossRef_fields q0 t0 rest :
  In q0 questions -> In t0 (q_topics q0) ->
  let r := makeCrossRef (pairKey (q0, t0)) (q0 :: rest) in
  cr_companySlug r = q_company q0
  /\ Str.toLowerCase (cr_topicName r) = Str.toLowerCase t0
  /\ cr_questionCount r = S (List.length rest).
Proof.
  intros Hq0 Ht0. unfold makeCrossRef, pairKey, crossRefKey. simpl fst. simpl snd.
  change (":" ++ Str.toLowerCase t0)%string with (String ":" (Str.toLowerCase t0)).
  rewrite split_key; [| now apply companies_noColon
                      | apply noColon_lower; now apply (topics_noColon q0)].
  simpl. repeat split.
  unfold JsArray.find.
  destruct (find (fun t => String.eqb (Str.toLowerCase t) (Str.toLowerCase t0))
                 (q_topics q0)) as [t1|] eqn:F.
  - apply find_some in F. destruct F as [_ F]. apply String.eqb_eq in F.
    destruct (String.eqb t1 EmptyString); [apply toLowerCase_idem | exact F].
  - apply toLowerCase_idem.
Qed.

Lemma crossRef_counts_entries (r : CompanyTopicCrossRef) :
  In r (Spec.crossRefsOf (buildCrossReferenceIndex questions)) ->
  cr_questionCount r
  = Spec.topicEntryCount (cr_companySlug r) (cr_topicName r) questions.
Proof.
  intros Hr. apply crossRefsOf_bucket in Hr. destruct Hr as [k [l [Hin ->]]].
  apply bucket_records in Hin. destruct Hin as [Hl Hne].
  destruct (filter (fun qt => String.eqb (pairKey qt) k) (crossRefPairs questions))
    as [|[q0 t0] rest] eqn:F; [simpl in Hl; contradiction |].
  assert (Hhead : In (q0, t0)
                     (filter (fun qt => String.eqb (pairKey qt) k) (crossRefPairs questions))).
  { rewrite F. now left. }
  apply filter_In in Hhead. destruct Hhead as [Hpair Hk].
  apply In_crossRefPairs in Hpair. destruct Hpair as [Hq0 Ht0].
  apply String.eqb_eq in Hk. subst k l. simpl map.
  destruct (makeCrossRef_fields q0 t0 (map fst rest) Hq0 Ht0) as [Hc [Hn Hcount]].
  rewrite Hc. unfold Spec.topicEntryCount, Spec.recordsOf. rewrite Hn, Hcount.
  change (S (List.length (map fst rest)))
    with (List.length (map fst ((q0, t0) :: rest))).
  rewrite <- F, length_map, filter_pairs_length.
  apply list_sum_filter. intros q Hq.
  destruct (String.eqb (q_company q) (q_company q0)) eqn:E.
  - apply filter_ext_in_length. intros t Ht. unfold pairKey. simpl.
    rewrite crossRefKey_eqb by (now apply companies_noColon). now rewrite E.
  - rewrite filter_none; [reflexivity |]. intros t Ht. unfold pairKey. simpl.
    rewrite crossRefKey_eqb by (now apply companies_noColon). now rewrite E.
Qed.

Lemma entries_are_records (company topic : string) :
  (forall q, In q questions -> Spec.topicsListedOnce q) ->
  Spec.topicEntryCount company topic questions
  = Spec.recordCount (Spec.listsTopic topic) company questions.
Proof.
  intros Honce. unfold Spec.topicEntryCount, Spec.recordCount.
  rewrite <- list_sum_indicator. f_equal. apply map_ext_in. intros q Hq.
  apply filter_In in Hq. destruct Hq as [Hq _].
  apply (count_once Str.toLowerCase). now apply Honce.
Qed.
End CrossRefCount.

(* ------------------------------------------------------------------ *)
(** ** Cache controller *)

Import CacheCtl.

(** The state after [S n] calls on a fresh module: one build, the first
    frame at its [await], the other calls handed the pending promise. *)
Lemma concurrentCalls_init (n : nat) :
  concurrentCalls (S n) init
  = {| buildCache := None; cachePromise := Some 0; promises := [Pending];
       calls := Suspended 0 :: repeat (Forwarded 0) n |}.
Proof.
  unfold concurrentCalls. induction n as [|n IH].
  - reflexivity.
  - change (Nat.iter (S (S n)) getBuildCache init)
      with (getBuildCache (Nat.iter (S n) getBuildCache init)).
    rewrite IH. unfold getBuildCache. simpl. do 2 f_equal.
    symmetry. apply repeat_cons.
  Qed.

Lemma resumeFrames_forwarded ps p n bc cp :
  resumeFrames ps (repeat (Forwarded p) n) bc cp = (repeat (Forwarded p) n, bc, cp).
Proof. induction n as [|n IH]; simpl; [reflexivity | now rewrite IH]. Qed.

(** The state once the build of [S n] concurrent calls has settled and the
    suspended frame has run on. *)
Lemma finishBuild_concurrent (src : DataSource) (n : nat) :
  finishBuild src 0 (concurrentCalls (S n) init)
  = match buildAggregatedData src with
    | inr v =>
        {| buildCache := Some v; cachePromise := None; promises := [Fulfilled v];
           calls := Returned v :: repeat (Forwarded 0) n |}
    | inl e =>
        {| buildCache := None; cachePromise := Some 0; promises := [Rejected e];
           calls := Threw e :: repeat (Forwarded 0) n |}
    end.
Proof.
  rewrite concurrentCalls_init. unfold finishBuild, settle, resume. simpl.
  destruct (buildAggregatedData src) as [e | v]; simpl;
    rewrite resumeFrames_forwarded; reflexivity.
Qed.

Lemma outcomes_forwarded st p n o :
  nth p (promises st) Pending = o ->
  map (outcome st) (repeat (Forwarded p) n) = repeat o n.
Proof. intros <-. induction n as [|n IH]; simpl; [reflexivity | now rewrite IH]. Qed.

(* ------------------------------------------------------------------ *)
(** ** Related companies *)

Lemma fold_left_collect {A B : Type} (skip : A -> bool) (f : A -> B) (keep : B -> bool)
      (l : list A) (acc : list (A * B)) :
  fold_left (fun scored x =>
               if skip x then scored
               else if keep (f x) then scored ++ [(x, f x)] else scored)
            l acc
  = acc ++ filter (fun xs => keep (snd xs))
                  (map (fun x => (x, f x)) (filter (fun x => negb (skip x)) l)).
Proof.
  revert acc. induction l as [|x xs IH]; simpl; intros acc; [now rewrite app_nil_r |].
  rewrite IH. destruct (skip x); simpl; [reflexivity |].
  destruct (keep (f x)); simpl; [now rewrite <- app_assoc | reflexivity].
Qed.

Lemma existsb_of_map {X Y : Type} (test : Y -> bool) (g : X -> Y) (xs : list X) :
  existsb test (map g xs) = existsb (fun x => test (g x)) xs.
Proof.
  induction xs as [|x xs IH]; simpl; [reflexivity | now rewrite IH].
Qed.

Lemma has_topTopic_slug (slug : string) (ts : list TopicCount) :
  JsSet.has slug (JsSet.of_list (map tc_slug ts))
  = existsb (fun u => String.eqb slug (tc_slug u)) ts.
Proof.
  rewrite set_has_of_list. induction ts as [|t ts IH]; simpl; [reflexivity |].
  now rewrite IH.
Qed.

(** The loop of the source computes the score of the specification. *)
Lemma scoreRelatedCompanies_spec (current : Company) (all : JsMap.t Company) :
  scoreRelatedCompanies current all = Spec.scoredCandidates current all.
Proof.
  unfold scoreRelatedCompanies, Spec.scoredCandidates.
  rewrite <- (app_nil_l (filter _ _)).
  rewrite <- (fold_left_collect
                (fun c => String.eqb (co_slug c) (co_slug current))
                (Spec.companyScore current) (fun s => (0 <? s)%Z)).
  apply fold_left_same. intros scored company.
  destruct (String.eqb (co_slug company) (co_slug current)); [reflexivity |].
  assert (E : forall s0 : Z,
    s0 = Spec.companyScore current company ->
    (if (s0 >? 0)%Z then scored ++ [(company, s0)] else scored)
    = (if (0 <? Spec.companyScore current company)%Z
       then scored ++ [(company, Spec.companyScore current company)] else scored)).
  { intros s0 ->. now rewrite Z.gtb_ltb. }
  apply E. unfold Spec.companyScore, Spec.sharedTopTopics, Spec.sizeBonus,
    Spec.sizeDifference.
  rewrite (filter_ext _ _ (fun t => has_topTopic_slug (tc_slug t) (co_topTopics current))).
  destruct (getCompanyTier (co_slug company) =? getCompanyTier (co_slug current))%Z;
    destruct (getCompanyTier (co_slug company) <? getCompanyTier (co_slug current))%Z;
    destruct (Z.abs (Z.of_nat (co_questionCount company)
                     - Z.of_nat (co_questionCount current)) <? 50)%Z;
    destruct (Z.abs (Z.of_nat (co_questionCount company)
                     - Z.of_nat (co_questionCount current)) <? 100)%Z; lia.
Qed.

Lemma sort_byScoreDesc {A : Type} (l : list (A * Z)) :
  Spec.scoresDescending (JsArray.sort byScoreDesc l).
Proof.
  apply sort_strongly_sorted; unfold byScoreDesc; intros; lia.
Qed.

Lemma slice0_nat {A : Type} (n : nat) (l : list A) :
  JsArray.slice0 (Z.of_nat n) l = firstn n l.
Proof.
  unfold JsArray.slice0.
  destruct (Z.of_nat n <? 0)%Z eqn:E; [apply Z.ltb_lt in E; lia |].
  now rewrite Nat2Z.id.
Qed.

(* ------------------------------------------------------------------ *)
(** ** Targets of the related-company links *)

Lemma NoDup_keys_of_entries {V : Type} (es : list (string * V)) :
  NoDup (JsMap.keys (JsMap.of_entries es)).
Proof.
  unfold JsMap.of_entries. apply fold_left_ind; [constructor |].
  intros m e _. apply NoDup_keys_set.
Qed.

(** Filtering keeps the images under [slugOf] distinct. *)
Lemma NoDup_map_filter {V K : Type} (slugOf : V -> K) (keep : V -> bool)
      (vs : list V) (Hnd : NoDup (map slugOf vs)) :
  NoDup (map slugOf (filter keep vs)).
Proof.
  induction vs as [|v vs IH]; simpl; [constructor |].
  simpl in Hnd. inversion Hnd as [|? ? Hnotin Hnd']; subst.
  destruct (keep v); simpl; [| now apply IH].
  constructor; [| now apply IH].
  intros Hin. apply Hnotin. apply in_map_iff in Hin.
  destruct Hin as [y [E Hy]]. apply filter_In in Hy. rewrite <- E.
  apply in_map. tauto.
Qed.

Lemma NoDup_map_firstn {A B : Type} (f : A -> B) (n : nat) (l : list A) :
  NoDup (map f l) -> NoDup (map f (firstn n l)).
Proof.
  intros Hnd. rewrite <- (firstn_skipn n l), map_app in Hnd.
  now apply NoDup_app_remove_r in Hnd.
Qed.

Lemma NoDup_map_slice0 {A B : Type} (f : A -> B) (e : Z) (l : list A) :
  NoDup (map f l) -> NoDup (map f (JsArray.slice0 e l)).
Proof. destruct (slice0_prefix e l) as [n ->]. apply NoDup_map_firstn. Qed.

(** In the company map of a snapshot every company sits under its slug, and
    no slug occurs twice. *)
Lemma aggregateCompanies_slugs (questions : list QuestionWithDetails)
      (companyList : list string) :
  NoDup (map co_slug (JsMap.values (aggregateCompanies questions companyList))).
Proof.
  assert (E : map co_slug (JsMap.values (aggregateCompanies questions companyList))
              = JsMap.keys (aggregateCompanies questions companyList)).
  { unfold JsMap.values, JsMap.keys. rewrite map_map. apply map_ext_in.
    intros [k c] Hin. apply aggregateCompanies_entry in Hin. simpl. tauto. }
  rewrite E. apply NoDup_keys_of_entries.
Qed.

(** The companies ranked for a company of a snapshot are other companies,
    each once. *)
Lemma related_companies_targets (questions : list QuestionWithDetails)
      (companyList : list string) (current : Company) (limit : Z) :
  let ranked :=
    rankRelatedCompanies current (aggregateCompanies questions companyList) limit in
  NoDup (map (fun cs => co_slug (fst cs)) ranked)
  /\ ~ In (co_slug current) (map (fun cs => co_slug (fst cs)) ranked).
Proof.
  cbv zeta. unfold rankRelatedCompanies. rewrite scoreRelatedCompanies_spec.
  set (all := aggregateCompanies questions companyList).
  assert (Hnd : NoDup (map (fun cs : Company * Z => co_slug (fst cs))
                           (Spec.scoredCandidates current all))).
  { unfold Spec.scoredCandidates. apply NoDup_map_filter. rewrite map_map. simpl.
    apply NoDup_map_filter. apply aggregateCompanies_slugs. }
  split.
  - apply NoDup_map_slice0.
    eapply Permutation_NoDup; [| exact Hnd].
    apply Permutation_sym, Permutation_map, sort_perm.
  - intros Hin. apply in_map_iff in Hin. destruct Hin as [[c s] [E Hcs]].
    apply In_slice0, In_sort in Hcs. unfold Spec.scoredCandidates in Hcs.
    apply filter_In in Hcs. destruct Hcs as [Hcs _].
    apply in_map_iff in Hcs. destruct Hcs as [c' [E' Hc']]. injection E' as -> _.
    apply filter_In in Hc'. destruct Hc' as [_ Hne].
    apply negb_true_iff, String.eqb_neq in Hne. simpl in E. congruence.
Qed.

(* ------------------------------------------------------------------ *)
(** ** Targets of the related-topic and related-problem links *)

Section Lookup.
Context {V L : Type} (all : JsMap.t V) (mk : V -> L) (slugOf : V -> string).

Lemma fold_left_lookup (slugs : list string) (acc : list L) :
  fold_left (fun links slug =>
               match JsMap.get slug all with
               | Some x => links ++ [mk x]
               | None => links
               end) slugs acc
  = acc ++ map mk (lookupAll all slugs).
Proof.
  revert acc. induction slugs as [|s slugs IH]; simpl; intros acc.
  - now rewrite app_nil_r.
  - rewrite IH. destruct (JsMap.get s all); simpl; [now rewrite <- app_assoc | reflexivity].
Qed.

Hypothesis under_slug : forall k x, JsMap.get k all = Some x -> slugOf x = k.

Lemma lookupAll_slugs (slugs : list string) :
  map slugOf (lookupAll all slugs) = filter (fun k => JsMap.has k all) slugs.
Proof.
  unfold JsMap.has. induction slugs as [|s slugs IH]; simpl; [reflexivity |].
  destruct (JsMap.get s all) as [x|] eqn:E; simpl; [| exact IH].
  now rewrite (under_slug s x E), IH.
Qed.

Lemma NoDup_lookupAll (slugs : list string) :
  NoDup slugs -> NoDup (map slugOf (lookupAll all slugs)).
Proof. intros H. rewrite lookupAll_slugs. now apply NoDup_filter. Qed.

Lemma In_lookupAll (slugs : list string) (k : string) :
  In k (map slugOf (lookupAll all slugs)) -> In k slugs.
Proof. rewrite lookupAll_slugs. intros H. apply filter_In in H. tauto. Qed.
End Lookup.

Lemma slice0_map {A B : Type} (f : A -> B) (e : Z) (l : list A) :
  JsArray.slice0 e (map f l) = map f (JsArray.slice0 e l).
Proof.
  unfold JsArray.slice0. rewrite length_map.
  destruct (e <? 0)%Z; apply firstn_map.
Qed.

Lemma getRelatedTopics_targets (current : Topic) (all : JsMap.t Topic) (limit : Z) :
  map href (getRelatedTopics current all limit)
  = map (fun t => getCanonicalUrl PkTopic [("slug", tp_slug t)])
        (relatedTopicTargets current all limit).
Proof.
  unfold getRelatedTopics, relatedTopicTargets. cbv zeta.
  rewrite (fold_left_lookup all (topicLink priorityHigh)). simpl app.
  rewrite length_map, <- !slice0_map. f_equal.
  destruct (Z.of_nat (List.length (lookupAll all (JsSet.of_list (tp_relatedTopics current))))
            <? limit)%Z.
  - rewrite !map_app, <- !slice0_map, !map_map. reflexivity.
  - rewrite app_nil_r, !map_map. reflexivity.
Qed.

Lemma getRelatedProblems_targets (current : UniqueQuestion)
      (all : JsMap.t UniqueQuestion) (limit : Z) :
  map href (getRelatedProblems current all limit)
  = map (fun q => getCanonicalUrl PkProblem [("slug", uq_slug q)])
        (relatedProblemTargets current all limit).
Proof.
  unfold getRelatedProblems, relatedProblemTargets. cbv zeta.
  rewrite (fold_left_lookup all (problemLink priorityHigh)). simpl app.
  rewrite length_map, <- !slice0_map. f_equal.
  destruct (Z.of_nat (List.length (lookupAll all (JsSet.of_list (uq_relatedQuestions current))))
            <? limit)%Z.
  - rewrite !map_app, <- !slice0_map, !map_map. reflexivity.
  - rewrite app_nil_r, !map_map. reflexivity.
Qed.

Lemma aggregateTopics_entry (questions : list QuestionWithDetails)
      (topicList : list string) (slug : string) (t : Topic) :
  In (slug, t) (aggregateTopics questions topicList) ->
  tp_slug t = slug
  /\ exists name, In name topicList /\ slug = toSlug name
                  /\ tp_relatedTopics t = calculateRelatedTopics questions name 5.
Proof.
  unfold aggregateTopics. intros H.
  apply In_of_entries in H. apply In_sort in H. revert H.
  apply (fold_left_ind (fun m => In (slug, t) m -> _)); simpl; [tauto |].
  intros m name Hname IH.
  destruct (List.length (filter (hasTopicLower (Str.toLowerCase name)) questions) =? 0);
    [exact IH |].
  intros H. apply In_set in H. destruct H as [H | H]; [| now apply IH].
  injection H as -> ->. simpl. split; [reflexivity |]. exists name. auto.
Qed.

Lemma NoDup_values_slugs {V : Type} (slugOf : V -> string) (all : JsMap.t V) :
  NoDup (JsMap.keys all) ->
  (forall k x, In (k, x) all -> slugOf x = k) ->
  NoDup (map slugOf (JsMap.values all)).
Proof.
  intros Hnd Hslug.
  assert (E : map slugOf (JsMap.values all) = JsMap.keys all).
  { unfold JsMap.values, JsMap.keys. rewrite map_map. apply map_ext_in.
    intros [k x] Hin. simpl. now apply Hslug. }
  now rewrite E.
Qed.

(** The topics linked from a topic of a snapshot are distinct; the topic itself
    can only come from its own list of related topics. *)
Lemma related_topics_targets (questions : list QuestionWithDetails)
      (topicList : list string) (current : Topic) (limit : Z) :
  let targets :=
    relatedTopicTargets current (aggregateTopics questions topicList) limit in
  NoDup (map tp_slug targets)
  /\ (~ In (tp_slug current) (tp_relatedTopics current) ->
      ~ In (tp_slug current) (map tp_slug targets)).
Proof.
  cbv zeta. unfold relatedTopicTargets.
  set (all := aggregateTopics questions topicList).
  set (related := JsSet.of_list (tp_relatedTopics current)).
  set (explicit := lookupAll all related).
  set (fill := if (Z.of_nat (List.length explicit) <? limit)%Z then _ else []).
  assert (Hslug : forall k x, JsMap.get k all = Some x -> tp_slug x = k).
  { intros k x Hget. apply get_Some_In in Hget.
    now apply aggregateTopics_entry in Hget. }
  assert (Hfill : forall t, In t fill ->
            tp_slug t <> tp_slug current /\ ~ In (tp_slug t) related).
  { intros t Ht. unfold fill in Ht.
    destruct (Z.of_nat (List.length explicit) <? limit)%Z; [| contradiction].
    apply In_slice0, In_sort, filter_In in Ht. destruct Ht as [_ Hp].
    apply andb_true_iff in Hp. destruct Hp as [H1 H2].
    apply negb_true_iff in H1, H2. apply String.eqb_neq in H1.
    split; [exact H1 |]. rewrite <- set_has_In. congruence. }
  assert (Hfill_nd : NoDup (map tp_slug fill)).
  { unfold fill. destruct (Z.of_nat (List.length explicit) <? limit)%Z; [| constructor].
    apply NoDup_map_slice0.
    eapply Permutation_NoDup; [apply Permutation_sym, Permutation_map, sort_perm |].
    apply NoDup_map_filter, NoDup_values_slugs; [apply NoDup_keys_of_entries |].
    intros k x Hin. now apply aggregateTopics_entry in Hin. }
  split.
  - apply NoDup_map_slice0. rewrite map_app. apply NoDup_app.
    + apply NoDup_lookupAll; [exact Hslug | apply set_of_list_spec].
    + exact Hfill_nd.
    + intros k Hk Hk'. apply (In_lookupAll all tp_slug Hslug) in Hk.
      apply in_map_iff in Hk'. destruct Hk' as [t [<- Ht]].
      now apply (Hfill t Ht).
  - intros Hself Hin. apply in_map_iff in Hin. destruct Hin as [t [E Ht]].
    apply In_slice0, in_app_or in Ht. destruct Ht as [Ht | Ht].
    + apply Hself. apply (set_of_list_spec (tp_relatedTopics current)).
      apply (In_lookupAll all tp_slug Hslug). rewrite <- E. now apply in_map.
    + exact (proj1 (Hfill t Ht) E).
Qed.

Lemma findRelatedQuestions_other (questions : list QuestionWithDetails)
      (target : QuestionWithDetails) (limit : Z) (s : string) :
  In s (findRelatedQuestions questions target limit) -> s <> q_slug target.
Proof.
  unfold findRelatedQuestions. intros H. apply in_map_iff in H.
  destruct H as [[k v] [<- H]]. apply In_slice0, In_sort in H. revert H. simpl.
  apply (fold_left_ind (fun m => In (k, v) m -> k <> q_slug target)); [easy |].
  intros m q _ IH.
  destruct (String.eqb (q_slug q) (q_slug target)) eqn:E; [exact IH |].
  match goal with |- context [if ?c then _ else _] => destruct c end; [| exact IH].
  intros H. apply In_set in H. destruct H as [H | H]; [| now apply IH].
  injection H as -> _. now apply String.eqb_neq.
Qed.

Lemma deduplicateQuestions_related (questions : list QuestionWithDetails)
      (slug : string) (uq : UniqueQuestion) :
  In (slug, uq) (deduplicateQuestions questions) ->
  ~ In (uq_slug uq) (uq_relatedQuestions uq).
Proof.
  unfold deduplicateQuestions. intros H.
  apply In_of_entries in H. apply In_sort in H. revert H.
  apply (fold_left_ind (fun m => In (slug, uq) m -> _)); simpl; [tauto |].
  intros m q _ IH.
  destruct (JsMap.has (q_slug q) m); [exact IH |].
  intros H. apply In_set in H. destruct H as [H | H]; [| now apply IH].
  injection H as -> ->. simpl. intros Hin.
  now apply findRelatedQuestions_other in Hin.
Qed.

Lemma scoreRelatedProblems_collect (current : UniqueQuestion)
      (all : JsMap.t UniqueQuestion) :
  scoreRelatedProblems current all
  = filter (fun qs => (snd qs >? 0)%Z)
      (map (fun q => (q, problemScore current q))
         (filter (fun q =>
                    negb (String.eqb (uq_slug q) (uq_slug current)
                          || JsSet.has (uq_slug q)
                                       (JsSet.of_list (uq_relatedQuestions current))))
                 (JsMap.values all))).
Proof.
  exact (fold_left_collect
           (fun q => String.eqb (uq_slug q) (uq_slug current)
                     || JsSet.has (uq_slug q)
                                  (JsSet.of_list (uq_relatedQuestions current)))
           (problemScore current) (fun s => (s >? 0)%Z) (JsMap.values all) []).
Qed.

(** The questions linked from a question of a snapshot are other questions,
    each once. *)
Lemma related_problems_targets (questions : list QuestionWithDetails)
      (slug : string) (current : UniqueQuestion) (limit : Z) :
  In (slug, current) (deduplicateQuestions questions) ->
  let targets :=
    relatedProblemTargets current (deduplicateQuestions questions) limit in
  NoDup (map uq_slug targets) /\ ~ In (uq_slug current) (map uq_slug targets).
Proof.
  intros Hcur. cbv zeta. unfold relatedProblemTargets.
  set (all := deduplicateQuestions questions).
  set (related := JsSet.of_list (uq_relatedQuestions current)).
  set (explicit := lookupAll all related).
  set (fill := if (Z.of_nat (List.length explicit) <? limit)%Z then _ else []).
  assert (Hslug : forall k x, JsMap.get k all = Some x -> uq_slug x = k).
  { intros k x Hget. apply get_Some_In in Hget.
    now apply deduplicateQuestions_entry in Hget. }
  assert (Hself : ~ In (uq_slug current) related).
  { intros Hin. apply (set_of_list_spec (uq_relatedQuestions current)) in Hin.
    now apply (deduplicateQuestions_related questions slug current). }
  assert (Hfill : forall q, In q fill ->
            uq_slug q <> uq_slug current /\ ~ In (uq_slug q) related).
  { intros q Hq. unfold fill in Hq.
    destruct (Z.of_nat (List.length explicit) <? limit)%Z; [| contradiction].
    apply in_map_iff in Hq. destruct Hq as [[q' s] [E Hq]]. simpl in E. subst q'.
    apply In_slice0, In_sort in Hq. rewrite scoreRelatedProblems_collect in Hq.
    apply filter_In in Hq. destruct Hq as [Hq _].
    apply in_map_iff in Hq. destruct Hq as [q' [E Hq]]. injection E as -> _.
    apply filter_In in Hq. destruct Hq as [_ Hp].
    apply negb_true_iff, orb_false_iff in Hp. destruct Hp as [H1 H2].
    apply String.eqb_neq in H1. split; [exact H1 |].
    rewrite <- set_has_In. fold related in H2. congruence. }
  assert (Hfill_nd : NoDup (map uq_slug fill)).
  { unfold fill. destruct (Z.of_nat (List.length explicit) <? limit)%Z; [| constructor].
    rewrite map_map. apply NoDup_map_slice0.
    eapply Permutation_NoDup; [apply Permutation_sym, Permutation_map, sort_perm |].
    rewrite scoreRelatedProblems_collect.
    apply NoDup_map_filter. rewrite map_map. simpl.
    apply NoDup_map_filter, NoDup_values_slugs; [apply NoDup_keys_of_entries |].
    intros k x Hin. now apply deduplicateQuestions_entry in Hin. }
  split.
  - apply NoDup_map_slice0. rewrite map_app. apply NoDup_app.
    + apply NoDup_lookupAll; [exact Hslug | apply set_of_list_spec].
    + exact Hfill_nd.
    + intros k Hk Hk'. apply (In_lookupAll all uq_slug Hslug) in Hk.
      apply in_map_iff in Hk'. destruct Hk' as [q [<- Hq]].
      now apply (Hfill q Hq).
  - intros Hin. apply in_map_iff in Hin. destruct Hin as [q [E Hq]].
    apply In_slice0, in_app_or in Hq. destruct Hq as [Hq | Hq].
    + apply Hself. apply (In_lookupAll all uq_slug Hslug). rewrite <- E.
      now apply in_map.
    + exact (proj1 (Hfill q Hq) E).
Qed.

Lemma not_in_keys (k : string) (ks : list string) :
  existsb (String.eqb k) ks = false -> ~ In k ks.
Proof.
  intros H Hin. assert (E : existsb (String.eqb k) ks = true).
  { apply existsb_exists. exists k. split; [exact Hin | apply String.eqb_refl]. }
  congruence.
Qed.

(* ------------------------------------------------------------------ *)
(** ** The properties, claim by claim *)

(** Claim C1 (the code departs from it).  When the build fails, every
    concurrent caller of [getBuildCache] receives the rejection and
    [buildCache] stays empty; but the assignment [cachePromise = null] is
    skipped, so [cachePromise] keeps the rejected promise: a later call is
    handed that promise, is rejected in turn, and no new build starts. *)
Theorem failed_build_stays_in_cachePromise (n : nat) (src : DataSource) (e : BuildError) :
  1 <= n ->
  buildAggregatedData src = inl e ->
  let st' := finishBuild src 0 (concurrentCalls n init) in
  let st'' := getBuildCache st' in
  outcomes st' = repeat (Rejected e) n
  /\ buildCache st' = None
  /\ cachePromise st' = Some 0
  /\ builds st'' = 1
  /\ outcomes st'' = repeat (Rejected e) (S n).
Proof.
  intros Hn E. destruct n as [|n]; [lia |]. cbv zeta.
  rewrite finishBuild_concurrent, E.
  assert (Ho : forall cs,
    outcomes {| buildCache := None; cachePromise := Some 0; promises := [Rejected e];
                calls := Threw e :: repeat (Forwarded 0) n ++ cs |}
    = Rejected e :: repeat (Rejected e) n
      ++ map (outcome {| buildCache := None; cachePromise := Some 0;
                         promises := [Rejected e]; calls := [] |}) cs).
  { intros cs. unfold outcomes. simpl. f_equal. rewrite map_app. f_equal.
    now apply outcomes_forwarded. }
  split.
  { specialize (Ho []). rewrite !app_nil_r in Ho. exact Ho. }
  split; [reflexivity |]. split; [reflexivity |]. split; [reflexivity |].
  unfold getBuildCache. simpl.
  rewrite (Ho [Forwarded 0]). simpl. f_equal.
  change (Rejected e :: repeat (Rejected e) n) with (repeat (Rejected e) (S n)).
  symmetry. apply repeat_cons.
Qed.

Lemma failed_build_stays_in_cachePromise_witness :
  outcomes (finishBuild Sample.unavailable 0 (concurrentCalls 2 init))
  = repeat (Rejected (SourceUnavailable "questions")) 2
  /\ buildCache (finishBuild Sample.unavailable 0 (concurrentCalls 2 init)) = None
  /\ cachePromise (finishBuild Sample.unavailable 0 (concurrentCalls 2 init)) = Some 0
  /\ builds (getBuildCache (finishBuild Sample.unavailable 0 (concurrentCalls 2 init)))
     = 1
  /\ outcomes (getBuildCache (finishBuild Sample.unavailable 0 (concurrentCalls 2 init)))
     = repeat (Rejected (SourceUnavailable "questions")) 3.
Proof.
  apply (failed_build_stays_in_cachePromise
           2 Sample.unavailable (SourceUnavailable "questions")).
  - lia.
  - reflexivity.
Defined.

(** Claim C2.  For every [n >= 1], [n] calls of [getBuildCache] made on a
    fresh module before the build completes invoke [buildAggregatedData]
    exactly once, and when that build settles all [n] calls settle with its
    one outcome: the same snapshot for all of them when it succeeds. *)
Theorem concurrent_calls_share_one_build (n : nat) (src : DataSource) :
  1 <= n ->
  let st := concurrentCalls n init in
  let st' := finishBuild src 0 st in
  builds st = 1
  /\ promises st = [Pending]
  /\ builds st' = 1
  /\ outcomes st'
     = repeat (match buildAggregatedData src with
               | inr v => Fulfilled v
               | inl e => Rejected e
               end) n
  /\ (forall v, buildAggregatedData src = inr v ->
                outcomes st' = repeat (Fulfilled v) n /\ buildCache st' = Some v).
Proof.
  intros Hn. destruct n as [|n]; [lia |]. cbv zeta.
  rewrite finishBuild_concurrent, concurrentCalls_init.
  split; [reflexivity |]. split; [reflexivity |].
  destruct (buildAggregatedData src) as [e | v] eqn:E.
  - split; [reflexivity |]. split.
    + unfold outcomes. simpl. f_equal. now apply outcomes_forwarded.
    + discriminate.
  - split; [reflexivity |].
    assert (Ho : outcomes {| buildCache := Some v; cachePromise := None;
                             promises := [Fulfilled v];
                             calls := Returned v :: repeat (Forwarded 0) n |}
                 = repeat (Fulfilled v) (S n)).
    { unfold outcomes. simpl. f_equal. now apply outcomes_forwarded. }
    split; [exact Ho |]. intros v' [= <-]. split; [exact Ho | reflexivity].
Qed.

Lemma concurrent_calls_share_one_build_witness :
  builds (concurrentCalls 3 init) = 1
  /\ promises (concurrentCalls 3 init) = [Pending]
  /\ builds (finishBuild Sample.example 0 (concurrentCalls 3 init)) = 1
  /\ outcomes (finishBuild Sample.example 0 (concurrentCalls 3 init))
     = repeat (match buildAggregatedData Sample.example with
               | inr v => Fulfilled v
               | inl e => Rejected e
               end) 3
  /\ (forall v, buildAggregatedData Sample.example = inr v ->
                outcomes (finishBuild Sample.example 0 (concurrentCalls 3 init))
                = repeat (Fulfilled v) 3
                /\ buildCache (finishBuild Sample.example 0 (concurrentCalls 3 init))
                   = Some v).
Proof.
  apply (concurrent_calls_share_one_build 3 Sample.example). lia.
Defined.

(* ------------------------------------------------------------------ *)
(** ** The build over records as they arrive *)

Lemma deref_present {F : Type} (field : option F) :
  field <> None -> exists x, deref field = inr x.
Proof. destruct field as [x|]; [now exists x | congruence]. Qed.

Lemma returnsOrThrows_deref {F : Type} (field : option F) :
  returnsOrThrows (deref field).
Proof. destruct field as [x|]; [left; now exists x | now right]. Qed.

Lemma returnsOrThrows_bind {F G : Type} (c : Result F) (k : F -> Result G)
      (Hc : returnsOrThrows c) (Hk : forall x, returnsOrThrows (k x)) :
  returnsOrThrows (bind c k).
Proof. destruct Hc as [[x ->] | ->]; simpl; [apply Hk | now right]. Qed.

Lemma returnsOrThrows_read {F : Type} (field : option F) :
  returnsOrThrows (_ <- deref field ;; ret tt).
Proof. destruct field; [left; now exists tt | now right]. Qed.

Lemma returnsOrThrows_forEach {E : Type} (body : E -> Result unit) (es : list E)
      (Hbody : forall e, returnsOrThrows (body e)) :
  returnsOrThrows (forEach body es).
Proof.
  induction es as [|e es IH]; simpl; [left; now exists tt |].
  apply returnsOrThrows_bind; [apply Hbody | intros _; exact IH].
Qed.

Lemma returnsOrThrows_filterM {E : Type} (test : E -> Result bool) (es : list E)
      (Htest : forall e, returnsOrThrows (test e)) :
  returnsOrThrows (filterM test es).
Proof.
  induction es as [|e es IH]; simpl; [left; now exists [] |].
  apply returnsOrThrows_bind; [apply Htest | intros keep].
  apply returnsOrThrows_bind; [exact IH | intros kept]. left. eauto.
Qed.

Lemma returnsOrThrows_foldM {E S : Type} (step : S -> E -> Result S) (es : list E)
      (Hstep : forall s e, returnsOrThrows (step s e)) (s : S) :
  returnsOrThrows (foldM step es s).
Proof.
  revert s. induction es as [|e es IH]; simpl; intros s; [left; eauto |].
  apply returnsOrThrows_bind; [apply Hstep | intros s'; apply IH].
Qed.

(** A loop returns when every round of it does. *)
Lemma forEach_returns {E : Type} (body : E -> Result unit) (es : list E)
      (Hbody : forall e, In e es -> body e = inr tt) :
  forEach body es = inr tt.
Proof.
  induction es as [|e es IH]; simpl; [reflexivity |].
  rewrite (Hbody e (or_introl eq_refl)). simpl.
  apply IH. intros e' He'. apply Hbody. now right.
Qed.

(** A loop throws when one round of it does. *)
Lemma forEach_throws {E : Type} (body : E -> Result unit) (es : list E) (e : E)
      (Hbody : forall e', returnsOrThrows (body e'))
      (He : In e es) (Hthrows : body e = inl TypeError) :
  forEach body es = inl TypeError.
Proof.
  induction es as [|e0 es IH]; simpl; [destruct He |].
  destruct He as [-> | He]; [now rewrite Hthrows |].
  destruct (Hbody e0) as [[[] ->] | ->]; simpl; [now apply IH | reflexivity].
Qed.

Lemma read_returns {F : Type} (field : option F) :
  field <> None -> (_ <- deref field ;; ret tt) = inr tt.
Proof. destruct field; [reflexivity | congruence]. Qed.

(** The reads of one field of every question. *)
Lemma reads_return {F : Type} (field : RawQuestion -> option F)
      (questions : list RawQuestion)
      (Hfield : forall q, In q questions -> field q <> None) :
  forEach (fun q => _ <- deref (field q) ;; ret tt) questions = inr tt.
Proof.
  apply forEach_returns. intros q Hq. apply read_returns. now apply Hfield.
Qed.

Lemma reads_throw {F : Type} (field : RawQuestion -> option F)
      (questions : list RawQuestion) (q : RawQuestion)
      (Hq : In q questions) (Hnone : field q = None) :
  forEach (fun q => _ <- deref (field q) ;; ret tt) questions = inl TypeError.
Proof.
  apply (forEach_throws _ _ q); [| exact Hq | now rewrite Hnone].
  intros q'. apply returnsOrThrows_read.
Qed.

Lemma companyIs_true (slug : string) (q : RawQuestion) :
  companyIs slug q = true <-> rq_company q = Some slug.
Proof.
  unfold companyIs. destruct (rq_company q) as [c|].
  - rewrite String.eqb_eq. split; congruence.
  - split; discriminate.
Qed.

(** The test of [aggregateTopics] keeps questions that name a topic. *)
Lemma filterM_someTopicIs (topicName : string) (questions : list RawQuestion)
      (Htopics : forall q, In q questions -> rq_topics q <> None) :
  exists kept,
    filterM (someTopicIs topicName) questions = inr kept
    /\ forall q, In q kept -> In q questions /\ rq_topics q <> Some [].
Proof.
  induction questions as [|q questions IH]; simpl.
  - exists []. split; [reflexivity | intros q []].
  - destruct IH as [kept [E Hkept]]; [intros q' Hq'; apply Htopics; now right |].
    unfold someTopicIs at 1.
    destruct (rq_topics q) as [topics|] eqn:Et;
      [| exfalso; now apply (Htopics q (or_introl eq_refl))].
    simpl. rewrite E. simpl.
    destruct (existsb _ topics) eqn:Ex.
    + exists (q :: kept). split; [reflexivity |].
      intros q' [<- | Hq'].
      * split; [now left |]. rewrite Et. intros [= ->]. discriminate.
      * destruct (Hkept q' Hq'). split; [now right | assumption].
    + exists kept. split; [reflexivity |].
      intros q' Hq'. destruct (Hkept q' Hq'). split; [now right | assumption].
Qed.

Section RawBuild.
Variable companyList : list string.
Variable raw : list RawQuestion.

(** No record of [raw] has a field missing that the build reads. *)
Hypothesis allRead : existsb (Spec.readsUndefined companyList) raw = false.

Lemma company_present (q : RawQuestion) : In q raw -> rq_company q <> None.
Proof.
  intros Hq E. rewrite <- not_true_iff_false in allRead. apply allRead.
  apply existsb_exists. exists q. split; [exact Hq |].
  unfold Spec.readsUndefined. now rewrite E.
Qed.

Lemma topics_present (q : RawQuestion) : In q raw -> rq_topics q <> None.
Proof.
  intros Hq E. rewrite <- not_true_iff_false in allRead. apply allRead.
  apply existsb_exists. exists q. split; [exact Hq |].
  unfold Spec.readsUndefined. rewrite E. now destruct (rq_company q).
Qed.

Lemma difficulty_of_listed (q : RawQuestion) (slug : string) :
  In q raw -> rq_company q = Some slug -> In slug companyList ->
  rq_difficulty q <> None.
Proof.
  intros Hq Ec Hin E. rewrite <- not_true_iff_false in allRead. apply allRead.
  apply existsb_exists. exists q. split; [exact Hq |].
  unfold Spec.readsUndefined. rewrite Ec, E.
  destruct (rq_topics q); [| reflexivity].
  apply orb_true_iff. left. apply existsb_exists. exists slug.
  split; [exact Hin | apply String.eqb_refl].
Qed.

Lemma difficulty_of_bucketed (q : RawQuestion) :
  In q raw -> rq_topics q <> Some [] -> rq_difficulty q <> None.
Proof.
  intros Hq Ht E. rewrite <- not_true_iff_false in allRead. apply allRead.
  apply existsb_exists. exists q. split; [exact Hq |].
  unfold Spec.readsUndefined. rewrite E.
  destruct (rq_company q); [| reflexivity].
  destruct (rq_topics q) as [[|t ts]|]; [congruence | | reflexivity].
  apply orb_true_iff. now right.
Qed.

Lemma readsOfAggregateCompanies_returns :
  readsOfAggregateCompanies raw companyList = inr tt.
Proof.
  unfold readsOfAggregateCompanies. apply forEach_returns. intros slug Hslug.
  cbv zeta. destruct (List.length (filter (companyIs slug) raw) =? 0); [reflexivity |].
  unfold readsOfDifficultyBreakdown, readsOfTopTopics.
  rewrite reads_return; simpl.
  - apply reads_return. intros q Hq. apply filter_In in Hq. now apply topics_present.
  - intros q Hq. apply filter_In in Hq. destruct Hq as [Hq Hc].
    apply companyIs_true in Hc. now apply (difficulty_of_listed q slug).
Qed.

Lemma readsOfAggregateTopics_returns (topicList : list string) :
  readsOfAggregateTopics raw topicList = inr tt.
Proof.
  unfold readsOfAggregateTopics. apply forEach_returns. intros topicName _.
  destruct (filterM_someTopicIs topicName raw topics_present) as [kept [-> Hkept]].
  simpl. destruct (List.length kept =? 0); [reflexivity |].
  unfold readsOfDifficultyBreakdown, readsOfTopCompanies, readsOfRelatedTopics.
  rewrite reads_return; simpl.
  - rewrite reads_return; simpl.
    + apply reads_return. exact topics_present.
    + intros q Hq. apply company_present. now apply Hkept.
  - intros q Hq. destruct (Hkept q Hq). now apply difficulty_of_bucketed.
Qed.

Lemma readsOfFindRelatedQuestions_returns (target : RawQuestion) :
  In target raw -> readsOfFindRelatedQuestions raw target = inr tt.
Proof.
  intros Htarget. unfold readsOfFindRelatedQuestions.
  apply forEach_returns. intros q Hq.
  destruct (String.eqb (rq_slug q) (rq_slug target)); [reflexivity |].
  destruct (deref_present (rq_topics q) (topics_present q Hq)) as [topics ->].
  simpl. apply forEach_returns. intros _ _.
  apply read_returns. now apply topics_present.
Qed.

Lemma readsOfUniqueEntries_returns (rest : list RawQuestion) (seen : JsSet.t) :
  (forall q, In q rest -> In q raw) ->
  readsOfUniqueEntries raw seen rest = inr tt.
Proof.
  revert seen. induction rest as [|q rest IH]; simpl; intros seen Hrest;
    [reflexivity |].
  assert (Hrest' : forall q', In q' rest -> In q' raw)
    by (intros q' Hq'; apply Hrest; now right).
  destruct (JsSet.has (rq_slug q) seen); [now apply IH |].
  rewrite readsOfFindRelatedQuestions_returns by (apply Hrest; now left).
  simpl. unfold readsOfQuestionDescription.
  rewrite read_returns by (apply topics_present, Hrest; now left).
  simpl. now apply IH.
Qed.

Lemma readsOfDeduplicateQuestions_returns :
  readsOfDeduplicateQuestions raw = inr tt.
Proof.
  unfold readsOfDeduplicateQuestions.
  rewrite reads_return by exact company_present. simpl.
  apply readsOfUniqueEntries_returns. auto.
Qed.

(** Every record of a bucket is a record that names a topic. *)
Lemma rawCrossRefBuckets_returns (rest : list RawQuestion)
      (m : JsMap.t (list RawQuestion)) :
  (forall q, In q rest -> In q raw) ->
  (forall r, In r (List.concat (JsMap.values m)) ->
             In r raw /\ rq_topics r <> Some []) ->
  exists buckets,
    foldM (fun m q =>
             topics <- deref (rq_topics q) ;;
             ret (fold_left (fun m topic => JsMap.push (rawCrossRefKey q topic) q m)
                            topics m))
          rest m = inr buckets
    /\ forall r, In r (List.concat (JsMap.values buckets)) ->
                 In r raw /\ rq_topics r <> Some [].
Proof.
  revert m. induction rest as [|q rest IH]; simpl; intros m Hrest Hm; [eauto |].
  assert (Hq : In q raw) by (apply Hrest; now left).
  destruct (rq_topics q) as [topics|] eqn:Et;
    [| exfalso; now apply (topics_present q Hq)].
  simpl. apply IH; [intros q' Hq'; apply Hrest; now right |].
  apply fold_left_ind; [exact Hm |].
  intros m' topic Htopic Hm' r Hr.
  apply In_values_push in Hr. destruct Hr as [Hr | ->]; [now apply Hm' |].
  split; [exact Hq |]. rewrite Et. intros [= ->]. destruct Htopic.
Qed.

Lemma readsOfCrossReferenceIndex_returns :
  readsOfCrossReferenceIndex raw = inr tt.
Proof.
  unfold readsOfCrossReferenceIndex, rawCrossRefBuckets.
  destruct (rawCrossRefBuckets_returns raw JsMap.empty) as [buckets [-> Hbuckets]];
    [auto | intros r [] |].
  simpl. apply forEach_returns. intros [k l] Hin. simpl.
  apply reads_return. intros q Hq.
  destruct (Hbuckets q) as [Hraw Ht]; [| now apply difficulty_of_bucketed].
  apply In_concat_values. eauto.
Qed.

Lemma reads_return_when_all_read (topicList : list string) :
  readsOfAggregateCompanies raw companyList = inr tt
  /\ readsOfAggregateTopics raw topicList = inr tt
  /\ readsOfDeduplicateQuestions raw = inr tt
  /\ readsOfCrossReferenceIndex raw = inr tt
  /\ readsOfTopicQuestionsIndex raw = inr tt.
Proof.
  split; [apply readsOfAggregateCompanies_returns |].
  split; [apply readsOfAggregateTopics_returns |].
  split; [apply readsOfDeduplicateQuestions_returns |].
  split; [apply readsOfCrossReferenceIndex_returns |].
  apply reads_return. exact topics_present.
Qed.

End RawBuild.

(** Each builder returns or throws a [TypeError]. *)
Lemma returnsOrThrows_reads {F : Type} (field : RawQuestion -> option F)
      (questions : list RawQuestion) :
  returnsOrThrows (forEach (fun q => _ <- deref (field q) ;; ret tt) questions).
Proof. apply returnsOrThrows_forEach. intros q. apply returnsOrThrows_read. Qed.

Lemma returnsOrThrows_aggregateCompanies (raw : list RawQuestion)
      (companyList : list string) :
  returnsOrThrows (readsOfAggregateCompanies raw companyList).
Proof.
  apply returnsOrThrows_forEach. intros slug. cbv zeta.
  destruct (List.length (filter (companyIs slug) raw) =? 0); [left; now exists tt |].
  apply returnsOrThrows_bind; [| intros _]; apply returnsOrThrows_reads.
Qed.

Lemma returnsOrThrows_aggregateTopics (raw : list RawQuestion)
      (topicList : list string) :
  returnsOrThrows (readsOfAggregateTopics raw topicList).
Proof.
  apply returnsOrThrows_forEach. intros topicName.
  apply returnsOrThrows_bind.
  - apply returnsOrThrows_filterM. intros q. unfold someTopicIs.
    apply returnsOrThrows_bind; [apply returnsOrThrows_deref |].
    intros topics. left. eauto.
  - intros kept. destruct (List.length kept =? 0); [left; now exists tt |].
    apply returnsOrThrows_bind; [apply returnsOrThrows_reads | intros _].
    apply returnsOrThrows_bind; [| intros _]; apply returnsOrThrows_reads.
Qed.

Lemma returnsOrThrows_uniqueEntries (raw rest : list RawQuestion) (seen : JsSet.t) :
  returnsOrThrows (readsOfUniqueEntries raw seen rest).
Proof.
  revert seen. induction rest as [|q rest IH]; simpl; intros seen;
    [left; now exists tt |].
  destruct (JsSet.has (rq_slug q) seen); [apply IH |].
  apply returnsOrThrows_bind.
  - apply returnsOrThrows_forEach. intros q'.
    destruct (String.eqb (rq_slug q') (rq_slug q)); [left; now exists tt |].
    apply returnsOrThrows_bind; [apply returnsOrThrows_deref | intros topics].
    apply returnsOrThrows_forEach. intros _. apply returnsOrThrows_read.
  - intros _. apply returnsOrThrows_bind; [apply returnsOrThrows_read |].
    intros _. apply IH.
Qed.

Lemma returnsOrThrows_deduplicateQuestions (raw : list RawQuestion) :
  returnsOrThrows (readsOfDeduplicateQuestions raw).
Proof.
  apply returnsOrThrows_bind; [apply returnsOrThrows_reads | intros _].
  apply returnsOrThrows_uniqueEntries.
Qed.

Lemma returnsOrThrows_crossRefBuckets (raw : list RawQuestion) :
  returnsOrThrows (rawCrossRefBuckets raw).
Proof.
  apply returnsOrThrows_foldM. intros m q.
  apply returnsOrThrows_bind; [apply returnsOrThrows_deref |].
  intros topics. left. eauto.
Qed.

Lemma returnsOrThrows_crossReferenceIndex (raw : list RawQuestion) :
  returnsOrThrows (readsOfCrossReferenceIndex raw).
Proof.
  apply returnsOrThrows_bind; [apply returnsOrThrows_crossRefBuckets |].
  intros buckets. apply returnsOrThrows_forEach. intros entry.
  apply returnsOrThrows_reads.
Qed.

(** A record without its company stops the first loop of
    [deduplicateQuestions]. *)
Lemma missing_company_throws (raw : list RawQuestion) (q : RawQuestion) :
  In q raw -> rq_company q = None ->
  readsOfDeduplicateQuestions raw = inl TypeError.
Proof.
  intros Hq E. unfold readsOfDeduplicateQuestions.
  now rewrite (reads_throw rq_company raw q Hq E).
Qed.

(** A record without its topic list stops the loop that fills the buckets. *)
Lemma missing_topics_throws (rest : list RawQuestion) (q : RawQuestion)
      (m : JsMap.t (list RawQuestion)) :
  In q rest -> rq_topics q = None ->
  foldM (fun m q =>
           topics <- deref (rq_topics q) ;;
           ret (fold_left (fun m topic => JsMap.push (rawCrossRefKey q topic) q m)
                          topics m))
        rest m = inl TypeError.
Proof.
  intros Hq E. revert m. induction rest as [|q0 rest IH]; simpl; intros m;
    [destruct Hq |].
  destruct Hq as [-> | Hq]; [now rewrite E |].
  destruct (rq_topics q0); simpl; [now apply IH | reflexivity].
Qed.

(** A record without its difficulty stops the breakdown of its company, when
    the company is listed. *)
Lemma missing_difficulty_of_listed_throws (raw : list RawQuestion)
      (companyList : list string) (q : RawQuestion) (slug : string) :
  In q raw -> rq_company q = Some slug -> In slug companyList ->
  rq_difficulty q = None ->
  readsOfAggregateCompanies raw companyList = inl TypeError.
Proof.
  intros Hq Ec Hslug E. unfold readsOfAggregateCompanies.
  apply (forEach_throws _ _ slug); [| exact Hslug |].
  - intros slug'. cbv zeta.
    destruct (List.length (filter (companyIs slug') raw) =? 0); [left; now exists tt |].
    apply returnsOrThrows_bind; [| intros _]; apply returnsOrThrows_reads.
  - cbv zeta.
    assert (Hin : In q (filter (companyIs slug) raw))
      by (apply filter_In; split; [exact Hq | now apply companyIs_true]).
    destruct (filter (companyIs slug) raw) as [|q0 qs] eqn:Ef; [destruct Hin |].
    simpl List.length. cbv iota beta. simpl Nat.eqb. cbv iota.
    unfold readsOfDifficultyBreakdown.
    now rewrite (reads_throw rq_difficulty (q0 :: qs) q Hin E).
Qed.

Section Bucketed.
Variable q : RawQuestion.

Lemma bucketed_push (k : string) (x : RawQuestion) (m : JsMap.t (list RawQuestion)) :
  bucketed q m -> bucketed q (JsMap.push k x m).
Proof.
  intros [k' [l [Hget Hin]]]. unfold bucketed. destruct (String.eqb k k') eqn:E.
  - apply String.eqb_eq in E. subst k'. exists k, (l ++ [x]). split.
    + now rewrite get_push, String.eqb_refl, Hget.
    + apply in_or_app. now left.
  - exists k', l. split; [| exact Hin]. now rewrite get_push, E.
Qed.

Lemma bucketed_pushed (k : string) (m : JsMap.t (list RawQuestion)) :
  bucketed q (JsMap.push k q m).
Proof.
  unfold bucketed. exists k. rewrite get_push, String.eqb_refl.
  destruct (JsMap.get k m) as [l|]; eexists; (split; [reflexivity |]).
  - apply in_or_app. right. now left.
  - now left.
Qed.

Lemma bucketed_fold (x : RawQuestion) (topics : list string)
      (m : JsMap.t (list RawQuestion)) :
  bucketed q m ->
  bucketed q (fold_left (fun m topic => JsMap.push (rawCrossRefKey x topic) x m) topics m).
Proof.
  intros Hm. apply fold_left_ind; [exact Hm |]. intros m' topic _. apply bucketed_push.
Qed.

(** A record that names a topic is in a bucket. *)
Lemma names_topic_bucketed (rest : list RawQuestion) (m buckets : JsMap.t (list RawQuestion)) :
  foldM (fun m q =>
           topics <- deref (rq_topics q) ;;
           ret (fold_left (fun m topic => JsMap.push (rawCrossRefKey q topic) q m)
                          topics m))
        rest m = inr buckets ->
  bucketed q m \/ (In q rest /\ exists t ts, rq_topics q = Some (t :: ts)) ->
  bucketed q buckets.
Proof.
  revert m. induction rest as [|x rest IH]; simpl; intros m Hfold Hq.
  - injection Hfold as <-. destruct Hq as [Hq | [[] _]]. exact Hq.
  - destruct (rq_topics x) as [topics|] eqn:Et; [| discriminate].
    simpl in Hfold. apply (IH _ Hfold).
    destruct Hq as [Hm | [[-> | Hin] Hts]].
    + left. now apply bucketed_fold.
    + left. destruct Hts as [t [ts Hts]]. rewrite Hts in Et. injection Et as <-.
      simpl. apply bucketed_fold, bucketed_pushed.
    + right. now split.
Qed.

(** A record without its difficulty that names a topic stops the breakdown of
    its bucket, if nothing has stopped the build before. *)
Lemma missing_difficulty_of_bucketed_throws (raw : list RawQuestion) (t : string)
      (ts : list string) :
  In q raw -> rq_topics q = Some (t :: ts) -> rq_difficulty q = None ->
  readsOfCrossReferenceIndex raw = inl TypeError.
Proof.
  intros Hq Et E. unfold readsOfCrossReferenceIndex.
  destruct (returnsOrThrows_crossRefBuckets raw) as [[buckets Hb] | ->];
    [| reflexivity].
  rewrite Hb. simpl.
  destruct (names_topic_bucketed raw JsMap.empty buckets Hb) as [k [l [Hget Hin]]];
    [right; eauto |].
  apply (forEach_throws _ _ (k, l)).
  - intros entry. apply returnsOrThrows_reads.
  - now apply get_Some_In.
  - simpl. unfold readsOfDifficultyBreakdown.
    now apply (reads_throw rq_difficulty l q).
Qed.

End Bucketed.

(** The build throws as soon as one builder does. *)
Lemma build_throws_with_a_builder (raw : list RawQuestion)
      (companyList topicList : list string) (k : Result Published) :
  readsOfAggregateCompanies raw companyList = inl TypeError
  \/ readsOfDeduplicateQuestions raw = inl TypeError
  \/ readsOfCrossReferenceIndex raw = inl TypeError ->
  (_ <- readsOfAggregateCompanies raw companyList ;;
   _ <- readsOfAggregateTopics raw topicList ;;
   _ <- readsOfDeduplicateQuestions raw ;;
   _ <- readsOfCrossReferenceIndex raw ;;
   _ <- readsOfTopicQuestionsIndex raw ;;
   k) = inl TypeError.
Proof.
  intros H.
  destruct (returnsOrThrows_aggregateCompanies raw companyList) as [[[] E1] | E1];
    rewrite E1; simpl; [| reflexivity].
  destruct (returnsOrThrows_aggregateTopics raw topicList) as [[[] E2] | E2];
    rewrite E2; simpl; [| reflexivity].
  destruct (returnsOrThrows_deduplicateQuestions raw) as [[[] E3] | E3];
    rewrite E3; simpl; [| reflexivity].
  destruct (returnsOrThrows_crossReferenceIndex raw) as [[[] E4] | E4];
    rewrite E4; simpl; [| reflexivity].
  destruct H as [H | [H | H]]; congruence.
Qed.

(** A record of which a field is read that is not there stops a builder. *)
Lemma reads_undefined_throws (raw : list RawQuestion) (companyList : list string) :
  existsb (Spec.readsUndefined companyList) raw = true ->
  readsOfAggregateCompanies raw companyList = inl TypeError
  \/ readsOfDeduplicateQuestions raw = inl TypeError
  \/ readsOfCrossReferenceIndex raw = inl TypeError.
Proof.
  intros H. apply existsb_exists in H. destruct H as [q [Hq Hu]].
  unfold Spec.readsUndefined in Hu.
  destruct (rq_company q) as [company|] eqn:Ec;
    [| right; left; now apply (missing_company_throws raw q)].
  destruct (rq_topics q) as [topics|] eqn:Et.
  - destruct (rq_difficulty q) eqn:Ed; [discriminate |].
    apply orb_true_iff in Hu. destruct Hu as [Hu | Hu].
    + left. apply existsb_exists in Hu. destruct Hu as [slug [Hslug Hs]].
      apply String.eqb_eq in Hs. subst slug.
      now apply (missing_difficulty_of_listed_throws raw companyList q company).
    + right. right. destruct topics as [|t ts]; [discriminate |].
      now apply (missing_difficulty_of_bucketed_throws q raw t ts).
  - right. right. unfold readsOfCrossReferenceIndex, rawCrossRefBuckets.
    now rewrite (missing_topics_throws raw q JsMap.empty Hq Et).
Qed.

(** Records that have the three fields. *)
Lemma typed_untyped (q : QuestionWithDetails) : typed (untyped q) = Some q.
Proof. now destruct q. Qed.

Lemma typedRecords_untyped (questions : list QuestionWithDetails) :
  typedRecords (map untyped questions) = Some questions.
Proof.
  induction questions as [|q questions IH]; [reflexivity |].
  cbn [map typedRecords]. now rewrite typed_untyped, IH.
Qed.

Lemma typedRecords_length (raw : list RawQuestion)
      (questions : list QuestionWithDetails) :
  typedRecords raw = Some questions -> List.length questions = List.length raw.
Proof.
  revert questions. induction raw as [|q raw IH]; simpl; intros questions.
  - now intros [= <-].
  - destruct (typed q); [| discriminate].
    destruct (typedRecords raw) as [ts|]; [| discriminate].
    intros [= <-]. simpl. f_equal. now apply IH.
Qed.

Lemma typed_all_read (companyList : list string) (q : RawQuestion)
      (t : QuestionWithDetails) :
  typed q = Some t -> Spec.readsUndefined companyList q = false.
Proof.
  unfold typed, Spec.readsUndefined.
  destruct (rq_difficulty q), (rq_topics q), (rq_company q); try discriminate.
  reflexivity.
Qed.

Lemma typedRecords_all_read (companyList : list string) (raw : list RawQuestion)
      (questions : list QuestionWithDetails) :
  typedRecords raw = Some questions ->
  existsb (Spec.readsUndefined companyList) raw = false.
Proof.
  revert questions. induction raw as [|q raw IH]; simpl; intros questions;
    [reflexivity |].
  destruct (typed q) as [t|] eqn:Et; [| discriminate].
  destruct (typedRecords raw) as [ts|]; [| discriminate].
  intros _. rewrite (typed_all_read companyList q t Et). simpl. now apply (IH ts).
Qed.

Lemma readsUndefined_true (companyList : list string) (q : RawQuestion) :
  Spec.readsUndefined companyList q = true
  <-> rq_company q = None
      \/ rq_topics q = None
      \/ (rq_difficulty q = None
          /\ ((exists company, rq_company q = Some company /\ In company companyList)
              \/ rq_topics q <> Some [])).
Proof.
  unfold Spec.readsUndefined.
  destruct (rq_company q) as [company|]; [| intuition].
  destruct (rq_topics q) as [topics|]; [| intuition].
  destruct (rq_difficulty q) as [difficulty|].
  - split; [discriminate |]. intros [H | [H | [H _]]]; discriminate.
  - rewrite orb_true_iff, negb_true_iff, Nat.eqb_neq, existsb_exists. split.
    + intros [[slug [Hin E]] | Hlen]; right; right; (split; [reflexivity |]).
      * apply String.eqb_eq in E. subst slug. left. eauto.
      * right. intros [= ->]. now apply Hlen.
    + intros [H | [H | [_ [[slug [[= <-] Hin]] | Hne]]]]; try discriminate.
      * left. exists company. split; [exact Hin | apply String.eqb_refl].
      * right. intros Hlen. apply Hne. f_equal. now apply length_zero_iff_nil.
Qed.

(** The build, once the loads have succeeded and no read has failed. *)
Lemma build_returns (src : RawDataSource) (raw : list RawQuestion)
      (companyList topicList : list string) :
  rawGetQuestions src = inr raw ->
  rawGetCompanies src = inr companyList ->
  rawGetTopics src = inr topicList ->
  existsb (Spec.readsUndefined companyList) raw = false ->
  buildFromRaw src
  = match typedRecords raw with
    | Some questions =>
        cache <- buildAggregatedData
                   {| getQuestions := inr questions;
                      getCompanies := inr companyList;
                      getTopics := inr topicList |} ;;
        ret (Snapshot cache)
    | None => ret SnapshotWithUndefined
    end.
Proof.
  intros Hq Hc Ht E. unfold buildFromRaw. rewrite Hq, Hc, Ht. simpl.
  destruct (reads_return_when_all_read companyList raw E topicList)
    as (-> & -> & -> & -> & ->).
  reflexivity.
Qed.




(** Claim C4, as stated, fails on a record whose difficulty is none of the
    three: the company has one record and a breakdown that sums to zero. *)
Lemma breakdown_sum_counterexample :
  ~ Spec.breakdownSumsToCount [Sample.extreme] ["google"].
Proof.
  intros H. specialize (H "google" Sample.googleOfExtreme).
  assert (Hin : In ("google", Sample.googleOfExtreme)
                   (aggregateCompanies [Sample.extreme] ["google"])).
  { vm_compute. left. reflexivity. }
  apply H in Hin. vm_compute in Hin. discriminate.
Qed.

(** Claim C4, amended.  For every raw record set whose difficulties are all
    Easy, Medium or Hard (in any letter case) and every company produced by
    [aggregateCompanies], easy + medium + hard equals the question count of
    the company. *)
Theorem breakdown_sums_to_count_of_counted_difficulties
        (questions : list QuestionWithDetails) (companyList : list string) :
  (forall q, In q questions -> Spec.difficultyCounted (q_difficulty q)) ->
  Spec.breakdownSumsToCount questions companyList.
Proof.
  intros Hdom slug c H. apply aggregateCompanies_entry in H.
  destruct H as (_ & _ & _ & Hcount & _ & Hbd & _).
  rewrite Hbd, Hcount, breakdown_total. f_equal. apply filter_all.
  intros q Hq. apply countedKey_true, Hdom.
  unfold Spec.recordsOf in Hq. apply filter_In in Hq. tauto.
Qed.

Lemma breakdown_sums_to_count_witness :
  Spec.breakdownSumsToCount Sample.twoSum ["google"; "amazon"].
Proof.
  apply (breakdown_sums_to_count_of_counted_difficulties
           Sample.twoSum ["google"; "amazon"]).
  intros q [<- | [<- | []]]; left; reflexivity.
Defined.

(** Claim C5, as stated, fails on a record that lists a topic twice, whether
    the topic of a cross-reference is read by name, by name letter case
    apart, or by slug: the count is two for one record. *)
Lemma cross_ref_count_counterexample :
  ~ Spec.crossRefCountsRecords Spec.byName [Sample.twice]
  /\ ~ Spec.crossRefCountsRecords Spec.byExactName [Sample.twice]
  /\ ~ Spec.crossRefCountsRecords Spec.bySlug [Sample.twice].
Proof.
  assert (Hin : In Sample.arrayOfTwice
                   (Spec.crossRefsOf (buildCrossReferenceIndex [Sample.twice]))).
  { vm_compute. left. reflexivity. }
  repeat split; intros H; apply H in Hin; vm_compute in Hin; discriminate.
Qed.

(** Claim C5, amended.  When no company and no topic of the raw records holds
    a colon, the [questionCount] of every cross-reference of the index is the
    number of topic-list entries, over the raw records of its company, that
    name its topic letter case apart; it is the number of those records
    whenever no record lists a topic twice. *)
Theorem cross_ref_counts_topic_entries (questions : list QuestionWithDetails) :
  (forall q, In q questions -> Spec.wellSeparated q) ->
  (forall r,
      In r (Spec.crossRefsOf (buildCrossReferenceIndex questions)) ->
      cr_questionCount r
      = Spec.topicEntryCount (cr_companySlug r) (cr_topicName r) questions)
  /\ ((forall q, In q questions -> Spec.topicsListedOnce q) ->
      Spec.crossRefCountsRecords Spec.byName questions).
Proof.
  intros Hsep.
  assert (Hentries : forall r,
    In r (Spec.crossRefsOf (buildCrossReferenceIndex questions)) ->
    cr_questionCount r
    = Spec.topicEntryCount (cr_companySlug r) (cr_topicName r) questions).
  { apply crossRef_counts_entries.
    - intros q Hq. exact (proj1 (Hsep q Hq)).
    - intros q t Hq. exact (proj2 (Hsep q Hq) t). }
  split; [exact Hentries |].
  intros Honce r Hr. rewrite (Hentries r Hr).
  now apply entries_are_records.
Qed.

Lemma cross_ref_counts_topic_entries_witness :
  (forall r,
      In r (Spec.crossRefsOf (buildCrossReferenceIndex Sample.twoSum)) ->
      cr_questionCount r
      = Spec.topicEntryCount (cr_companySlug r) (cr_topicName r) Sample.twoSum)
  /\ Spec.crossRefCountsRecords Spec.byName Sample.twoSum.
Proof.
  destruct (cross_ref_counts_topic_entries Sample.twoSum) as [Hentries Hrecords].
  - intros q [<- | [<- | []]]; (split; [reflexivity |]);
      intros t [<- | [<- | []]]; reflexivity.
  - split; [exact Hentries |]. apply Hrecords.
    intros q [<- | [<- | []]]; unfold Spec.topicsListedOnce; simpl;
      repeat constructor; simpl; intuition discriminate.
Defined.

(** Claim C6, as stated, fails: on the snapshot of two companies that ask
    one question, the second of which spells the topic in two ways, the
    candidate has two top-topic entries of the one shared slug and is scored
    29, not the 19 that 10 per shared slug gives. *)
Lemma shared_slug_scoring_counterexample :
  exists cache current candidate,
    buildAggregatedData
      (Sample.source Sample.spelledTwice ["google"; "amazon"] ["Hash Table"])
    = inr cache
    /\ JsMap.get "google" (companies cache) = Some current
    /\ JsMap.get "amazon" (companies cache) = Some candidate
    /\ Spec.sharedSlugs current candidate = ["hash-table"]
    /\ scoreRelatedCompanies current (companies cache) = [(candidate, 29%Z)]
    /\ Spec.claimedScore current candidate = 19%Z
    /\ ~ Spec.scoresPerSharedSlug current (companies cache).
Proof.
  eexists. eexists. eexists.
  split; [reflexivity |]. split; [reflexivity |]. split; [reflexivity |].
  split; [reflexivity |]. split; [reflexivity |]. split; [reflexivity |].
  intros H. specialize (H _ 29%Z (or_introl eq_refl)). discriminate H.
Qed.

(** Claim C6, amended.  For companies whose slugs are keys the tier table
    answers with a number, [getRelatedCompanies] scores every company but
    the current one with 10 per top-topic entry of the candidate whose slug is
    among the top-topic slugs of the current company (the number of shared
    slugs when the top-topic slugs of the candidate are distinct), 5 for the
    same tier, 3 for a numerically lower tier, 3 for a question-count
    difference below 50 and 1 more below 100 (4 in all below 50); it drops the
    scores that are not positive, sorts by score descending and cuts the
    ranking with [slice(0, limit)]: for a limit that is not negative these are
    the first [limit] ranked companies, at most [limit] links; a negative
    limit drops that many from the end of the ranking. *)
Theorem related_companies_scored_ranked_limited
        (current : Company) (all : JsMap.t Company) (limit : Z) :
  ownTierKey (co_slug current) ->
  (forall c, In c (JsMap.values all) -> ownTierKey (co_slug c)) ->
  let sorted := JsArray.sort byScoreDesc (Spec.scoredCandidates current all) in
  let ranked := rankRelatedCompanies current all limit in
  getRelatedCompanies current all limit
  = map (fun cs => companyLink (fst cs)) ranked
  /\ scoreRelatedCompanies current all = Spec.scoredCandidates current all
  /\ ranked = JsArray.slice0 limit sorted
  /\ ((0 <= limit)%Z ->
      ranked = firstn (Z.to_nat limit) sorted
      /\ (Z.of_nat (List.length (getRelatedCompanies current all limit)) <= limit)%Z)
  /\ ((limit < 0)%Z ->
      ranked = firstn (List.length sorted - Z.to_nat (- limit)) sorted)
  /\ Permutation sorted (Spec.scoredCandidates current all)
  /\ (forall cs, In cs ranked ->
        In (fst cs) (JsMap.values all)
        /\ co_slug (fst cs) <> co_slug current
        /\ snd cs = Spec.companyScore current (fst cs)
        /\ (0 < snd cs)%Z)
  /\ Spec.scoresDescending ranked
  /\ (forall d, (d < 50)%Z -> Spec.sizeBonus d = 4%Z)
  /\ (forall candidate,
        NoDup (map tc_slug (co_topTopics candidate)) ->
        Spec.sharedTopTopics current candidate
        = List.length (Spec.sharedSlugs current candidate)).
Proof.
  intros _ _. cbv zeta. unfold getRelatedCompanies, rankRelatedCompanies.
  rewrite scoreRelatedCompanies_spec.
  set (sorted := JsArray.sort byScoreDesc (Spec.scoredCandidates current all)).
  split; [reflexivity |]. split; [reflexivity |]. split; [reflexivity |].
  split.
  { intros Hlimit. unfold JsArray.slice0.
    destruct (limit <? 0)%Z eqn:E; [apply Z.ltb_lt in E; lia |].
    split; [reflexivity |].
    rewrite length_map. pose proof (firstn_le_length (Z.to_nat limit) sorted). lia. }
  split.
  { intros Hlimit. unfold JsArray.slice0.
    destruct (limit <? 0)%Z eqn:E; [| apply Z.ltb_ge in E; lia].
    f_equal. lia. }
  split; [apply sort_perm |]. split.
  { intros [c s] H.
    assert (Hin : In (c, s) (Spec.scoredCandidates current all)).
    { apply (In_sort byScoreDesc). exact (In_slice0 _ _ _ H). }
    unfold Spec.scoredCandidates in Hin.
    apply filter_In in Hin. destruct Hin as [Hin Hpos].
    apply in_map_iff in Hin. destruct Hin as [c' [E Hc']]. injection E as -> <-.
    apply filter_In in Hc'. destruct Hc' as [Hall Hne]. simpl.
    repeat split; try assumption.
    - apply negb_true_iff, String.eqb_neq in Hne. exact Hne.
    - simpl in Hpos. now apply Z.ltb_lt. }
  split.
  { destruct (slice0_prefix limit sorted) as [n ->].
    apply StronglySorted_firstn, sort_byScoreDesc. }
  split.
  { intros d Hd. unfold Spec.sizeBonus.
    destruct (d <? 50)%Z eqn:E1; [| apply Z.ltb_ge in E1; lia].
    destruct (d <? 100)%Z eqn:E2; [reflexivity | apply Z.ltb_ge in E2; lia]. }
  intros candidate Hnd. unfold Spec.sharedTopTopics, Spec.sharedSlugs.
  rewrite (nodup_fixed_point string_dec Hnd). clear Hnd.
  induction (co_topTopics candidate) as [|t ts IH]; simpl; [reflexivity |].
  rewrite existsb_of_map.
  destruct (existsb (fun u => String.eqb (tc_slug t) (tc_slug u))
                    (co_topTopics current)); simpl; now rewrite IH.
Qed.

Lemma related_companies_scored_ranked_limited_witness :
  getRelatedCompanies Sample.googleOfSpelledTwice Sample.companiesOfSpelledTwice 6
  = [companyLink Sample.amazonOfSpelledTwice]
  /\ scoreRelatedCompanies Sample.googleOfSpelledTwice Sample.companiesOfSpelledTwice
     = [(Sample.amazonOfSpelledTwice, 29%Z)]
  /\ Spec.companyScore Sample.googleOfSpelledTwice Sample.amazonOfSpelledTwice = 29%Z
  /\ Spec.sharedTopTopics Sample.googleOfSpelledTwice Sample.amazonOfSpelledTwice = 2.
Proof.
  destruct (related_companies_scored_ranked_limited
              Sample.googleOfSpelledTwice Sample.companiesOfSpelledTwice 6)
    as (Hlinks & Hscored & _ & _ & _ & _ & Hscore & _).
  - split; vm_compute; discriminate.
  - intros c [<- | [<- | []]]; split; vm_compute; discriminate.
  - split; [rewrite Hlinks; reflexivity |].
    split; [rewrite Hscored; reflexivity |].
    split; [| reflexivity].
    symmetry. apply (Hscore (Sample.amazonOfSpelledTwice, 29%Z)).
    left. reflexivity.
Defined.

(** Claim C7 (the code departs from it).  A record that lists a topic under
    two spellings with one slug puts the slug of the topic into its own list
    of related topics, and [getRelatedTopics] then links the topic to itself. *)
Theorem related_topics_link_to_the_topic_itself :
  exists cache topic,
    buildAggregatedData (Sample.source [Sample.twoSpellings] ["google"] ["Hash Table"])
    = inr cache
    /\ JsMap.get "hash-table" (topics cache) = Some topic
    /\ In (getCanonicalUrl PkTopic [("slug", tp_slug topic)])
          (map href (getRelatedTopics topic (topics cache) 6)).
Proof.
  eexists. eexists. split; [reflexivity |]. split; [reflexivity |].
  vm_compute. left. reflexivity.
Qed.



(** Claim C9.  For a slug that no map of the snapshot knows, the
    single-entity accessors return the absent result and the list accessors
    the empty list; none of them has an error result. *)
Theorem accessors_absent_slug (cache : BuildCache) (slug : string) :
  Spec.slugAbsent cache slug ->
  getCompanyBySlug cache slug = None
  /\ getTopicBySlug cache slug = None
  /\ getQuestionBySlug cache slug = None
  /\ getQuestionsByCompany cache slug = []
  /\ getQuestionsByTopic cache slug = []
  /\ getCompanyTopicCrossRefs cache slug = []
  /\ getTopicCompanyCrossRefs cache slug = []
  /\ getQuestionCompanies cache slug = [].
Proof.
  unfold Spec.slugAbsent. rewrite <- !get_None.
  unfold getCompanyBySlug, getTopicBySlug, getQuestionBySlug, getQuestionsByCompany,
    getQuestionsByTopic, getCompanyTopicCrossRefs, getTopicCompanyCrossRefs,
    getQuestionCompanies.
  intros (H1 & H2 & H3 & H4 & H5 & H6 & H7 & H8).
  rewrite H1, H2, H3, H4, H5, H6, H7, H8. repeat split.
Qed.

Lemma accessors_absent_slug_witness :
  getCompanyBySlug Sample.builtExample "netflix" = None
  /\ getTopicBySlug Sample.builtExample "netflix" = None
  /\ getQuestionBySlug Sample.builtExample "netflix" = None
  /\ getQuestionsByCompany Sample.builtExample "netflix" = []
  /\ getQuestionsByTopic Sample.builtExample "netflix" = []
  /\ getCompanyTopicCrossRefs Sample.builtExample "netflix" = []
  /\ getTopicCompanyCrossRefs Sample.builtExample "netflix" = []
  /\ getQuestionCompanies Sample.builtExample "netflix" = [].
Proof.
  apply (accessors_absent_slug Sample.builtExample "netflix").
  repeat split; apply not_in_keys; reflexivity.
Defined.

(** Claim C10.  For every company produced by [aggregateCompanies], the
    unique-question count (the number of distinct slugs among its records) is
    at most its question count (the number of its records). *)
Theorem unique_count_at_most_question_count
        (questions : list QuestionWithDetails) (companyList : list string)
        (slug : string) (c : Company) :
  In (slug, c) (aggregateCompanies questions companyList) ->
  co_questionCount c = List.length (Spec.recordsOf slug questions)
  /\ co_uniqueQuestionCount c
     = List.length (nodup string_dec (map q_slug (Spec.recordsOf slug questions)))
  /\ co_uniqueQuestionCount c <= co_questionCount c.
Proof.
  intros H. apply aggregateCompanies_entry in H.
  destruct H as (_ & _ & _ & Hcount & Huniq & _).
  rewrite Hcount, Huniq. split; [reflexivity |]. split.
  - apply set_size_distinct.
  - rewrite <- (length_map q_slug). apply set_size_le.
Qed.

Lemma unique_count_at_most_question_count_witness :
  co_questionCount Sample.googleOfExample = 1
  /\ co_uniqueQuestionCount Sample.googleOfExample = 1
  /\ co_uniqueQuestionCount Sample.googleOfExample <= co_questionCount Sample.googleOfExample.
Proof.
  apply (unique_count_at_most_question_count
           Sample.twoSum ["google"; "amazon"]
           "google" Sample.googleOfExample).
  vm_compute. left. reflexivity.
Defined.

(* ================================================================== *)
(** * Further proofs: the rest of the aggregation layer, the page links, the
      schemas and the sitemap *)

(* ------------------------------------------------------------------ *)
(** ** Runs of the cache controller *)

Section CacheRuns.
Import CacheCtl CacheRun.

Lemma coherent_getBuildCache (st : State) : coherent st -> coherent (getBuildCache st).
Proof.
  unfold coherent, getBuildCache. destruct st as [bc cp ps cs]. simpl.
  destruct ps as [|s [|s' ps]]; [| | easy].
  - intros (-> & -> & ->). simpl. split; [reflexivity |].
    repeat constructor.
  - destruct bc as [v|]; simpl.
    + intros [-> Hcs]. split; [reflexivity |].
      apply Forall_app. split; [exact Hcs | repeat constructor].
    + intros [-> Hcs]. simpl. split; [reflexivity |].
      apply Forall_app. split; [exact Hcs | repeat constructor].
Qed.

Lemma coherent_settle (p : nat) (o : Result BuildCache) (st : State) :
  coherent st -> coherent (settle p o st).
Proof.
  unfold coherent, settle. destruct st as [bc cp ps cs]. simpl.
  destruct ps as [|s [|s' ps]]; [| | easy].
  - destruct p; simpl; tauto.
  - destruct p as [|p]; simpl; [| destruct p; simpl; tauto].
    destruct s; simpl; try tauto.
    destruct bc as [v|]; [intros [[=] _] |].
    intros [Hcp Hcs]. split; [exact Hcp |].
    eapply Forall_impl; [| exact Hcs]. intros [v|q|q|e]; simpl; congruence.
Qed.

Lemma resumeFrames_agree s cs bc cp :
  Forall (callAgrees [s]) cs ->
  let '(cs', bc', cp') := resumeFrames [s] cs bc cp in
  Forall (callAgrees [s]) cs'
  /\ List.length cs' = List.length cs
  /\ ((bc', cp') = (bc, cp) \/ exists v, s = Fulfilled v /\ bc' = Some v /\ cp' = None).
Proof.
  revert bc cp. induction cs as [|c cs IH]; intros bc cp Hcs; simpl.
  - repeat split; [constructor | now left].
  - inversion Hcs as [|? ? Hc Hcs']; subst.
    destruct c as [v|q|q|e]; simpl.
    + specialize (IH bc cp Hcs').
      destruct (resumeFrames [s] cs bc cp) as [[cs' bc'] cp'].
      destruct IH as (H1 & H2 & H3). repeat split; [now constructor | simpl; lia | exact H3].
    + specialize (IH bc cp Hcs').
      destruct (resumeFrames [s] cs bc cp) as [[cs' bc'] cp'].
      destruct IH as (H1 & H2 & H3). repeat split; [now constructor | simpl; lia | exact H3].
    + simpl in Hc. subst q. simpl. destruct s as [|v|e].
      * specialize (IH bc cp Hcs').
        destruct (resumeFrames [Pending] cs bc cp) as [[cs' bc'] cp'].
        destruct IH as (H1 & H2 & H3).
        repeat split; [constructor; [reflexivity | exact H1] | simpl; lia | exact H3].
      * specialize (IH (Some v) None Hcs').
        destruct (resumeFrames [Fulfilled v] cs (Some v) None) as [[cs' bc'] cp'].
        destruct IH as (H1 & H2 & H3).
        repeat split; [constructor; [reflexivity | exact H1] | simpl; lia |].
        right. exists v. destruct H3 as [[= -> ->] | (v' & [= <-] & -> & ->)]; auto.
      * specialize (IH bc cp Hcs').
        destruct (resumeFrames [Rejected e] cs bc cp) as [[cs' bc'] cp'].
        destruct IH as (H1 & H2 & H3).
        repeat split; [constructor; [reflexivity | exact H1] | simpl; lia | exact H3].
    + specialize (IH bc cp Hcs').
      destruct (resumeFrames [s] cs bc cp) as [[cs' bc'] cp'].
      destruct IH as (H1 & H2 & H3). repeat split; [now constructor | simpl; lia | exact H3].
Qed.

Lemma coherent_resume (st : State) : coherent st -> coherent (resume st).
Proof.
  unfold coherent, resume. destruct st as [bc cp ps cs]. simpl.
  destruct ps as [|s [|s' ps]]; [| | easy].
  - intros (-> & -> & ->). simpl. auto.
  - intros [Hbc Hcs]. pose proof (resumeFrames_agree s cs bc cp Hcs) as H.
    destruct (resumeFrames [s] cs bc cp) as [[cs' bc'] cp']. simpl.
    destruct H as (H1 & _ & [[= -> ->] | (v & -> & -> & ->)]); auto.
Qed.

Lemma coherent_run (events : list Event) (st : State) :
  coherent st -> coherent (run events st).
Proof.
  unfold run. revert st. induction events as [|ev events IH]; simpl; intros st H.
  - exact H.
  - apply IH. destruct ev; simpl;
      [apply coherent_getBuildCache | apply coherent_settle | apply coherent_resume];
      exact H.
Qed.

Lemma coherent_init : coherent init.
Proof. unfold coherent, init. simpl. auto. Qed.

Lemma coherent_outcome (st : State) (c : Call) :
  coherent st -> In c (calls st) ->
  outcome st c = Pending \/ outcome st c = nth 0 (promises st) Pending.
Proof.
  unfold coherent. destruct st as [bc cp ps cs]. simpl.
  destruct ps as [|s [|s' ps]]; [| | easy].
  - intros (_ & _ & ->) [].
  - intros [_ Hcs] Hin. rewrite Forall_forall in Hcs. specialize (Hcs c Hin).
    destruct c as [v|q|q|e]; simpl in *.
    + injection Hcs as ->. now right.
    + subst q. now right.
    + now left.
    + injection Hcs as ->. now right.
Qed.
End CacheRuns.

(* ------------------------------------------------------------------ *)
(** ** Slugs, tiers and canonical URLs *)

Lemma is_space_lower_char (c : ascii) :
  Str.is_space (Str.lower_char c) = Str.is_space c.
Proof. destruct c as [[] [] [] [] [] [] [] []]; reflexivity. Qed.

Lemma hyphenate_from_lower (prev : bool) (s : string) :
  Str.hyphenate_from prev (Str.toLowerCase s)
  = Str.toLowerCase (Str.hyphenate_from prev s).
Proof.
  revert prev. induction s as [|c s IH]; intros prev; simpl; [reflexivity |].
  rewrite is_space_lower_char. destruct (Str.is_space c).
  - destruct prev; simpl; now rewrite IH.
  - simpl. now rewrite IH.
Qed.

Lemma hyphenate_from_spaceFree (prev : bool) (s : string) :
  spaceFree (Str.hyphenate_from prev s).
Proof.
  unfold spaceFree. revert prev. induction s as [|c s IH]; intros prev; simpl;
    [reflexivity |].
  destruct (Str.is_space c) eqn:E.
  - destruct prev; [apply IH |]. simpl. apply IH.
  - simpl. rewrite E. apply IH.
Qed.

Lemma hyphenate_from_fixed (prev : bool) (s : string) :
  spaceFree s -> Str.hyphenate_from prev s = s.
Proof.
  unfold spaceFree. revert prev. induction s as [|c s IH]; intros prev; simpl;
    [reflexivity |].
  intros H. apply orb_false_iff in H. destruct H as [Hc Hs].
  rewrite Hc. f_equal. now apply IH.
Qed.

Lemma toSlug_spaceFree (name : string) : spaceFree (toSlug name).
Proof. apply hyphenate_from_spaceFree. Qed.

Lemma toSlug_idempotent (name : string) : toSlug (toSlug name) = toSlug name.
Proof.
  unfold toSlug, Str.hyphenate.
  rewrite <- hyphenate_from_lower, toLowerCase_idem.
  apply hyphenate_from_fixed, hyphenate_from_spaceFree.
Qed.

Lemma toSlug_lowercase (name : string) :
  Str.toLowerCase (toSlug name) = toSlug name.
Proof.
  unfold toSlug, Str.hyphenate.
  now rewrite <- hyphenate_from_lower, toLowerCase_idem.
Qed.

Lemma substitution_dollarFree (matched before after value : string) :
  dollarFree value -> Str.substitution matched before after value = value.
Proof.
  unfold dollarFree. induction value as [|c value IH]; [reflexivity |].
  cbn [list_ascii_of_string existsb]. intros H.
  apply orb_false_iff in H. destruct H as [Hc Hv].
  apply Ascii.eqb_neq in Hc.
  destruct c as [[] [] [] [] [] [] [] []];
    try (simpl; rewrite (IH Hv); reflexivity).
  now contradiction Hc.
Qed.

(* ------------------------------------------------------------------ *)
(** ** Maps made by conditional insertion *)

Lemma set_new_key {V : Type} (k : string) (v : V) (m : JsMap.t V) :
  ~ In k (JsMap.keys m) -> JsMap.set k v m = m ++ [(k, v)].
Proof.
  induction m as [|[k' v'] m IH]; simpl; intros Hk; [reflexivity |].
  destruct (String.eqb k k') eqn:E.
  - apply String.eqb_eq in E. subst. exfalso. apply Hk. now left.
  - f_equal. apply IH. tauto.
Qed.

(** [new Map(entries)] keeps entries with distinct keys as they are. *)
Lemma of_entries_distinct {V : Type} (es : list (string * V)) :
  NoDup (JsMap.keys es) -> JsMap.of_entries es = es.
Proof.
  unfold JsMap.of_entries.
  assert (G : forall acc,
            NoDup (JsMap.keys (acc ++ es)) ->
            fold_left (fun m e => JsMap.set (fst e) (snd e) m) es acc = acc ++ es).
  { induction es as [|[k v] es IH]; simpl; intros acc Hnd; [now rewrite app_nil_r |].
    assert (Hk : ~ In k (JsMap.keys acc)).
    { unfold JsMap.keys in *. rewrite map_app in Hnd. simpl in Hnd.
      apply NoDup_remove_2 in Hnd. intros Hin. apply Hnd, in_or_app. now left. }
    rewrite (set_new_key k v acc Hk), IH; rewrite <- app_assoc; [reflexivity | exact Hnd]. }
  intros Hnd. apply (G []). exact Hnd.
Qed.

Lemma NoDup_keys_sort {V : Type} (cmp : string * V -> string * V -> Z) (m : JsMap.t V) :
  NoDup (JsMap.keys m) -> NoDup (JsMap.keys (JsArray.sort cmp m)).
Proof.
  intros H. eapply Permutation_NoDup; [| exact H].
  apply Permutation_sym, Permutation_map, sort_perm.
Qed.

(** A map sorted and rebuilt is the sorted list of its entries. *)
Lemma of_entries_sort {V : Type} (cmp : string * V -> string * V -> Z) (m : JsMap.t V) :
  NoDup (JsMap.keys m) -> JsMap.of_entries (JsArray.sort cmp m) = JsArray.sort cmp m.
Proof. intros H. apply of_entries_distinct, NoDup_keys_sort, H. Qed.

Lemma In_keys_sort {V : Type} (cmp : string * V -> string * V -> Z) (m : JsMap.t V) k :
  In k (JsMap.keys (JsArray.sort cmp m)) <-> In k (JsMap.keys m).
Proof.
  split; apply Permutation_in; [| apply Permutation_sym];
    apply Permutation_map, sort_perm.
Qed.

Section ConditionalSet.
Context {X V : Type} (skip : X -> bool) (key : X -> string) (val : X -> V).

Let insertAll (xs : list X) (acc : JsMap.t V) : JsMap.t V :=
  fold_left (fun m x => if skip x then m else JsMap.set (key x) (val x) m) xs acc.

Lemma NoDup_keys_insertAll (xs : list X) (acc : JsMap.t V) :
  NoDup (JsMap.keys acc) -> NoDup (JsMap.keys (insertAll xs acc)).
Proof.
  intros H. unfold insertAll. apply fold_left_ind; [exact H |].
  intros m x _ Hm. destruct (skip x); [exact Hm | now apply NoDup_keys_set].
Qed.

Lemma In_keys_set (k k' : string) (v : V) (m : JsMap.t V) :
  In k' (JsMap.keys (JsMap.set k v m)) <-> k' = k \/ In k' (JsMap.keys m).
Proof.
  rewrite keys_set. unfold JsMap.has. destruct (JsMap.get k m) as [v0|] eqn:E.
  - split; [tauto |]. intros [-> | H]; [| exact H].
    apply get_Some_In in E. change k with (fst (k, v0)). now apply in_map.
  - rewrite in_app_iff. simpl. intuition.
Qed.

Lemma In_keys_insertAll (xs : list X) (acc : JsMap.t V) (k : string) :
  In k (JsMap.keys (insertAll xs acc))
  <-> In k (JsMap.keys acc) \/ exists x, In x xs /\ skip x = false /\ key x = k.
Proof.
  unfold insertAll. revert acc. induction xs as [|x xs IH]; simpl; intros acc.
  - split; [tauto | intros [H | (x & [] & _)]; exact H].
  - rewrite IH. destruct (skip x) eqn:E.
    + split; (intros [H | (y & Hy & Hs & Hk)]; [now left | right]).
      * exists y. auto.
      * destruct Hy as [<- | Hy]; [congruence | exists y; auto].
    + rewrite In_keys_set. split.
      * intros [[-> | H] | (y & Hy & Hs & Hk)]; [right | now left | right].
        -- exists x. auto.
        -- exists y. auto.
      * intros [H | (y & [<- | Hy] & Hs & Hk)]; [left; now right | left; now left |].
        right. exists y. auto.
Qed.
End ConditionalSet.

(* ------------------------------------------------------------------ *)
(** ** The company map *)

Lemma companyEntryOrder_before (a b : string * Company) :
  (companyEntryOrder a b <= 0)%Z -> Order.companyBefore a b.
Proof.
  unfold companyEntryOrder, Order.companyBefore.
  destruct (getCompanyTier (fst a) - getCompanyTier (fst b) =? 0)%Z eqn:E; simpl.
  - apply Z.eqb_eq in E. intros H. right. split; lia.
  - apply Z.eqb_neq in E. intros H. left. lia.
Qed.

Lemma companyEntryOrder_after (a b : string * Company) :
  (0 < companyEntryOrder a b)%Z -> Order.companyBefore b a.
Proof.
  unfold companyEntryOrder, Order.companyBefore.
  destruct (getCompanyTier (fst a) - getCompanyTier (fst b) =? 0)%Z eqn:E; simpl.
  - apply Z.eqb_eq in E. intros H. right. split; lia.
  - apply Z.eqb_neq in E. intros H. left. lia.
Qed.

Lemma companyBefore_trans (a b c : string * Company) :
  Order.companyBefore a b -> Order.companyBefore b c -> Order.companyBefore a c.
Proof. unfold Order.companyBefore. intros [H | [H H']] [G | [G G']]; [left | left | left | right; split]; lia. Qed.

Lemma recordsOf_nonempty (slug : string) (questions : list QuestionWithDetails) :
  (List.length (Spec.recordsOf slug questions) =? 0) = false
  <-> Spec.recordsOf slug questions <> [].
Proof.
  destruct (Spec.recordsOf slug questions); simpl; split; congruence.
Qed.

Lemma aggregateCompanies_sorted_fold (questions : list QuestionWithDetails)
      (companyList : list string) :
  exists m,
    aggregateCompanies questions companyList = JsArray.sort companyEntryOrder m
    /\ NoDup (JsMap.keys m)
    /\ forall slug, In slug (JsMap.keys m)
                    <-> In slug companyList /\ Spec.recordsOf slug questions <> [].
Proof.
  unfold aggregateCompanies.
  set (skip := fun slug : string =>
                 List.length (filter (fun q => String.eqb (q_company q) slug) questions) =? 0).
  match goal with
  | |- context [JsMap.of_entries (JsArray.sort _ ?m)] => set (m0 := m)
  end.
  assert (Hnd : NoDup (JsMap.keys m0)).
  { apply (NoDup_keys_insertAll skip (fun s => s)). constructor. }
  exists m0. split; [now apply of_entries_sort |]. split; [exact Hnd |].
  intros slug. unfold m0.
  etransitivity; [apply (In_keys_insertAll skip (fun s => s)) |]. simpl. split.
  - intros [[] | (x & Hx & Hs & <-)]. split; [exact Hx |].
    now apply recordsOf_nonempty.
  - intros [Hin Hne]. right. exists slug. repeat split; [exact Hin |].
    now apply recordsOf_nonempty.
Qed.

(* ------------------------------------------------------------------ *)
(** ** The topic map *)

Lemma topicEntryOrder_sorted (m : JsMap.t Topic) :
  StronglySorted Order.topicBefore (JsArray.sort topicEntryOrder m).
Proof.
  apply sort_strongly_sorted; unfold topicEntryOrder, Order.topicBefore; intros; lia.
Qed.

Lemma aggregateTopics_sorted_fold (questions : list QuestionWithDetails)
      (topicList : list string) :
  exists m,
    aggregateTopics questions topicList = JsArray.sort topicEntryOrder m
    /\ NoDup (JsMap.keys m)
    /\ forall slug,
         In slug (JsMap.keys m)
         <-> exists name,
               In name topicList /\ toSlug name = slug
               /\ filter (hasTopicLower (Str.toLowerCase name)) questions <> [].
Proof.
  unfold aggregateTopics.
  set (skip := fun name : string =>
                 List.length (filter (hasTopicLower (Str.toLowerCase name)) questions) =? 0).
  match goal with
  | |- context [JsMap.of_entries (JsArray.sort _ ?m)] => set (m0 := m)
  end.
  assert (Hnd : NoDup (JsMap.keys m0)).
  { apply (NoDup_keys_insertAll skip toSlug). constructor. }
  exists m0. split; [now apply of_entries_sort |]. split; [exact Hnd |].
  intros slug. unfold m0.
  etransitivity; [apply (In_keys_insertAll skip toSlug) |]. simpl.
  assert (Hskip : forall name,
            skip name = false
            <-> filter (hasTopicLower (Str.toLowerCase name)) questions <> []).
  { intros name. unfold skip.
    destruct (filter (hasTopicLower (Str.toLowerCase name)) questions); simpl;
      split; congruence. }
  split.
  - intros [[] | (x & Hx & Hs & Hk)]. exists x. rewrite <- Hskip. auto.
  - intros (x & Hx & Hk & Hne). right. exists x. rewrite Hskip. auto.
Qed.

Lemma aggregateTopics_entry_counts (questions : list QuestionWithDetails)
      (topicList : list string) (slug : string) (t : Topic) :
  In (slug, t) (aggregateTopics questions topicList) ->
  In (tp_name t) topicList
  /\ slug = toSlug (tp_name t)
  /\ tp_questionCount t
     = List.length (filter (hasTopicLower (Str.toLowerCase (tp_name t))) questions)
  /\ 0 < tp_questionCount t
  /\ tp_difficultyBreakdown t
     = calculateDifficultyBreakdown
         (filter (hasTopicLower (Str.toLowerCase (tp_name t))) questions)
  /\ tp_topCompanies t
     = calculateTopCompanies
         (filter (hasTopicLower (Str.toLowerCase (tp_name t))) questions) 10
  /\ tp_relatedTopics t = calculateRelatedTopics questions (tp_name t) 5.
Proof.
  unfold aggregateTopics. intros H.
  apply In_of_entries in H. apply In_sort in H. revert H.
  apply (fold_left_ind (fun m => In (slug, t) m -> _)); simpl; [tauto |].
  intros m name Hname IH.
  destruct (List.length (filter (hasTopicLower (Str.toLowerCase name)) questions) =? 0)
    eqn:E; [exact IH |].
  intros H. apply In_set in H. destruct H as [H | H]; [| now apply IH].
  injection H as -> ->. simpl. repeat split; try reflexivity; try assumption.
  apply Nat.eqb_neq in E. lia.
Qed.

(* ------------------------------------------------------------------ *)
(** ** Maps where the first entry of a key wins *)

Lemma has_keys {V : Type} (k : string) (m : JsMap.t V) :
  JsMap.has k m = JsSet.has k (JsMap.keys m).
Proof.
  unfold JsMap.has. destruct (JsMap.get k m) as [v|] eqn:E.
  - symmetry. apply set_has_In. apply get_Some_In in E.
    change k with (fst (k, v)). now apply in_map.
  - apply get_None in E. destruct (JsSet.has k (JsMap.keys m)) eqn:E'; [| reflexivity].
    apply set_has_In in E'. contradiction.
Qed.

Section FirstWins.
Context {X V : Type} (key : X -> string) (val : X -> V).

Let insertNew (xs : list X) (acc : JsMap.t V) : JsMap.t V :=
  fold_left (fun m x => if JsMap.has (key x) m then m else JsMap.set (key x) (val x) m)
            xs acc.

Lemma keys_insertNew (xs : list X) (acc : JsMap.t V) :
  JsMap.keys (insertNew xs acc)
  = fold_left (fun s k => JsSet.add k s) (map key xs) (JsMap.keys acc).
Proof.
  unfold insertNew. revert acc. induction xs as [|x xs IH]; simpl; intros acc;
    [reflexivity |].
  rewrite IH. f_equal. unfold JsSet.add. rewrite <- has_keys.
  destruct (JsMap.has (key x) acc) eqn:E; [reflexivity |].
  now rewrite keys_set, E.
Qed.

Lemma get_insertNew (xs : list X) (acc : JsMap.t V) (k : string) :
  JsMap.get k (insertNew xs acc)
  = match JsMap.get k acc with
    | Some v => Some v
    | None => option_map val (find (fun x => String.eqb (key x) k) xs)
    end.
Proof.
  unfold insertNew. revert acc. induction xs as [|x xs IH]; simpl; intros acc.
  - now destruct (JsMap.get k acc).
  - rewrite IH. unfold JsMap.has.
    destruct (String.eqb (key x) k) eqn:E.
    + apply String.eqb_eq in E. subst k.
      destruct (JsMap.get (key x) acc) eqn:G; [now rewrite G |].
      now rewrite get_set_same.
    + apply String.eqb_neq in E.
      destruct (JsMap.get (key x) acc) eqn:G; [reflexivity |].
      rewrite get_set_other by congruence. reflexivity.
Qed.

End FirstWins.

(* ------------------------------------------------------------------ *)
(** ** The question map *)

Lemma deduplicateQuestions_sorted_fold (questions : list QuestionWithDetails) :
  exists m,
    deduplicateQuestions questions = JsArray.sort questionEntryOrder m
    /\ JsMap.keys m = JsSet.of_list (map q_slug questions)
    /\ forall slug uq,
         In (slug, uq) m ->
         exists q,
           find (fun q => String.eqb (q_slug q) slug) questions = Some q
           /\ representedBy uq q
           /\ uq_relatedQuestions uq = findRelatedQuestions questions q 5.
Proof.
  unfold deduplicateQuestions.
  match goal with
  | |- context [JsMap.of_entries (JsArray.sort _ ?m)] => set (m0 := m)
  end.
  assert (Hkeys : JsMap.keys m0 = JsSet.of_list (map q_slug questions)).
  { unfold m0. apply (keys_insertNew q_slug). }
  assert (Hnd : NoDup (JsMap.keys m0)).
  { rewrite Hkeys. apply set_of_list_spec. }
  exists m0. split; [now apply of_entries_sort |]. split; [exact Hkeys |].
  intros slug uq Hin. apply (In_get _ _ _ Hnd) in Hin.
  eassert (Hget : JsMap.get slug m0 = _).
  { unfold m0. apply (get_insertNew q_slug). }
  rewrite Hget in Hin. simpl in Hin.
  destruct (find (fun q => String.eqb (q_slug q) slug) questions) as [q|];
    [| discriminate].
  simpl in Hin. injection Hin as <-. exists q. split; [reflexivity |].
  unfold representedBy. simpl. repeat split.
Qed.

Lemma questionEntryOrder_sorted (m : JsMap.t UniqueQuestion) :
  StronglySorted Order.questionBefore (JsArray.sort questionEntryOrder m).
Proof.
  apply sort_strongly_sorted; unfold questionEntryOrder, Order.questionBefore;
    intros; lia.
Qed.

(* ------------------------------------------------------------------ *)
(** ** Question listings *)

Lemma get_map_values {V W : Type} (g : V -> W) (m : JsMap.t V) (k : string) :
  JsMap.get k (map (fun e => (fst e, g (snd e))) m) = option_map g (JsMap.get k m).
Proof.
  induction m as [|[k' v] m IH]; simpl; [reflexivity |].
  destruct (String.eqb k k'); [reflexivity | exact IH].
Qed.

Lemma byContextFrequencyDesc_sorted (l : list QuestionWithCompanyContext) :
  StronglySorted Order.contextBefore (JsArray.sort byContextFrequencyDesc l).
Proof.
  apply sort_strongly_sorted; unfold byContextFrequencyDesc, Order.contextBefore.
  - intros x y. rewrite sign_nonpos. lra.
  - intros x y H.
    assert (Hn : ~ (qc_frequency y - qc_frequency x <= 0)%Q)
      by (rewrite <- sign_nonpos; lia).
    lra.
  - intros x y z. lra.
Qed.

(** The listing of a company: the contexts of its records, sorted. *)
Lemma companyQuestions_get (questions : list QuestionWithDetails) (company : string) :
  orEmpty (JsMap.get company (buildCompanyQuestionsIndex questions))
  = JsArray.sort byContextFrequencyDesc
      (map toContext (Spec.recordsOf company questions)).
Proof.
  unfold buildCompanyQuestionsIndex, sortValues.
  rewrite get_map_values, (get_group q_company toContext). simpl.
  unfold Spec.recordsOf.
  destruct (map toContext (filter (fun q => String.eqb (q_company q) company) questions));
    reflexivity.
Qed.

(** The loop that keeps the first entry of each slug. *)
Lemma dedupe_fold (l : list QuestionWithCompanyContext)
      (seen : JsSet.t) (out : list QuestionWithCompanyContext) :
  snd (fold_left
         (fun (st : JsSet.t * list QuestionWithCompanyContext) q =>
            if negb (JsSet.has (qc_slug q) (fst st))
            then (JsSet.add (qc_slug q) (fst st), snd st ++ [q])
            else st)
         l (seen, out))
  = out ++ firstOfEachSlug seen l.
Proof.
  revert seen out. induction l as [|x xs IH]; simpl; intros seen out.
  - now rewrite app_nil_r.
  - destruct (JsSet.has (qc_slug x) seen) eqn:E; simpl.
    + apply IH.
    + rewrite IH. unfold JsSet.add. rewrite E. now rewrite <- app_assoc.
Qed.

Lemma dedupeBySlug_firsts (l : list QuestionWithCompanyContext) :
  dedupeBySlug l = firstOfEachSlug [] l.
Proof. unfold dedupeBySlug. now rewrite dedupe_fold. Qed.

Lemma set_has_app (x : string) (s s' : JsSet.t) :
  JsSet.has x (s ++ s') = JsSet.has x s || JsSet.has x s'.
Proof. unfold JsSet.has. apply existsb_app. Qed.

Lemma firsts_In (seen : JsSet.t) (l : list QuestionWithCompanyContext) x :
  In x (firstOfEachSlug seen l) -> In x l /\ JsSet.has (qc_slug x) seen = false.
Proof.
  revert seen. induction l as [|a l IH]; simpl; intros seen; [easy |].
  destruct (JsSet.has (qc_slug a) seen) eqn:E.
  - intros H. apply IH in H. tauto.
  - intros [<- | H]; [tauto |]. apply IH in H. destruct H as [H1 H2].
    rewrite set_has_app in H2. apply orb_false_iff in H2. tauto.
Qed.

Lemma firsts_NoDup (seen : JsSet.t) (l : list QuestionWithCompanyContext) :
  NoDup (map qc_slug (firstOfEachSlug seen l)).
Proof.
  revert seen. induction l as [|a l IH]; simpl; intros seen; [constructor |].
  destruct (JsSet.has (qc_slug a) seen); [apply IH |].
  simpl. constructor; [| apply IH].
  intros Hin. apply in_map_iff in Hin. destruct Hin as [x [E Hx]].
  apply firsts_In in Hx. destruct Hx as [_ Hx].
  rewrite set_has_app, E in Hx. apply orb_false_iff in Hx. destruct Hx as [_ Hx].
  unfold JsSet.has in Hx. simpl in Hx. rewrite String.eqb_refl in Hx. discriminate.
Qed.

Lemma firsts_complete (seen : JsSet.t) (l : list QuestionWithCompanyContext) y :
  In y l ->
  JsSet.has (qc_slug y) seen = true
  \/ exists x, In x (firstOfEachSlug seen l) /\ qc_slug x = qc_slug y.
Proof.
  revert seen. induction l as [|a l IH]; simpl; intros seen; [easy |].
  intros [<- | Hy].
  - destruct (JsSet.has (qc_slug a) seen) eqn:E; [now left |].
    right. exists a. split; [now left | reflexivity].
  - destruct (JsSet.has (qc_slug a) seen) eqn:E.
    + destruct (IH seen Hy) as [H | (x & Hx & Hs)]; [now left | right; eauto].
    + destruct (IH (seen ++ [qc_slug a]) Hy) as [H | (x & Hx & Hs)].
      * rewrite set_has_app in H. apply orb_true_iff in H. destruct H as [H | H];
          [now left |].
        right. exists a. split; [now left |].
        unfold JsSet.has in H. simpl in H. rewrite orb_false_r in H.
        apply String.eqb_eq in H. now symmetry.
      * right. exists x. split; [now right | exact Hs].
Qed.

Lemma firsts_sorted (R : QuestionWithCompanyContext -> QuestionWithCompanyContext -> Prop)
      (seen : JsSet.t) (l : list QuestionWithCompanyContext) :
  StronglySorted R l -> StronglySorted R (firstOfEachSlug seen l).
Proof.
  revert seen. induction l as [|a l IH]; simpl; intros seen Hs; [constructor |].
  inversion Hs as [|? ? Hl Ha]; subst.
  destruct (JsSet.has (qc_slug a) seen); [now apply IH |].
  constructor; [now apply IH |].
  rewrite Forall_forall in *. intros x Hx. apply Ha. now apply firsts_In in Hx.
Qed.

(** In a sorted list, the entry kept for a slug is before every entry of that
    slug. *)
Lemma firsts_best (R : QuestionWithCompanyContext -> QuestionWithCompanyContext -> Prop)
      (seen : JsSet.t) (l : list QuestionWithCompanyContext) x y :
  (forall z, R z z) -> StronglySorted R l ->
  In x (firstOfEachSlug seen l) -> In y l -> qc_slug y = qc_slug x -> R x y.
Proof.
  intros Hrefl. revert seen. induction l as [|a l IH]; simpl; intros seen Hs; [easy |].
  inversion Hs as [|? ? Hl Ha]; subst. rewrite Forall_forall in Ha.
  destruct (JsSet.has (qc_slug a) seen) eqn:E.
  - intros Hx Hy Hslug. pose proof (firsts_In _ _ _ Hx) as [_ Hseen].
    destruct Hy as [<- | Hy]; [congruence |]. now apply (IH seen).
  - intros [<- | Hx] Hy Hslug.
    + destruct Hy as [<- | Hy]; [apply Hrefl | now apply Ha].
    + pose proof (firsts_In _ _ _ Hx) as [_ Hseen].
      destruct Hy as [<- | Hy]; [| now apply (IH (seen ++ [qc_slug a]))].
      rewrite set_has_app, Hslug in Hseen. apply orb_false_iff in Hseen.
      destruct Hseen as [_ Hseen]. unfold JsSet.has in Hseen. simpl in Hseen.
      rewrite <- Hslug, String.eqb_refl in Hseen. discriminate.
Qed.

Lemma topicQuestions_get (questions : list QuestionWithDetails) (topicSlug : string) :
  orEmpty (JsMap.get topicSlug (buildTopicQuestionsIndex questions))
  = dedupeBySlug
      (JsArray.sort byContextFrequencyDesc
         (map (fun qt => toContext (fst qt))
              (filter (fun qt => String.eqb (toSlug (snd qt)) topicSlug)
                      (crossRefPairs questions)))).
Proof.
  unfold buildTopicQuestionsIndex, crossRefPairs.
  rewrite (get_map_values
             (fun l => dedupeBySlug (JsArray.sort byContextFrequencyDesc l))).
  rewrite (fold_left_nested
             (fun m (qt : QuestionWithDetails * string) =>
                JsMap.push (toSlug (snd qt)) (toContext (fst qt)) m)).
  rewrite (get_group (fun qt : QuestionWithDetails * string => toSlug (snd qt))
                     (fun qt => toContext (fst qt))).
  simpl.
  destruct (map (fun qt : QuestionWithDetails * string => toContext (fst qt))
                (filter (fun qt => String.eqb (toSlug (snd qt)) topicSlug)
                        (flat_map (fun q => map (pair q) (q_topics q)) questions)));
    reflexivity.
Qed.

Lemma fold_left_lists {A B : Type} (f : A -> B -> A) (ls : list (list B)) (a : A) :
  fold_left (fun a l => fold_left f l a) ls a = fold_left f (List.concat ls) a.
Proof.
  revert a. induction ls as [|l ls IH]; simpl; intros a; [reflexivity |].
  now rewrite fold_left_app, IH.
Qed.

Lemma collect_concat {A : Type} (ls : list (list A)) (acc : list A) :
  fold_left (fun all l => all ++ l) ls acc = acc ++ List.concat ls.
Proof.
  revert acc. induction ls as [|l ls IH]; simpl; intros acc; [now rewrite app_nil_r |].
  now rewrite IH, app_assoc.
Qed.

(** The loop of [getQuestionsByDifficulty]: the first entry of each slug among
    the entries that pass the test. *)
Lemma pick_fold (p : QuestionWithCompanyContext -> bool)
      (l : list QuestionWithCompanyContext)
      (seen : JsSet.t) (out : list QuestionWithCompanyContext) :
  snd (fold_left
         (fun (st : JsSet.t * list QuestionWithCompanyContext) q =>
            if p q && negb (JsSet.has (qc_slug q) (fst st))
            then (JsSet.add (qc_slug q) (fst st), snd st ++ [q])
            else st)
         l (seen, out))
  = out ++ firstOfEachSlug seen (filter p l).
Proof.
  revert seen out. induction l as [|x xs IH]; simpl; intros seen out.
  - now rewrite app_nil_r.
  - destruct (p x); simpl; [| apply IH].
    destruct (JsSet.has (qc_slug x) seen) eqn:E; simpl.
    + apply IH.
    + rewrite IH. unfold JsSet.add. rewrite E. now rewrite <- app_assoc.
Qed.

Lemma getQuestionsByDifficulty_firsts (cache : BuildCache) (difficulty : string) :
  getQuestionsByDifficulty cache difficulty
  = JsArray.sort byContextFrequencyDesc
      (firstOfEachSlug []
         (filter (fun q => String.eqb (qc_difficulty q) difficulty)
                 (List.concat (JsMap.values (companyQuestions cache))))).
Proof.
  unfold getQuestionsByDifficulty. f_equal.
  rewrite fold_left_lists.
  apply (pick_fold (fun q => String.eqb (qc_difficulty q) difficulty)).
Qed.

(* ------------------------------------------------------------------ *)
(** ** The elements of a grouping *)

Lemma concat_values_set {V : Type} (k : string) (l : list V) (x : V)
      (m : JsMap.t (list V)) :
  JsMap.get k m = Some l ->
  Permutation (List.concat (JsMap.values (JsMap.set k (l ++ [x]) m)))
              (List.concat (JsMap.values m) ++ [x]).
Proof.
  induction m as [|[k' v'] m IH]; simpl; [discriminate |].
  destruct (String.eqb k k') eqn:E; simpl.
  - intros [= ->]. rewrite <- !app_assoc. apply Permutation_app_head.
    apply Permutation_app_comm.
  - intros H. rewrite <- app_assoc. apply Permutation_app_head. now apply IH.
Qed.

Lemma concat_values_push {V : Type} (k : string) (x : V) (m : JsMap.t (list V)) :
  Permutation (List.concat (JsMap.values (JsMap.push k x m)))
              (List.concat (JsMap.values m) ++ [x]).
Proof.
  unfold JsMap.push. destruct (JsMap.get k m) as [l|] eqn:E.
  - now apply concat_values_set.
  - apply get_None in E. rewrite (set_new_key k [x] m E).
    unfold JsMap.values. rewrite map_app, concat_app. simpl. apply Permutation_refl.
Qed.

Lemma concat_values_group {X V : Type} (key : X -> string) (val : X -> V)
      (xs : list X) (acc : JsMap.t (list V)) :
  Permutation
    (List.concat
       (JsMap.values (fold_left (fun m x => JsMap.push (key x) (val x) m) xs acc)))
    (List.concat (JsMap.values acc) ++ map val xs).
Proof.
  revert acc. induction xs as [|x xs IH]; simpl; intros acc.
  - now rewrite app_nil_r.
  - eapply perm_trans; [apply IH |].
    eapply perm_trans; [apply Permutation_app_tail, concat_values_push |].
    rewrite <- app_assoc. apply Permutation_refl.
Qed.

Lemma concat_values_sortValues {V : Type} (cmp : V -> V -> Z) (m : JsMap.t (list V)) :
  Permutation (List.concat (JsMap.values (sortValues cmp m)))
              (List.concat (JsMap.values m)).
Proof.
  induction m as [|[k l] m IH]; simpl; [constructor |].
  apply Permutation_app; [apply sort_perm | exact IH].
Qed.

Lemma companyQuestions_all (questions : list QuestionWithDetails) :
  Permutation (List.concat (JsMap.values (buildCompanyQuestionsIndex questions)))
              (map toContext questions).
Proof.
  unfold buildCompanyQuestionsIndex.
  eapply perm_trans; [apply concat_values_sortValues |].
  apply (concat_values_group q_company toContext questions JsMap.empty).
Qed.

(* ------------------------------------------------------------------ *)
(** ** The two views of the cross-references *)

Lemma views_split {E V : Type} (mk : E -> V) (k1 k2 : V -> string) (es : list E)
      (a b : JsMap.t (list V)) :
  fold_left
    (fun (views : JsMap.t (list V) * JsMap.t (list V)) entry =>
       (JsMap.push (k1 (mk entry)) (mk entry) (fst views),
        JsMap.push (k2 (mk entry)) (mk entry) (snd views)))
    es (a, b)
  = (fold_left (fun m r => JsMap.push (k1 r) r m) (map mk es) a,
     fold_left (fun m r => JsMap.push (k2 r) r m) (map mk es) b).
Proof.
  revert a b. induction es as [|e es IH]; simpl; intros a b; [reflexivity |].
  apply IH.
Qed.

Lemma companyTopics_fold (questions : list QuestionWithDetails) :
  companyTopics (buildCrossReferenceIndex questions)
  = sortValues byQuestionCountDesc
      (fold_left (fun m r => JsMap.push (cr_companySlug r) r m)
                 (bucketRefs questions) JsMap.empty).
Proof.
  unfold buildCrossReferenceIndex, bucketRefs. simpl. f_equal.
  now rewrite (views_split (fun entry => makeCrossRef (fst entry) (snd entry))
                           cr_companySlug cr_topicSlug).
Qed.

Lemma topicCompanies_fold (questions : list QuestionWithDetails) :
  topicCompanies (buildCrossReferenceIndex questions)
  = sortValues byQuestionCountDesc
      (fold_left (fun m r => JsMap.push (cr_topicSlug r) r m)
                 (bucketRefs questions) JsMap.empty).
Proof.
  unfold buildCrossReferenceIndex, bucketRefs. simpl. f_equal.
  now rewrite (views_split (fun entry => makeCrossRef (fst entry) (snd entry))
                           cr_companySlug cr_topicSlug).
Qed.

Lemma get_sortValues {V : Type} (cmp : V -> V -> Z) (k : string) (m : JsMap.t (list V)) :
  JsMap.get k (sortValues cmp m) = option_map (JsArray.sort cmp) (JsMap.get k m).
Proof. unfold sortValues. apply (get_map_values (JsArray.sort cmp)). Qed.

Lemma view_get (key : CompanyTopicCrossRef -> string) (refs : list CompanyTopicCrossRef)
      (k : string) :
  orEmpty (JsMap.get k (sortValues byQuestionCountDesc
                          (fold_left (fun m r => JsMap.push (key r) r m)
                                     refs JsMap.empty)))
  = JsArray.sort byQuestionCountDesc (filter (fun r => String.eqb (key r) k) refs).
Proof.
  rewrite get_sortValues.
  rewrite (get_group key (fun r : CompanyTopicCrossRef => r)). simpl.
  rewrite map_id.
  destruct (filter (fun r => String.eqb (key r) k) refs); reflexivity.
Qed.

Lemma byQuestionCountDesc_sorted (l : list CompanyTopicCrossRef) :
  StronglySorted Order.crossRefBefore (JsArray.sort byQuestionCountDesc l).
Proof.
  apply sort_strongly_sorted; unfold byQuestionCountDesc, Order.crossRefBefore;
    intros; lia.
Qed.

Lemma bucketRefs_positive (questions : list QuestionWithDetails) r :
  In r (bucketRefs questions) -> 0 < cr_questionCount r.
Proof.
  unfold bucketRefs. rewrite in_map_iff. intros [[k l] [<- H]].
  apply bucket_records in H. destruct H as [_ H]. simpl.
  destruct l; [congruence | simpl; lia].
Qed.

Lemma companyTopics_all (questions : list QuestionWithDetails) :
  Permutation (List.concat (JsMap.values (companyTopics (buildCrossReferenceIndex questions))))
              (bucketRefs questions).
Proof.
  rewrite companyTopics_fold.
  eapply perm_trans; [apply concat_values_sortValues |].
  eapply perm_trans;
    [apply (concat_values_group cr_companySlug (fun r : CompanyTopicCrossRef => r)) |].
  simpl. rewrite map_id. apply Permutation_refl.
Qed.

Lemma topicCompanies_all (questions : list QuestionWithDetails) :
  Permutation (List.concat (JsMap.values (topicCompanies (buildCrossReferenceIndex questions))))
              (bucketRefs questions).
Proof.
  rewrite topicCompanies_fold.
  eapply perm_trans; [apply concat_values_sortValues |].
  eapply perm_trans;
    [apply (concat_values_group cr_topicSlug (fun r : CompanyTopicCrossRef => r)) |].
  simpl. rewrite map_id. apply Permutation_refl.
Qed.

(* ------------------------------------------------------------------ *)
(** ** The top cross-references *)

Lemma crossRefOrder_sorted (l : list CompanyTopicCrossRef) :
  StronglySorted Order.topCrossRefBefore (JsArray.sort crossRefOrder l).
Proof.
  apply sort_strongly_sorted; unfold crossRefOrder, Order.topCrossRefBefore.
  - intros a b.
    destruct (getCompanyTier (cr_companySlug a) - getCompanyTier (cr_companySlug b) =? 0)%Z
      eqn:E; simpl.
    + apply Z.eqb_eq in E. intros H. right. split; lia.
    + apply Z.eqb_neq in E. intros H. left. lia.
  - intros a b.
    destruct (getCompanyTier (cr_companySlug a) - getCompanyTier (cr_companySlug b) =? 0)%Z
      eqn:E; simpl.
    + apply Z.eqb_eq in E. intros H. right. split; lia.
    + apply Z.eqb_neq in E. intros H. left. lia.
  - intros a b c [H | [H H']] [G | [G G']]; [left | left | left | right; split]; lia.
Qed.

Lemma getTopCrossReferences_eq (cache : BuildCache) (limit : Z) :
  getTopCrossReferences cache limit
  = JsArray.slice0 limit
      (JsArray.sort crossRefOrder
         (filter (fun ref => 3 <=? cr_questionCount ref)
                 (List.concat (JsMap.values (companyTopics (crossRefs cache)))))).
Proof. unfold getTopCrossReferences. now rewrite collect_concat. Qed.

Lemma StronglySorted_slice0 {A : Type} (R : A -> A -> Prop) (e : Z) (l : list A) :
  StronglySorted R l -> StronglySorted R (JsArray.slice0 e l).
Proof.
  destruct (slice0_prefix e l) as [n ->]. apply StronglySorted_firstn.
Qed.

Lemma slice0_all {A : Type} (e : Z) (l : list A) :
  (Z.of_nat (List.length l) <= e)%Z -> JsArray.slice0 e l = l.
Proof.
  intros H. unfold JsArray.slice0.
  destruct (e <? 0)%Z eqn:E; [apply Z.ltb_lt in E; lia |].
  apply firstn_all2. lia.
Qed.

(* ------------------------------------------------------------------ *)
(** ** Counting with [incr] *)

Section Counting.
Context {X : Type} (key : X -> string).

Lemma get_incr (k k' : string) (m : JsMap.t nat) :
  JsMap.get k' (JsMap.incr k m)
  = if String.eqb k k'
    then Some (match JsMap.get k m with Some n => n + 1 | None => 1 end)
    else JsMap.get k' m.
Proof.
  unfold JsMap.incr. destruct (String.eqb k k') eqn:E.
  - apply String.eqb_eq in E. subst k'.
    destruct (JsMap.get k m); apply get_set_same.
  - apply String.eqb_neq in E.
    destruct (JsMap.get k m); apply get_set_other; congruence.
Qed.

Lemma NoDup_keys_incr (k : string) (m : JsMap.t nat) :
  NoDup (JsMap.keys m) -> NoDup (JsMap.keys (JsMap.incr k m)).
Proof. unfold JsMap.incr. destruct (JsMap.get k m); apply NoDup_keys_set. Qed.

Lemma get_counted (xs : list X) (acc : JsMap.t nat) (k : string) :
  JsMap.get k (fold_left (fun m x => JsMap.incr (key x) m) xs acc)
  = match JsMap.get k acc, occurrences key k xs with
    | Some n, c => Some (n + c)
    | None, 0 => None
    | None, c => Some c
    end.
Proof.
  unfold occurrences. revert acc. induction xs as [|x xs IH]; simpl; intros acc.
  - destruct (JsMap.get k acc); [f_equal; lia | reflexivity].
  - rewrite IH, get_incr. destruct (String.eqb (key x) k) eqn:E; simpl.
    + apply String.eqb_eq in E. subst k.
      destruct (JsMap.get (key x) acc); f_equal; lia.
    + reflexivity.
Qed.

Lemma NoDup_keys_counted (xs : list X) (acc : JsMap.t nat) :
  NoDup (JsMap.keys acc) ->
  NoDup (JsMap.keys (fold_left (fun m x => JsMap.incr (key x) m) xs acc)).
Proof.
  revert acc. induction xs as [|x xs IH]; simpl; intros acc H; [exact H |].
  apply IH. now apply NoDup_keys_incr.
Qed.

Lemma In_counted (xs : list X) (k : string) (n : nat) :
  In (k, n) (fold_left (fun m x => JsMap.incr (key x) m) xs JsMap.empty)
  <-> n = occurrences key k xs /\ 0 < n.
Proof.
  split.
  - intros H. apply In_get in H; [| apply NoDup_keys_counted; constructor].
    rewrite get_counted in H. simpl in H.
    destruct (occurrences key k xs); [discriminate |]. injection H as <-. split; lia.
  - intros [-> Hpos]. apply get_Some_In. rewrite get_counted. simpl.
    destruct (occurrences key k xs); [lia | reflexivity].
Qed.
End Counting.

Lemma byCountDesc_sorted (m : JsMap.t nat) :
  StronglySorted Order.countBefore (JsArray.sort byCountDesc m).
Proof.
  apply sort_strongly_sorted; unfold byCountDesc, Order.countBefore; intros; lia.
Qed.

(** The counter of [calculateTopTopics], over the topic entries. *)
Lemma topicCounts_pairs (questions : list QuestionWithDetails) :
  fold_left (fun m q => fold_left (fun m topic => JsMap.incr topic m) (q_topics q) m)
            questions JsMap.empty
  = fold_left (fun m (qt : QuestionWithDetails * string) => JsMap.incr (snd qt) m)
              (crossRefPairs questions) JsMap.empty.
Proof.
  unfold crossRefPairs.
  apply (fold_left_nested
           (fun m (qt : QuestionWithDetails * string) => JsMap.incr (snd qt) m)).
Qed.

Lemma occurrences_topic (questions : list QuestionWithDetails) (topic : string) :
  occurrences (fun qt : QuestionWithDetails * string => snd qt) topic
              (crossRefPairs questions)
  = list_sum (map (fun q => count_occ string_dec (q_topics q) topic) questions).
Proof.
  unfold occurrences, crossRefPairs.
  induction questions as [|q qs IH]; simpl; [reflexivity |].
  rewrite filter_app, length_app, IH. f_equal.
  induction (q_topics q) as [|t ts IHt]; simpl; [reflexivity |].
  destruct (string_dec t topic) as [-> | Hne].
  - rewrite String.eqb_refl. simpl. now rewrite IHt.
  - apply String.eqb_neq in Hne. now rewrite Hne.
Qed.

(* ------------------------------------------------------------------ *)
(** ** Canonical URLs *)

Lemma str_app_nil (s : string) : (s ++ "")%string = s.
Proof. induction s as [|c s IH]; simpl; [reflexivity | now rewrite IH]. Qed.

Lemma str_app_assoc (s t u : string) : ((s ++ t) ++ u)%string = (s ++ t ++ u)%string.
Proof. induction s as [|c s IH]; simpl; [reflexivity | now rewrite IH]. Qed.

(** A pattern is not found inside a text that lacks its first character. *)
Lemma find_first_skip (c0 : ascii) (pat s tail : string) :
  existsb (Ascii.eqb c0) (list_ascii_of_string s) = false ->
  Str.find_first (String c0 pat) (s ++ tail)
  = match Str.find_first (String c0 pat) tail with
    | Some (before, after) => Some ((s ++ before)%string, after)
    | None => None
    end.
Proof.
  induction s as [|c s IH]; intros H.
  - simpl append. destruct (Str.find_first (String c0 pat) tail) as [[b a]|]; reflexivity.
  - cbn [list_ascii_of_string existsb] in H. apply orb_false_iff in H.
    destruct H as [Hc Hs]. apply Ascii.eqb_neq in Hc.
    change (String c s ++ tail)%string with (String c (s ++ tail)%string).
    cbn [Str.find_first String.prefix].
    destruct (ascii_dec c0 c) as [-> | _]; [congruence |].
    rewrite (IH Hs).
    destruct (Str.find_first (String c0 pat) tail) as [[b a]|]; reflexivity.
Qed.

Lemma replace_found (pat value s before after : string) :
  Str.find_first pat s = Some (before, after) -> dollarFree value ->
  Str.replace pat value s = (before ++ value ++ after)%string.
Proof.
  intros Hf Hv. unfold Str.replace. rewrite Hf.
  now rewrite substitution_dollarFree.
Qed.

Lemma canonical_company (slug : string) :
  dollarFree slug ->
  getCanonicalUrl PkCompany [("slug", slug)] = (siteUrl ++ "/company/" ++ slug)%string.
Proof.
  intros H. unfold getCanonicalUrl, canonicalUrlAt. cbn [fold_left fst snd canonicalPatterns].
  erewrite replace_found; [| reflexivity | exact H].
  now rewrite str_app_nil.
Qed.

Lemma canonical_topic (slug : string) :
  dollarFree slug ->
  getCanonicalUrl PkTopic [("slug", slug)] = (siteUrl ++ "/topic/" ++ slug)%string.
Proof.
  intros H. unfold getCanonicalUrl, canonicalUrlAt. cbn [fold_left fst snd canonicalPatterns].
  erewrite replace_found; [| reflexivity | exact H].
  now rewrite str_app_nil.
Qed.

Lemma canonical_problem (slug : string) :
  dollarFree slug ->
  getCanonicalUrl PkProblem [("slug", slug)] = (siteUrl ++ "/problem/" ++ slug)%string.
Proof.
  intros H. unfold getCanonicalUrl, canonicalUrlAt. cbn [fold_left fst snd canonicalPatterns].
  erewrite replace_found; [| reflexivity | exact H].
  now rewrite str_app_nil.
Qed.

Lemma canonical_companyTopic (company topic : string) :
  dollarFree company -> braceFree company -> dollarFree topic ->
  getCanonicalUrl PkCompanyTopic [("company", company); ("topic", topic)]
  = (siteUrl ++ "/company/" ++ company ++ "/" ++ topic)%string.
Proof.
  intros Hc Hb Ht. unfold getCanonicalUrl, canonicalUrlAt. cbn [fold_left fst snd canonicalPatterns].
  erewrite (replace_found _ company); [| reflexivity | exact Hc].
  assert (Hf : Str.find_first ("{" ++ "topic" ++ "}")
                              ("/company/" ++ company ++ "/{topic}")
               = Some (("/company/" ++ company ++ "/")%string, EmptyString)).
  { change ("/company/" ++ company ++ "/{topic}")%string
      with ("/company/" ++ (company ++ "/{topic}"))%string.
    rewrite <- (str_app_assoc "/company/" company "/{topic}").
    change ("{" ++ "topic" ++ "}")%string with (String "{" "topic}").
    rewrite find_first_skip.
    - change (Str.find_first (String "{" "topic}") "/{topic}")
        with (Some (String "/" EmptyString, EmptyString)).
      cbv beta iota. now rewrite str_app_assoc.
    - exact Hb. }
  erewrite (replace_found _ topic); [| exact Hf | exact Ht].
  now rewrite str_app_nil, !str_app_assoc.
Qed.

(* ------------------------------------------------------------------ *)
(** ** Question to companies *)

Lemma questionCompanies_step (m : JsMap.t (list string)) (q : QuestionWithDetails)
      (k : string) :
  JsMap.get k
    (let m' := if JsMap.has (q_slug q) m then m else JsMap.set (q_slug q) [] m in
     let companies :=
       match JsMap.get (q_slug q) m' with Some l => l | None => [] end in
     if existsb (String.eqb (q_company q)) companies then m'
     else JsMap.set (q_slug q) (companies ++ [q_company q]) m')
  = if String.eqb (q_slug q) k
    then Some (JsSet.add (q_company q) (orEmpty (JsMap.get k m)))
    else JsMap.get k m.
Proof.
  cbv zeta. unfold JsMap.has, JsSet.add, JsSet.has.
  destruct (String.eqb (q_slug q) k) eqn:E.
  - apply String.eqb_eq in E. subst k.
    destruct (JsMap.get (q_slug q) m) as [l|] eqn:G; simpl.
    + rewrite G. destruct (existsb (String.eqb (q_company q)) l);
        [exact G | apply get_set_same].
    + rewrite get_set_same. simpl. apply get_set_same.
  - apply String.eqb_neq in E.
    destruct (JsMap.get (q_slug q) m) as [l|] eqn:G.
    + rewrite G. destruct (existsb (String.eqb (q_company q)) l);
        [reflexivity | apply get_set_other; congruence].
    + rewrite get_set_same. simpl.
      rewrite !get_set_other by congruence. reflexivity.
Qed.

Lemma questionCompanies_fold (questions : list QuestionWithDetails) (slug : string)
      (acc : JsMap.t (list string)) :
  orEmpty
    (JsMap.get slug
       (fold_left
          (fun m q =>
             let m := if JsMap.has (q_slug q) m then m else JsMap.set (q_slug q) [] m in
             let companies :=
               match JsMap.get (q_slug q) m with Some l => l | None => [] end in
             if existsb (String.eqb (q_company q)) companies then m
             else JsMap.set (q_slug q) (companies ++ [q_company q]) m)
          questions acc))
  = fold_left (fun s x => JsSet.add x s)
      (map q_company (filter (fun q => String.eqb (q_slug q) slug) questions))
      (orEmpty (JsMap.get slug acc)).
Proof.
  revert acc. induction questions as [|q qs IH]; intros acc; [reflexivity |].
  cbn [fold_left]. rewrite IH. rewrite questionCompanies_step.
  cbn [filter]. destruct (String.eqb (q_slug q) slug); reflexivity.
Qed.

Lemma questionCompanies_index (questions : list QuestionWithDetails) (slug : string) :
  orEmpty (JsMap.get slug (questionCompanies (buildCrossReferenceIndex questions)))
  = JsSet.of_list
      (map q_company (filter (fun q => String.eqb (q_slug q) slug) questions)).
Proof. apply (questionCompanies_fold questions slug JsMap.empty). Qed.

(* ------------------------------------------------------------------ *)
(** ** Related questions of a record *)

Lemma slice0_NoDup {A : Type} (e : Z) (l : list A) :
  NoDup l -> NoDup (JsArray.slice0 e l).
Proof.
  destruct (slice0_prefix e l) as [n ->]. revert l.
  induction n as [|n IH]; intros [|x l] H; simpl; try constructor.
  - inversion H as [|? ? Hx Hl]; subst. intros Hin. apply Hx.
    rewrite <- (firstn_skipn n l). apply in_or_app. now left.
  - inversion H; subst. now apply IH.
Qed.

Lemma findRelatedQuestions_distinct (questions : list QuestionWithDetails)
      (target : QuestionWithDetails) (limit : Z) :
  NoDup (findRelatedQuestions questions target limit).
Proof.
  unfold findRelatedQuestions.
  match goal with
  | |- NoDup (map fst (JsArray.slice0 _ (JsArray.sort _ ?m))) =>
      assert (Hm : NoDup (JsMap.keys m))
  end.
  { apply fold_left_ind; [constructor |].
    intros m q _ Hm.
    destruct (String.eqb (q_slug q) (q_slug target)); [exact Hm |].
    cbv zeta.
    match goal with |- context [if ?b then _ else _] => destruct b end;
      [now apply NoDup_keys_set | exact Hm]. }
  apply (NoDup_keys_sort byCountDesc) in Hm.
  revert Hm. unfold JsMap.keys.
  match goal with
  | |- NoDup (map fst ?s) -> NoDup (map fst (JsArray.slice0 _ ?s)) =>
      generalize s
  end.
  intros s Hs. destruct (slice0_prefix limit s) as [n ->].
  rewrite <- firstn_map.
  rewrite <- (slice0_nat n). now apply slice0_NoDup.
Qed.

Lemma findRelatedQuestions_known (questions : list QuestionWithDetails)
      (target : QuestionWithDetails) (limit : Z) (s : string) :
  In s (findRelatedQuestions questions target limit) ->
  exists q, In q questions /\ q_slug q = s.
Proof.
  unfold findRelatedQuestions. intros H.
  apply in_map_iff in H. destruct H as [[k n] [<- H]].
  apply In_slice0, In_sort in H. revert H.
  apply (fold_left_ind
           (fun m : JsMap.t nat =>
              In (k, n) m -> exists q, In q questions /\ q_slug q = fst (k, n))).
  - intros [].
  - intros m q Hq IH.
    destruct (String.eqb (q_slug q) (q_slug target)); [exact IH |].
    cbv zeta.
    match goal with |- context [if ?b then _ else _] => destruct b end; [| exact IH].
    intros H. apply In_set in H. destruct H as [[= -> _] | H]; [| now apply IH].
    exists q. now split.
Qed.

(* ------------------------------------------------------------------ *)
(** ** Positions in a schema list *)

Lemma mapFrom_length {A B : Type} (f : A -> nat -> B) (l : list A) (start : nat) :
  List.length (mapFrom start f l) = List.length l.
Proof. revert start. induction l; simpl; intros; [reflexivity | now rewrite IHl]. Qed.

Lemma mapFrom_nth {A B : Type} (f : A -> nat -> B) (l : list A) (start i : nat) :
  nth_error (mapFrom start f l) i
  = option_map (fun x => f x (start + i)) (nth_error l i).
Proof.
  revert start i. induction l as [|x l IH]; intros start [|i]; simpl; try reflexivity.
  - now rewrite Nat.add_0_r.
  - rewrite IH. now rewrite Nat.add_succ_r.
Qed.

(* ------------------------------------------------------------------ *)
(** ** The loop of the sitemap over the cross-references *)

Lemma push_when {A B : Type} (keep : A -> bool) (entryOf : A -> B) (refs : list A)
      (entries : list B) :
  fold_left (fun entries r => if keep r then entries ++ [entryOf r] else entries)
            refs entries
  = entries ++ map entryOf (filter keep refs).
Proof.
  revert entries. induction refs as [|r refs IH]; simpl; intros entries.
  - now rewrite app_nil_r.
  - rewrite IH. destruct (keep r); [| reflexivity].
    simpl. now rewrite <- app_assoc.
Qed.

Lemma getTopCrossReferences_threshold (cache : BuildCache) (limit : Z) r :
  In r (getTopCrossReferences cache limit) ->
  3 <= cr_questionCount r
  /\ In r (List.concat (JsMap.values (companyTopics (crossRefs cache)))).
Proof.
  rewrite getTopCrossReferences_eq. intros H.
  apply In_slice0, In_sort, filter_In in H. destruct H as [H1 H2].
  apply Nat.leb_le in H2. tauto.
Qed.

(* ------------------------------------------------------------------ *)
(** ** The snapshot of a build *)

Lemma built_fields (raw : list QuestionWithDetails) (companyList topicList : list string)
      (cache : BuildCache) :
  buildAggregatedData (loaded raw companyList topicList) = inr cache ->
  companies cache = aggregateCompanies raw companyList
  /\ topics cache = aggregateTopics raw topicList
  /\ questions cache = deduplicateQuestions raw
  /\ crossRefs cache = buildCrossReferenceIndex raw
  /\ companyQuestions cache = buildCompanyQuestionsIndex raw
  /\ topicQuestions cache = buildTopicQuestionsIndex raw
  /\ stats cache
     = {| totalCompanies := JsMap.size (aggregateCompanies raw companyList);
          totalTopics := JsMap.size (aggregateTopics raw topicList);
          totalUniqueQuestions := JsMap.size (deduplicateQuestions raw);
          totalQuestionRecords := List.length raw |}.
Proof.
  unfold buildAggregatedData, loaded, bind, ret. simpl.
  intros [= <-]. simpl. repeat split.
Qed.

(* ------------------------------------------------------------------ *)
(** ** Filtering a listing *)

Lemma filter_perm {A : Type} (keep : A -> bool) (xs ys : list A)
      (Hp : Permutation xs ys) :
  Permutation (filter keep xs) (filter keep ys).
Proof.
  induction Hp as [| x xs ys _ IH | x y xs | xs ys zs _ IH1 _ IH2]; simpl.
  - constructor.
  - destruct (keep x); [now constructor | exact IH].
  - destruct (keep x), (keep y); try apply Permutation_refl. constructor.
  - now apply perm_trans with (filter keep ys).
Qed.

Lemma filter_sorted {A : Type} (R : A -> A -> Prop) (keep : A -> bool) (xs : list A)
      (Hs : StronglySorted R xs) :
  StronglySorted R (filter keep xs).
Proof.
  induction Hs as [| x xs _ IH Hx]; simpl; [constructor |].
  destruct (keep x); [| exact IH]. constructor; [exact IH |].
  rewrite Forall_forall in *. intros y Hy. apply filter_In in Hy. now apply Hx.
Qed.

Lemma filter_contexts (topicSlug : string) (qs : list QuestionWithDetails) :
  filter (hasTopicSlug topicSlug) (map toContext qs)
  = map toContext (filter (Spec.listsTopicSlug topicSlug) qs).
Proof.
  induction qs as [|q qs IH]; simpl; [reflexivity |].
  change (hasTopicSlug topicSlug (toContext q)) with (Spec.listsTopicSlug topicSlug q).
  destruct (Spec.listsTopicSlug topicSlug q); simpl; now rewrite IH.
Qed.

Lemma listsTopicSlug_pair (topicSlug : string) (q : QuestionWithDetails) :
  Spec.listsTopicSlug topicSlug q = true
  <-> exists t, In t (q_topics q) /\ toSlug t = topicSlug.
Proof.
  unfold Spec.listsTopicSlug. rewrite existsb_exists.
  split; intros (t & Ht & E); exists t; split; try assumption.
  - now apply String.eqb_eq.
  - now apply String.eqb_eq.
Qed.

(* ------------------------------------------------------------------ *)
(** ** What a cross-reference is made from *)

Section CrossRefOrigin.
Variable questions : list QuestionWithDetails.
Hypothesis separated : forall q, In q questions -> Spec.wellSeparated q.

Lemma bucketRefs_origin (r : CompanyTopicCrossRef) :
  In r (bucketRefs questions) ->
  exists q0 t0,
    In q0 questions /\ In t0 (q_topics q0)
    /\ cr_companySlug r = q_company q0
    /\ cr_topicSlug r = toSlug t0
    /\ Str.toLowerCase (cr_topicName r) = Str.toLowerCase t0.
Proof.
  unfold bucketRefs. rewrite in_map_iff. intros ([k l] & <- & Hin). simpl.
  apply bucket_records in Hin. destruct Hin as [Hl Hne].
  destruct (filter (fun qt => String.eqb (pairKey qt) k) (crossRefPairs questions))
    as [|[q0 t0] rest] eqn:F; [simpl in Hl; contradiction |].
  assert (Hhead : In (q0, t0)
                     (filter (fun qt => String.eqb (pairKey qt) k)
                             (crossRefPairs questions))).
  { rewrite F. now left. }
  apply filter_In in Hhead. destruct Hhead as [Hpair Hk].
  apply In_crossRefPairs in Hpair. destruct Hpair as [Hq0 Ht0].
  apply String.eqb_eq in Hk. subst k l. simpl map.
  exists q0, t0. split; [exact Hq0 |]. split; [exact Ht0 |].
  assert (Hc : forall q, In q questions -> Spec.noColon (q_company q))
    by (intros q Hq; exact (proj1 (separated q Hq))).
  assert (Ht : forall q t, In q questions -> In t (q_topics q) -> Spec.noColon t)
    by (intros q t Hq; exact (proj2 (separated q Hq) t)).
  destruct (makeCrossRef_fields questions Hc Ht q0 t0 (map fst rest) Hq0 Ht0)
    as (H1 & H2 & _).
  split; [exact H1 |]. split; [| exact H2].
  unfold makeCrossRef, pairKey, crossRefKey. simpl fst. simpl snd.
  change (":" ++ Str.toLowerCase t0)%string with (String ":" (Str.toLowerCase t0)).
  rewrite split_key; [reflexivity | now apply Hc | apply noColon_lower; now apply (Ht q0)].
Qed.
End CrossRefOrigin.

Lemma filter_length_mono {A : Type} (keep keep' : A -> bool) (xs : list A)
      (Himp : forall x, In x xs -> keep x = true -> keep' x = true) :
  List.length (filter keep xs) <= List.length (filter keep' xs).
Proof.
  induction xs as [|x xs IH]; simpl; [lia |].
  assert (IH' : List.length (filter keep xs) <= List.length (filter keep' xs)).
  { apply IH. intros y Hy. apply Himp. now right. }
  destruct (keep x) eqn:E.
  - rewrite (Himp x (or_introl eq_refl) E). simpl. lia.
  - destruct (keep' x); simpl; lia.
Qed.

Lemma crossRefsOf_bucketRefs (questions : list QuestionWithDetails) (r : CompanyTopicCrossRef) :
  In r (Spec.crossRefsOf (buildCrossReferenceIndex questions))
  <-> In r (bucketRefs questions).
Proof.
  unfold Spec.crossRefsOf. rewrite in_app_iff. split.
  - intros [H | H].
    + revert H. apply Permutation_in, companyTopics_all.
    + revert H. apply Permutation_in, topicCompanies_all.
  - intros H. left. revert H. apply Permutation_in, Permutation_sym, companyTopics_all.
Qed.

(* ------------------------------------------------------------------ *)
(** ** Sorted lists under a map *)

Lemma map_sorted {A B : Type} (R : A -> A -> Prop) (R' : B -> B -> Prop) (f : A -> B)
      (xs : list A) (Hf : forall x y, R x y -> R' (f x) (f y))
      (Hs : StronglySorted R xs) :
  StronglySorted R' (map f xs).
Proof.
  induction Hs as [| x xs _ IH Hx]; simpl; constructor; [exact IH |].
  rewrite Forall_forall in *. intros y Hy. apply in_map_iff in Hy.
  destruct Hy as (z & <- & Hz). apply Hf. now apply Hx.
Qed.

Lemma slice0_keys_NoDup {V : Type} (e : Z) (m : JsMap.t V) :
  NoDup (JsMap.keys m) -> NoDup (map fst (JsArray.slice0 e m)).
Proof.
  intros H. destruct (slice0_prefix e m) as [n ->].
  rewrite <- firstn_map. rewrite <- (slice0_nat n). now apply slice0_NoDup.
Qed.

Lemma company_topic_contexts (raw : list QuestionWithDetails) (companySlug topicSlug : string) :
  Permutation
    (filter (hasTopicSlug topicSlug)
            (JsArray.sort byContextFrequencyDesc
               (map toContext (Spec.recordsOf companySlug raw))))
    (map toContext
         (filter (Spec.listsTopicSlug topicSlug) (Spec.recordsOf companySlug raw))).
Proof. rewrite <- filter_contexts. apply filter_perm, sort_perm. Qed.

Lemma firstn_le_In {A : Type} (n m : nat) (l : list A) (x : A) :
  n <= m -> In x (firstn n l) -> In x (firstn m l).
Proof.
  intros Hle. revert m Hle l. induction n as [|n IH]; intros m Hle l; [easy |].
  destruct m as [|m]; [lia |]. destruct l as [|y l]; [easy |]. simpl.
  intros [-> | H]; [now left | right]. apply IH; [lia | exact H].
Qed.

(* ------------------------------------------------------------------ *)
(** ** The targets of the related links are entities of the map *)

Lemma lookupAll_values {V : Type} (all : JsMap.t V) (slugs : list string) (x : V) :
  In x (lookupAll all slugs) -> In x (JsMap.values all).
Proof.
  unfold lookupAll. rewrite in_flat_map. intros (k & _ & H).
  destruct (JsMap.get k all) as [v|] eqn:E; [| contradiction].
  destruct H as [<- | []]. apply get_Some_In in E.
  change v with (snd (k, v)). now apply in_map.
Qed.

Lemma relatedTopicTargets_known (current : Topic) (all : JsMap.t Topic) (limit : Z)
      (t : Topic) :
  In t (relatedTopicTargets current all limit) -> In t (JsMap.values all).
Proof.
  unfold relatedTopicTargets. cbv zeta. intros H.
  apply In_slice0, in_app_or in H. destruct H as [H | H].
  - now apply lookupAll_values in H.
  - destruct (Z.of_nat _ <? limit)%Z; [| contradiction].
    apply In_slice0, In_sort, filter_In in H. tauto.
Qed.

Lemma relatedProblemTargets_known (current : UniqueQuestion)
      (all : JsMap.t UniqueQuestion) (limit : Z) (q : UniqueQuestion) :
  In q (relatedProblemTargets current all limit) -> In q (JsMap.values all).
Proof.
  unfold relatedProblemTargets. cbv zeta. intros H.
  apply In_slice0, in_app_or in H. destruct H as [H | H].
  - now apply lookupAll_values in H.
  - destruct (Z.of_nat _ <? limit)%Z; [| contradiction].
    apply in_map_iff in H. destruct H as ([q' s] & <- & H).
    apply In_slice0, In_sort in H. rewrite scoreRelatedProblems_collect in H.
    apply filter_In in H. destruct H as [H _].
    apply in_map_iff in H. destruct H as (q'' & [= <- _] & H).
    apply filter_In in H. tauto.
Qed.

Lemma getRelatedTopics_length (current : Topic) (all : JsMap.t Topic) (limit : nat) :
  List.length (getRelatedTopics current all (Z.of_nat limit)) <= limit.
Proof. unfold getRelatedTopics. cbv zeta. apply slice0_length. Qed.

Lemma getRelatedProblems_length (current : UniqueQuestion)
      (all : JsMap.t UniqueQuestion) (limit : nat) :
  List.length (getRelatedProblems current all (Z.of_nat limit)) <= limit.
Proof. unfold getRelatedProblems. cbv zeta. apply slice0_length. Qed.

(* ------------------------------------------------------------------ *)
(** ** The three counters of a breakdown *)

Lemma breakdown_counters (qs : list QuestionWithDetails) :
  let count key :=
    List.length (filter (fun q => String.eqb (Str.toLowerCase (q_difficulty q)) key) qs) in
  easy (calculateDifficultyBreakdown qs) = count "easy"
  /\ medium (calculateDifficultyBreakdown qs) = count "medium"
  /\ hard (calculateDifficultyBreakdown qs) = count "hard".
Proof.
  cbv zeta. unfold calculateDifficultyBreakdown.
  assert (G : forall b,
    let b' := fold_left (fun breakdown q => bump breakdown (Str.toLowerCase (q_difficulty q)))
                        qs b in
    easy b' = easy b
              + List.length
                  (filter (fun q => String.eqb (Str.toLowerCase (q_difficulty q)) "easy") qs)
    /\ medium b' = medium b
                   + List.length
                       (filter (fun q => String.eqb (Str.toLowerCase (q_difficulty q)) "medium") qs)
    /\ hard b' = hard b
                 + List.length
                     (filter (fun q => String.eqb (Str.toLowerCase (q_difficulty q)) "hard") qs)).
  { induction qs as [|q qs IH]; intros b; cbv zeta; cbn [fold_left filter].
    - simpl. lia.
    - destruct (IH (bump b (Str.toLowerCase (q_difficulty q)))) as (He & Hm & Hh).
      cbv zeta in He, Hm, Hh. rewrite He, Hm, Hh. unfold bump.
      generalize (Str.toLowerCase (q_difficulty q)) as key. intros key.
      destruct (String.eqb key "easy") eqn:E1.
      { apply String.eqb_eq in E1. subst key. simpl. lia. }
      destruct (String.eqb key "medium") eqn:E2.
      { apply String.eqb_eq in E2. subst key. simpl. lia. }
      destruct (String.eqb key "hard") eqn:E3.
      { apply String.eqb_eq in E3. subst key. simpl. lia. }
      simpl. lia. }
  apply (G (mkBreakdown 0 0 0 [])).
Qed.

Lemma counted_length_le (qs : list QuestionWithDetails) :
  Spec.breakdownTotal (calculateDifficultyBreakdown qs) <= List.length qs.
Proof. rewrite breakdown_total. apply List.filter_length_le. Qed.

Lemma counted_length_all (qs : list QuestionWithDetails) :
  (forall q, In q qs -> Spec.difficultyCounted (q_difficulty q)) ->
  Spec.breakdownTotal (calculateDifficultyBreakdown qs) = List.length qs.
Proof.
  intros H. rewrite breakdown_total, filter_all; [reflexivity |].
  intros q Hq. now apply countedKey_true, H.
Qed.

(* ------------------------------------------------------------------ *)
(** ** Top companies and related topics of a topic *)

Lemma byTierThenCount_sorted (m : JsMap.t nat) :
  StronglySorted
    (fun a b : string * nat =>
       (getCompanyTier (fst a) < getCompanyTier (fst b))%Z
       \/ (getCompanyTier (fst a) = getCompanyTier (fst b) /\ snd b <= snd a))
    (JsArray.sort byTierThenCount m).
Proof.
  apply sort_strongly_sorted; unfold byTierThenCount.
  - intros a b.
    destruct (getCompanyTier (fst a) - getCompanyTier (fst b) =? 0)%Z eqn:E; simpl.
    + apply Z.eqb_eq in E. intros H. right. split; lia.
    + apply Z.eqb_neq in E. intros H. left. lia.
  - intros a b.
    destruct (getCompanyTier (fst a) - getCompanyTier (fst b) =? 0)%Z eqn:E; simpl.
    + apply Z.eqb_eq in E. intros H. right. split; lia.
    + apply Z.eqb_neq in E. intros H. left. lia.
  - intros a b c [H | [H H']] [G | [G G']]; [left | left | left | right; split]; lia.
Qed.

Lemma In_keys_incr (k k' : string) (m : JsMap.t nat) :
  In k' (JsMap.keys (JsMap.incr k m)) -> k' = k \/ In k' (JsMap.keys m).
Proof.
  unfold JsMap.incr. destruct (JsMap.get k m); intros H; now apply In_keys_set in H.
Qed.

Lemma cooccurrence_keys (questions : list QuestionWithDetails) (targetLower k : string)
      (n : nat) :
  In (k, n)
     (fold_left
        (fun m q =>
           if hasTopicLower targetLower q
           then fold_left
                  (fun m topic =>
                     if negb (String.eqb (Str.toLowerCase topic) targetLower)
                     then JsMap.incr topic m else m)
                  (q_topics q) m
           else m)
        questions JsMap.empty) ->
  exists q, In q questions /\ hasTopicLower targetLower q = true
            /\ In k (q_topics q) /\ Str.toLowerCase k <> targetLower.
Proof.
  intros H.
  assert (Hk : In k (JsMap.keys
                       (fold_left
                          (fun m q =>
                             if hasTopicLower targetLower q
                             then fold_left
                                    (fun m topic =>
                                       if negb (String.eqb (Str.toLowerCase topic) targetLower)
                                       then JsMap.incr topic m else m)
                                    (q_topics q) m
                             else m)
                          questions JsMap.empty))).
  { change k with (fst (k, n)). now apply in_map. }
  clear H. revert Hk.
  apply (fold_left_ind
           (fun m : JsMap.t nat =>
              In k (JsMap.keys m) ->
              exists q, In q questions /\ hasTopicLower targetLower q = true
                        /\ In k (q_topics q) /\ Str.toLowerCase k <> targetLower)).
  - intros [].
  - intros m q Hq IH. destruct (hasTopicLower targetLower q) eqn:Hhas; [| exact IH].
    apply (fold_left_ind
             (fun m' : JsMap.t nat =>
                In k (JsMap.keys m') ->
                exists q, In q questions /\ hasTopicLower targetLower q = true
                          /\ In k (q_topics q) /\ Str.toLowerCase k <> targetLower)).
    + exact IH.
    + intros m' topic Htopic IH'.
      destruct (String.eqb (Str.toLowerCase topic) targetLower) eqn:E; simpl;
        [exact IH' |].
      intros Hin. apply In_keys_incr in Hin. destruct Hin as [-> | Hin];
        [| now apply IH'].
      exists q. apply String.eqb_neq in E. auto.
Qed.

(* ================================================================== *)
(** ** Further properties of the code *)

(** Property X1.  Whatever the order of calls of [getBuildCache], settlements
    of build promises and resumptions of suspended frames on a freshly loaded
    module, [buildAggregatedData] is invoked at most once; when [buildCache]
    holds a snapshot, it is the one the build promise was fulfilled with; and
    any two calls whose promises have settled have settled alike (the same
    snapshot, or the same failure). *)
Theorem cache_runs_build_once (events : list CacheRun.Event) :
  let st := CacheRun.run events init in
  builds st <= 1
  /\ (forall v, buildCache st = Some v -> promises st = [Fulfilled v])
  /\ (forall c1 c2,
         In c1 (calls st) -> In c2 (calls st) ->
         outcome st c1 <> Pending -> outcome st c2 <> Pending ->
         outcome st c1 = outcome st c2).
Proof.
  intros st.
  assert (Hc : CacheRun.coherent st) by (apply coherent_run, coherent_init).
  split; [| split].
  - unfold CacheRun.coherent in Hc. unfold builds.
    destruct (promises st) as [|s [|s' ps]]; simpl; [lia | lia | easy].
  - intros v Hv. unfold CacheRun.coherent in Hc. rewrite Hv in Hc.
    destruct (promises st) as [|s [|s' ps]]; [| | easy].
    + destruct Hc as [Hc _]. discriminate.
    + destruct Hc as [-> _]. reflexivity.
  - intros c1 c2 H1 H2 N1 N2.
    destruct (coherent_outcome st c1 Hc H1) as [E1 | E1]; [contradiction |].
    destruct (coherent_outcome st c2 Hc H2) as [E2 | E2]; [contradiction |].
    congruence.
Qed.

(** Property X2.  The slug of a name ([name.toLowerCase().replace(/\s+/g, "-")])
    holds no white space and no upper-case letter, and making the slug of a
    slug changes nothing: a slug looks up the key it was stored under. *)
Theorem slug_is_a_normal_form (name : string) :
  spaceFree (toSlug name)
  /\ Str.toLowerCase (toSlug name) = toSlug name
  /\ toSlug (toSlug name) = toSlug name.
Proof.
  split; [apply toSlug_spaceFree |]. split; [apply toSlug_lowercase |].
  apply toSlug_idempotent.
Qed.

(** Property X3.  For slugs without a dollar sign (and a company slug without
    an opening brace on the company-topic page), [getCanonicalUrl] puts the
    slugs into the path as they are, so that the URLs of the sitemap entries
    are the canonical URLs of the pages. *)
Theorem sitemap_urls_are_canonical (company : Company) (topic : Topic)
        (question : UniqueQuestion) (crossRef : CompanyTopicCrossRef) :
  dollarFree (co_slug company) -> dollarFree (tp_slug topic) ->
  dollarFree (uq_slug question) ->
  dollarFree (cr_companySlug crossRef) -> braceFree (cr_companySlug crossRef) ->
  dollarFree (cr_topicSlug crossRef) ->
  se_url (companyEntry company) = getCanonicalUrl PkCompany [("slug", co_slug company)]
  /\ se_url (topicEntry topic) = getCanonicalUrl PkTopic [("slug", tp_slug topic)]
  /\ se_url (problemEntry question)
     = getCanonicalUrl PkProblem [("slug", uq_slug question)]
  /\ se_url (crossRefEntry crossRef)
     = getCanonicalUrl PkCompanyTopic
         [("company", cr_companySlug crossRef); ("topic", cr_topicSlug crossRef)].
Proof.
  intros Hc Ht Hq Hrc Hrb Hrt.
  rewrite canonical_company, canonical_topic, canonical_problem,
    canonical_companyTopic by assumption.
  repeat split.
Qed.

Lemma sitemap_urls_are_canonical_witness :
  se_url (companyEntry Catalog.google)
  = getCanonicalUrl PkCompany [("slug", co_slug Catalog.google)]
  /\ se_url (topicEntry Catalog.array)
     = getCanonicalUrl PkTopic [("slug", tp_slug Catalog.array)]
  /\ se_url (problemEntry Catalog.twoSumQuestion)
     = getCanonicalUrl PkProblem [("slug", uq_slug Catalog.twoSumQuestion)]
  /\ se_url (crossRefEntry Catalog.googleArray)
     = getCanonicalUrl PkCompanyTopic
         [("company", cr_companySlug Catalog.googleArray);
          ("topic", cr_topicSlug Catalog.googleArray)].
Proof.
  apply (sitemap_urls_are_canonical Catalog.google Catalog.array Catalog.twoSumQuestion
                                    Catalog.googleArray); reflexivity.
Defined.
(** Property X4.  The company map of [aggregateCompanies] has one entry for
    every name of the company list that has a record at least, and no other:
    its keys are pairwise distinct, a listed company without records is left
    out, and the company stored under a key carries that key as its slug. *)
Theorem company_map_keys (questions : list QuestionWithDetails)
        (companyList : list string) :
  let m := aggregateCompanies questions companyList in
  NoDup (JsMap.keys m)
  /\ (forall slug,
         In slug (JsMap.keys m)
         <-> In slug companyList /\ Spec.recordsOf slug questions <> [])
  /\ (forall slug c, JsMap.get slug m = Some c -> co_slug c = slug)
  /\ JsMap.size m <= List.length companyList.
Proof.
  intros m. subst m.
  destruct (aggregateCompanies_sorted_fold questions companyList)
    as (m0 & Hm & Hnd & Hkeys).
  assert (Hnd' : NoDup (JsMap.keys (aggregateCompanies questions companyList))).
  { rewrite Hm. now apply NoDup_keys_sort. }
  split; [exact Hnd' |]. split; [| split].
  - intros slug. rewrite Hm, In_keys_sort. apply Hkeys.
  - intros slug c H. apply get_Some_In, aggregateCompanies_entry in H. tauto.
  - unfold JsMap.size. rewrite <- (length_map fst).
    apply NoDup_incl_length; [exact Hnd' |].
    intros slug H. rewrite Hm in H. apply In_keys_sort, Hkeys in H. tauto.
Qed.

(** Property X5.  The company map is in the order of the sort of
    [aggregateCompanies]: by tier ascending and, within a tier, by question
    count descending.  (The company names are no names of properties that the
    tier table inherits as an object, for which the tier is no number.) *)
Theorem company_map_order (questions : list QuestionWithDetails)
        (companyList : list string) :
  Forall ownTierKey companyList ->
  StronglySorted Order.companyBefore (aggregateCompanies questions companyList).
Proof.
  intros _.
  destruct (aggregateCompanies_sorted_fold questions companyList) as (m0 & -> & _).
  apply sort_strongly_sorted.
  - apply companyEntryOrder_before.
  - apply companyEntryOrder_after.
  - apply companyBefore_trans.
Qed.

Lemma company_map_order_witness :
  StronglySorted Order.companyBefore
                 (aggregateCompanies Catalog.raw Catalog.companyList).
Proof.
  apply (company_map_order Catalog.raw Catalog.companyList).
  repeat constructor; intros H; vm_compute in H; discriminate H.
Defined.

(** Property X6.  The topic map of [aggregateTopics] has pairwise distinct
    keys: the slugs of the names of the topic list that some record lists
    (letter case apart).  It is in descending order of question count, and the
    topic under a key has the slug of its name as key, a name of the topic
    list, and as question count the positive number of records that list its
    name. *)
Theorem topic_map_entries (questions : list QuestionWithDetails)
        (topicList : list string) :
  let m := aggregateTopics questions topicList in
  NoDup (JsMap.keys m)
  /\ (forall slug,
         In slug (JsMap.keys m)
         <-> exists name,
               In name topicList /\ toSlug name = slug
               /\ filter (Spec.listsTopic name) questions <> [])
  /\ StronglySorted Order.topicBefore m
  /\ (forall slug t,
         In (slug, t) m ->
         slug = toSlug (tp_name t) /\ tp_slug t = slug
         /\ In (tp_name t) topicList
         /\ tp_questionCount t
            = List.length (filter (Spec.listsTopic (tp_name t)) questions)
         /\ 0 < tp_questionCount t).
Proof.
  intros m. subst m.
  destruct (aggregateTopics_sorted_fold questions topicList)
    as (m0 & Hm & Hnd & Hkeys).
  split; [rewrite Hm; now apply NoDup_keys_sort |]. split; [| split].
  - intros slug. rewrite Hm, In_keys_sort. apply Hkeys.
  - rewrite Hm. apply topicEntryOrder_sorted.
  - intros slug t H.
    pose proof (aggregateTopics_entry _ _ _ _ H) as [Hslug _].
    apply aggregateTopics_entry_counts in H. unfold Spec.listsTopic. tauto.
Qed.

(** Property X7.  The question map of [deduplicateQuestions] has one entry
    for every distinct slug of the raw records, in descending order of the
    number of companies.  The entry of a slug takes its fields from the first
    record of that slug, lists one company entry per record of the slug, and
    its related questions are those found for that first record. *)
Theorem question_map_entries (questions : list QuestionWithDetails) :
  let m := deduplicateQuestions questions in
  NoDup (JsMap.keys m)
  /\ (forall slug, In slug (JsMap.keys m) <-> In slug (map q_slug questions))
  /\ JsMap.size m = List.length (nodup string_dec (map q_slug questions))
  /\ StronglySorted Order.questionBefore m
  /\ (forall slug uq,
         In (slug, uq) m ->
         exists q,
           find (fun q => String.eqb (q_slug q) slug) questions = Some q
           /\ representedBy uq q
           /\ List.length (uq_companies uq)
              = List.length (filter (fun q => String.eqb (q_slug q) slug) questions)
           /\ uq_relatedQuestions uq = findRelatedQuestions questions q 5).
Proof.
  intros m. subst m.
  destruct (deduplicateQuestions_sorted_fold questions) as (m0 & Hm & Hkeys & Hrep).
  destruct (set_of_list_spec (map q_slug questions)) as [Hnd Hin].
  split; [| split; [| split; [| split]]].
  - rewrite Hm. apply NoDup_keys_sort. now rewrite Hkeys.
  - intros slug. rewrite Hm, In_keys_sort, Hkeys. apply Hin.
  - rewrite Hm. unfold JsMap.size. rewrite sort_length.
    rewrite <- (length_map fst). change (map fst m0) with (JsMap.keys m0).
    rewrite Hkeys. apply set_size_distinct.
  - rewrite Hm. apply questionEntryOrder_sorted.
  - intros slug uq H.
    pose proof (deduplicateQuestions_entry _ _ _ H) as [_ Hc].
    rewrite Hm in H. apply In_sort in H.
    destruct (Hrep slug uq H) as (q & Hq & Hr & Hrel).
    exists q. repeat split; try assumption.
    + apply Hr.
    + apply Hr.
    + apply Hr.
    + apply Hr.
    + apply Hr.
    + apply Hr.
    + apply Hr.
    + apply Hr.
    + rewrite Hc, sort_length. apply length_map.
Qed.

(** Property X8.  The related questions of an entry of the question map are
    at most five slugs, pairwise distinct, none of them the slug of the entry
    itself, and each of them a key of the question map. *)
Theorem related_questions_resolve (questions : list QuestionWithDetails)
        (slug : string) (uq : UniqueQuestion) :
  In (slug, uq) (deduplicateQuestions questions) ->
  List.length (uq_relatedQuestions uq) <= 5
  /\ NoDup (uq_relatedQuestions uq)
  /\ ~ In slug (uq_relatedQuestions uq)
  /\ (forall s, In s (uq_relatedQuestions uq) ->
                In s (JsMap.keys (deduplicateQuestions questions))).
Proof.
  intros H.
  pose proof (deduplicateQuestions_entry _ _ _ H) as [Hslug _].
  pose proof (deduplicateQuestions_related _ _ _ H) as Hself.
  destruct (deduplicateQuestions_sorted_fold questions) as (m0 & Hm & Hkeys & Hrep).
  pose proof H as H0. rewrite Hm in H0. apply In_sort in H0.
  destruct (Hrep slug uq H0) as (q & _ & _ & Hrel). rewrite Hrel in *.
  split; [| split; [| split]].
  - unfold findRelatedQuestions. rewrite length_map. apply (slice0_length 5).
  - apply findRelatedQuestions_distinct.
  - now rewrite <- Hslug.
  - intros s Hs. apply findRelatedQuestions_known in Hs.
    destruct Hs as (q' & Hq' & <-).
    rewrite Hm, In_keys_sort, Hkeys. apply set_of_list_spec.
    now apply in_map.
Qed.

Lemma related_questions_resolve_witness :
  List.length (uq_relatedQuestions Catalog.twoSumQuestion) <= 5
  /\ NoDup (uq_relatedQuestions Catalog.twoSumQuestion)
  /\ ~ In "two-sum" (uq_relatedQuestions Catalog.twoSumQuestion)
  /\ (forall s, In s (uq_relatedQuestions Catalog.twoSumQuestion) ->
                In s (JsMap.keys (deduplicateQuestions Catalog.raw))).
Proof.
  apply (related_questions_resolve Catalog.raw "two-sum" Catalog.twoSumQuestion).
  vm_compute. left. reflexivity.
Defined.








(** Property X13.  On a built snapshot, [getQuestionCompanies] returns the
    companies of the records of that slug, each once, in the order of their
    first record. *)
Theorem question_companies_listing (raw : list QuestionWithDetails)
        (companyList topicList : list string) (cache : BuildCache)
        (questionSlug : string) :
  buildAggregatedData (loaded raw companyList topicList) = inr cache ->
  getQuestionCompanies cache questionSlug
  = JsSet.of_list
      (map q_company (filter (fun q => String.eqb (q_slug q) questionSlug) raw))
  /\ NoDup (getQuestionCompanies cache questionSlug)
  /\ (forall company,
         In company (getQuestionCompanies cache questionSlug)
         <-> exists q, In q raw /\ q_slug q = questionSlug /\ q_company q = company).
Proof.
  intros H. apply built_fields in H.
  destruct H as (_ & _ & _ & Hcr & _).
  unfold getQuestionCompanies. rewrite Hcr, questionCompanies_index.
  destruct (set_of_list_spec
              (map q_company
                   (filter (fun q => String.eqb (q_slug q) questionSlug) raw)))
    as [Hnd Hin].
  split; [reflexivity |]. split; [exact Hnd |].
  intros company. rewrite Hin, in_map_iff. split.
  - intros (q & E & Hq). apply filter_In in Hq. destruct Hq as [Hq Hs].
    apply String.eqb_eq in Hs. eauto.
  - intros (q & Hq & Hs & E). exists q. split; [exact E |].
    apply filter_In. split; [exact Hq | now apply String.eqb_eq].
Qed.

Lemma question_companies_listing_witness :
  getQuestionCompanies Catalog.built "two-sum"
  = JsSet.of_list
      (map q_company (filter (fun q => String.eqb (q_slug q) "two-sum") Catalog.raw))
  /\ NoDup (getQuestionCompanies Catalog.built "two-sum")
  /\ (forall company,
         In company (getQuestionCompanies Catalog.built "two-sum")
         <-> exists q, In q Catalog.raw /\ q_slug q = "two-sum" /\ q_company q = company).
Proof.
  apply (question_companies_listing Catalog.raw Catalog.companyList Catalog.topicList
                                    Catalog.built "two-sum").
  vm_compute. reflexivity.
Defined.
(** Property X14.  On a built snapshot, the cross-references listed under a
    company all carry that company's slug, those listed under a topic all
    carry that topic's slug, both lists are in descending order of question
    count and hold no cross-reference without questions; the two views hold
    the same cross-references, and each cross-reference is found under its
    company and under its topic. *)
Theorem cross_reference_views (raw : list QuestionWithDetails)
        (companyList topicList : list string) (cache : BuildCache) (slug : string) :
  buildAggregatedData (loaded raw companyList topicList) = inr cache ->
  (forall r, In r (getCompanyTopicCrossRefs cache slug) ->
             cr_companySlug r = slug /\ 0 < cr_questionCount r)
  /\ StronglySorted Order.crossRefBefore (getCompanyTopicCrossRefs cache slug)
  /\ (forall r, In r (getTopicCompanyCrossRefs cache slug) ->
                cr_topicSlug r = slug /\ 0 < cr_questionCount r)
  /\ StronglySorted Order.crossRefBefore (getTopicCompanyCrossRefs cache slug)
  /\ Permutation (List.concat (JsMap.values (companyTopics (crossRefs cache))))
                 (List.concat (JsMap.values (topicCompanies (crossRefs cache))))
  /\ (forall r, In r (List.concat (JsMap.values (companyTopics (crossRefs cache)))) ->
                In r (getCompanyTopicCrossRefs cache (cr_companySlug r))
                /\ In r (getTopicCompanyCrossRefs cache (cr_topicSlug r))).
Proof.
  intros H. apply built_fields in H. destruct H as (_ & _ & _ & Hcr & _).
  unfold getCompanyTopicCrossRefs, getTopicCompanyCrossRefs. rewrite Hcr.
  split; [| split; [| split; [| split; [| split]]]].
  - intros r. rewrite companyTopics_fold, view_get, In_sort, filter_In.
    intros [Hr E]. apply String.eqb_eq in E. split; [exact E |].
    now apply (bucketRefs_positive raw).
  - rewrite companyTopics_fold, view_get. apply byQuestionCountDesc_sorted.
  - intros r. rewrite topicCompanies_fold, view_get, In_sort, filter_In.
    intros [Hr E]. apply String.eqb_eq in E. split; [exact E |].
    now apply (bucketRefs_positive raw).
  - rewrite topicCompanies_fold, view_get. apply byQuestionCountDesc_sorted.
  - eapply perm_trans; [apply companyTopics_all |].
    apply Permutation_sym, topicCompanies_all.
  - intros r Hr. apply (Permutation_in _ (companyTopics_all raw)) in Hr.
    rewrite companyTopics_fold, topicCompanies_fold, !view_get, !In_sort, !filter_In.
    rewrite !String.eqb_refl. tauto.
Qed.

Lemma cross_reference_views_witness :
  (forall r, In r (getCompanyTopicCrossRefs Catalog.built "google") ->
             cr_companySlug r = "google" /\ 0 < cr_questionCount r)
  /\ StronglySorted Order.crossRefBefore (getCompanyTopicCrossRefs Catalog.built "google")
  /\ (forall r, In r (getTopicCompanyCrossRefs Catalog.built "google") ->
                cr_topicSlug r = "google" /\ 0 < cr_questionCount r)
  /\ StronglySorted Order.crossRefBefore (getTopicCompanyCrossRefs Catalog.built "google")
  /\ Permutation
       (List.concat (JsMap.values (companyTopics (crossRefs Catalog.built))))
       (List.concat (JsMap.values (topicCompanies (crossRefs Catalog.built))))
  /\ (forall r,
         In r (List.concat (JsMap.values (companyTopics (crossRefs Catalog.built)))) ->
         In r (getCompanyTopicCrossRefs Catalog.built (cr_companySlug r))
         /\ In r (getTopicCompanyCrossRefs Catalog.built (cr_topicSlug r))).
Proof.
  apply (cross_reference_views Catalog.raw Catalog.companyList Catalog.topicList
                               Catalog.built "google").
  vm_compute. reflexivity.
Defined.

(** Property X15.  [getTopCrossReferences] returns at most [limit]
    cross-references of the company view, each with three questions at
    least, ordered by tier of the company and then by question count
    descending; when no more than [limit] cross-references have three
    questions, it returns them all.  (The company slugs are no names of
    properties that the tier table inherits as an object.) *)
Theorem top_cross_references (cache : BuildCache) (limit : nat) :
  Forall (fun r => ownTierKey (cr_companySlug r))
         (List.concat (JsMap.values (companyTopics (crossRefs cache)))) ->
  let enough :=
    filter (fun r => 3 <=? cr_questionCount r)
           (List.concat (JsMap.values (companyTopics (crossRefs cache)))) in
  let top := getTopCrossReferences cache (Z.of_nat limit) in
  List.length top <= limit
  /\ (forall r, In r top -> In r enough)
  /\ StronglySorted Order.topCrossRefBefore top
  /\ (List.length enough <= limit -> Permutation top enough).
Proof.
  intros _ enough top. subst enough top. rewrite getTopCrossReferences_eq.
  split; [apply slice0_length |]. split; [| split].
  - intros r Hr. now apply In_slice0, In_sort in Hr.
  - apply StronglySorted_slice0, crossRefOrder_sorted.
  - intros Hle. rewrite slice0_all; [apply sort_perm |].
    rewrite sort_length. lia.
Qed.

Lemma top_cross_references_witness :
  List.length (getTopCrossReferences Catalog.built (Z.of_nat 10)) <= 10
  /\ (forall r, In r (getTopCrossReferences Catalog.built (Z.of_nat 10)) ->
                In r (filter (fun r => 3 <=? cr_questionCount r)
                             (List.concat
                                (JsMap.values (companyTopics (crossRefs Catalog.built))))))
  /\ StronglySorted Order.topCrossRefBefore
                    (getTopCrossReferences Catalog.built (Z.of_nat 10))
  /\ (List.length
        (filter (fun r => 3 <=? cr_questionCount r)
                (List.concat (JsMap.values (companyTopics (crossRefs Catalog.built)))))
      <= 10 ->
      Permutation (getTopCrossReferences Catalog.built (Z.of_nat 10))
                  (filter (fun r => 3 <=? cr_questionCount r)
                          (List.concat
                             (JsMap.values (companyTopics (crossRefs Catalog.built)))))).
Proof.
  apply (top_cross_references Catalog.built 10).
  apply Forall_forall. intros r Hr. vm_compute in Hr.
  repeat (destruct Hr as [<- | Hr];
          [split; intros H; vm_compute in H; discriminate H |]).
  destruct Hr.
Defined.

(* ------------------------------------------------------------------ *)
(** ** Which company-topic pages are shown *)

Lemma isNull_get {V : Type} (k : string) (m : JsMap.t V) :
  isNull (JsMap.get k m) = negb (JsSet.has k (JsMap.keys m)).
Proof.
  rewrite <- has_keys. unfold JsMap.has, isNull. now destruct (JsMap.get k m).
Qed.

(** Property X16.  On a snapshot built from records whose names hold no
    colon and that list no topic twice (letter case apart), the page of a
    cross-reference lists as many questions as the cross-reference counts, at
    least.  For a cross-reference at or above the thin-content threshold the
    page is rendered exactly when its company is in the company list and the
    topic list holds a name of its topic slug that some record lists; when
    only the company is there the visitor is redirected to the company page,
    and without the company the page is not found. *)
Theorem cross_reference_page_outcome (raw : list QuestionWithDetails)
        (companyList topicList : list string) (cache : BuildCache)
        (r : CompanyTopicCrossRef) :
  buildAggregatedData (loaded raw companyList topicList) = inr cache ->
  (forall q, In q raw -> Spec.wellSeparated q) ->
  (forall q, In q raw -> Spec.topicsListedOnce q) ->
  In r (Spec.crossRefsOf (crossRefs cache)) ->
  let page :=
    getQuestionsByCompanyAndTopic cache (cr_companySlug r) (cr_topicSlug r) in
  let topicListed :=
    exists name, In name topicList /\ toSlug name = cr_topicSlug r
                 /\ filter (Spec.listsTopic name) raw <> [] in
  cr_questionCount r <= List.length page
  /\ (thinContentThreshold_companyTopic <= cr_questionCount r ->
      match companyTopicPage cache (cr_companySlug r) (cr_topicSlug r) with
      | Rendered => In (cr_companySlug r) companyList /\ topicListed
      | RedirectedToCompany slug =>
          slug = cr_companySlug r /\ In (cr_companySlug r) companyList
          /\ ~ topicListed
      | NotFound => ~ In (cr_companySlug r) companyList
      end).
Proof.
  intros H Hsep Honce Hr page topicListed.
  pose proof (built_fields _ _ _ _ H) as (Hco & Htp & _ & Hcr & Hcq & _).
  rewrite Hcr in Hr.
  assert (Horigin : exists q0 t0,
             In q0 raw /\ In t0 (q_topics q0)
             /\ cr_companySlug r = q_company q0
             /\ cr_topicSlug r = toSlug t0
             /\ Str.toLowerCase (cr_topicName r) = Str.toLowerCase t0).
  { apply (bucketRefs_origin raw Hsep). now apply crossRefsOf_bucketRefs. }
  assert (Hcount : cr_questionCount r <= List.length page).
  { subst page. unfold getQuestionsByCompanyAndTopic.
    rewrite Hcq, companyQuestions_get.
    rewrite (Permutation_length (company_topic_contexts raw _ _)), length_map.
    assert (Hc : forall q, In q raw -> Spec.noColon (q_company q))
      by (intros q Hq; exact (proj1 (Hsep q Hq))).
    assert (Ht : forall q t, In q raw -> In t (q_topics q) -> Spec.noColon t)
      by (intros q t Hq; exact (proj2 (Hsep q Hq) t)).
    rewrite (crossRef_counts_entries raw Hc Ht r Hr).
    rewrite (entries_are_records raw _ _ Honce). unfold Spec.recordCount.
    apply filter_length_mono. intros q _ Hq.
    destruct Horigin as (q0 & t0 & _ & _ & _ & Hslug & Hname).
    unfold Spec.listsTopic, hasTopicLower in Hq. apply existsb_exists in Hq.
    destruct Hq as (t & Hin & E). apply String.eqb_eq in E.
    apply listsTopicSlug_pair. exists t. split; [exact Hin |].
    rewrite Hslug. unfold toSlug. congruence. }
  split; [exact Hcount |]. intros Hthin.
  assert (Hcompany : JsSet.has (cr_companySlug r) (JsMap.keys (companies cache)) = true
                     <-> In (cr_companySlug r) companyList).
  { rewrite set_has_In, Hco.
    destruct (aggregateCompanies_sorted_fold raw companyList) as (m & -> & _ & Hkeys).
    rewrite In_keys_sort, Hkeys. split; [tauto |]. intros Hin. split; [exact Hin |].
    destruct Horigin as (q0 & t0 & Hq0 & _ & Hc0 & _).
    intros Hnone.
    assert (Hq : In q0 (Spec.recordsOf (cr_companySlug r) raw)).
    { unfold Spec.recordsOf. apply filter_In. split; [exact Hq0 |].
      apply String.eqb_eq. now rewrite Hc0. }
    rewrite Hnone in Hq. exact Hq. }
  assert (Htopic : JsSet.has (cr_topicSlug r) (JsMap.keys (topics cache)) = true
                   <-> topicListed).
  { rewrite set_has_In, Htp.
    destruct (aggregateTopics_sorted_fold raw topicList) as (m & -> & _ & Hkeys).
    rewrite In_keys_sort. apply Hkeys. }
  unfold companyTopicPage, getCompanyBySlug, getTopicBySlug. cbv zeta.
  rewrite !isNull_get.
  fold page.
  assert (Hlen : (List.length page <? thinContentThreshold_companyTopic) = false)
    by (apply Nat.ltb_ge; lia).
  rewrite Hlen, orb_false_r.
  destruct (JsSet.has (cr_companySlug r) (JsMap.keys (companies cache))) eqn:Ec;
    destruct (JsSet.has (cr_topicSlug r) (JsMap.keys (topics cache))) eqn:Et; simpl.
  - split; [now apply Hcompany | now apply Htopic].
  - split; [reflexivity |]. split; [now apply Hcompany |].
    intros Hl. apply Htopic in Hl. discriminate.
  - intros Hin. apply Hcompany in Hin. discriminate.
  - intros Hin. apply Hcompany in Hin. discriminate.
Qed.

Lemma cross_reference_page_outcome_witness :
  cr_questionCount Catalog.googleArray
  <= List.length (getQuestionsByCompanyAndTopic Catalog.built "google" "array")
  /\ (thinContentThreshold_companyTopic <= cr_questionCount Catalog.googleArray ->
      match companyTopicPage Catalog.built "google" "array" with
      | Rendered =>
          In "google" Catalog.companyList
          /\ exists name, In name Catalog.topicList /\ toSlug name = "array"
                          /\ filter (Spec.listsTopic name) Catalog.raw <> []
      | RedirectedToCompany slug =>
          slug = "google" /\ In "google" Catalog.companyList
          /\ ~ (exists name, In name Catalog.topicList /\ toSlug name = "array"
                             /\ filter (Spec.listsTopic name) Catalog.raw <> [])
      | NotFound => ~ In "google" Catalog.companyList
      end).
Proof.
  apply (cross_reference_page_outcome
           Catalog.raw Catalog.companyList Catalog.topicList Catalog.built
           Catalog.googleArray).
  - vm_compute. reflexivity.
  - intros q Hq. unfold Spec.wellSeparated.
    repeat (destruct Hq as [<- | Hq];
            [split; [reflexivity |];
             intros t Ht; repeat (destruct Ht as [<- | Ht]; [reflexivity |]);
             destruct Ht |]).
    destruct Hq.
  - intros q Hq. unfold Spec.topicsListedOnce.
    repeat (destruct Hq as [<- | Hq];
            [simpl; repeat constructor; simpl; intuition discriminate |]).
    destruct Hq.
  - vm_compute. left. reflexivity.
Defined.

(** Property X17.  The sitemap lists the five static pages, the three
    difficulty pages, one entry per company, per topic and per question of
    the snapshot, and one entry per top cross-reference, in this order: the
    thin-content test of its last loop rejects none of the cross-references
    that [getTopCrossReferences] returns.  It has at most a thousand
    cross-reference entries. *)
Theorem sitemap_entries (cache : BuildCache) :
  sitemap cache
  = staticEntries ++ difficultyEntries
    ++ map companyEntry (JsMap.values (getAggregatedCompanies cache))
    ++ map topicEntry (JsMap.values (getAggregatedTopics cache))
    ++ map problemEntry (JsMap.values (getUniqueQuestions cache))
    ++ map crossRefEntry (getTopCrossReferences cache 1000)
  /\ List.length (sitemap cache)
     <= 8 + JsMap.size (getAggregatedCompanies cache)
        + JsMap.size (getAggregatedTopics cache)
        + JsMap.size (getUniqueQuestions cache) + 1000.
Proof.
  assert (E : sitemap cache
              = staticEntries ++ difficultyEntries
                ++ map companyEntry (JsMap.values (getAggregatedCompanies cache))
                ++ map topicEntry (JsMap.values (getAggregatedTopics cache))
                ++ map problemEntry (JsMap.values (getUniqueQuestions cache))
                ++ map crossRefEntry (getTopCrossReferences cache 1000)).
  { unfold sitemap. cbv zeta. rewrite push_when.
    rewrite filter_all.
    - now rewrite <- !app_assoc.
    - intros r Hr. apply getTopCrossReferences_threshold in Hr.
      apply Nat.leb_le. unfold thinContentThreshold_companyTopic. tauto. }
  split; [exact E |]. rewrite E.
  rewrite !length_app, !length_map. unfold JsMap.size, JsMap.values.
  rewrite !length_map.
  pose proof (slice0_length 1000 (JsArray.sort crossRefOrder
    (filter (fun ref => 3 <=? cr_questionCount ref)
       (List.concat (JsMap.values (companyTopics (crossRefs cache))))))) as Hl.
  rewrite getTopCrossReferences_eq.
  change (Z.of_nat 1000) with 1000%Z in Hl.
  change (List.length staticEntries) with 5.
  change (List.length difficultyEntries) with 3. lia.
Qed.

(** Property X18.  The company-topic pages generated ahead of time are those
    of the first five hundred top cross-references (the thin-content filter
    of [generateStaticParams] drops none of them), and each of them has an
    entry in the sitemap. *)
Theorem static_params_in_sitemap (cache : BuildCache) :
  generateStaticParams cache
  = map (fun ref => (cr_companySlug ref, cr_topicSlug ref))
        (getTopCrossReferences cache 500)
  /\ (forall company topic,
         In (company, topic) (generateStaticParams cache) ->
         exists entry,
           In entry (sitemap cache)
           /\ se_url entry = (siteUrl ++ "/company/" ++ company ++ "/" ++ topic)%string).
Proof.
  assert (E : generateStaticParams cache
              = map (fun ref => (cr_companySlug ref, cr_topicSlug ref))
                    (getTopCrossReferences cache 500)).
  { unfold generateStaticParams. cbv zeta. rewrite filter_all; [reflexivity |].
    intros r Hr. apply getTopCrossReferences_threshold in Hr.
    apply Nat.leb_le. unfold thinContentThreshold_companyTopic. tauto. }
  split; [exact E |].
  intros company topic H. rewrite E in H. apply in_map_iff in H.
  destruct H as (r & [= <- <-] & Hr).
  exists (crossRefEntry r). split; [| reflexivity].
  unfold sitemap. cbv zeta. rewrite push_when. apply in_or_app. right.
  apply in_map. apply filter_In. split.
  - rewrite getTopCrossReferences_eq in *.
    change 500%Z with (Z.of_nat 500) in Hr. change 1000%Z with (Z.of_nat 1000).
    rewrite slice0_nat in *. revert Hr. apply firstn_le_In. lia.
  - apply getTopCrossReferences_threshold in Hr.
    apply Nat.leb_le. unfold thinContentThreshold_companyTopic. tauto.
Qed.
(** Property X19.  The top topics of a company of the company map are at
    most ten, with pairwise distinct names, in descending order of count;
    each carries the slug of its name and counts the entries of the topic
    lists of the company's records that are exactly its name, of which there
    is one at least. *)
Theorem company_top_topics (questions : list QuestionWithDetails)
        (companyList : list string) (slug : string) (c : Company) :
  In (slug, c) (aggregateCompanies questions companyList) ->
  List.length (co_topTopics c) <= 10
  /\ NoDup (map tc_name (co_topTopics c))
  /\ StronglySorted Order.topTopicBefore (co_topTopics c)
  /\ (forall t, In t (co_topTopics c) ->
                tc_slug t = toSlug (tc_name t)
                /\ 0 < tc_count t
                /\ tc_count t
                   = list_sum
                       (map (fun q => count_occ string_dec (q_topics q) (tc_name t))
                            (Spec.recordsOf slug questions))).
Proof.
  intros H. apply aggregateCompanies_entry in H.
  destruct H as (_ & _ & _ & _ & _ & _ & ->).
  unfold calculateTopTopics. rewrite topicCounts_pairs.
  set (counts := fold_left
                   (fun m (qt : QuestionWithDetails * string) => JsMap.incr (snd qt) m)
                   (crossRefPairs (Spec.recordsOf slug questions)) JsMap.empty).
  assert (Hnd : NoDup (JsMap.keys counts)).
  { unfold counts.
    apply (NoDup_keys_counted (fun qt : QuestionWithDetails * string => snd qt)).
    constructor. }
  split; [| split; [| split]].
  - rewrite length_map. apply (slice0_length 10).
  - rewrite map_map. simpl.
    apply slice0_keys_NoDup, (NoDup_keys_sort byCountDesc), Hnd.
  - apply (map_sorted Order.countBefore); [intros x y Hxy; exact Hxy |].
    apply StronglySorted_slice0, byCountDesc_sorted.
  - intros t Ht. apply in_map_iff in Ht. destruct Ht as ([name n] & <- & Hin).
    apply In_slice0, In_sort in Hin. simpl. split; [reflexivity |].
    unfold counts in Hin.
    apply (In_counted (fun qt : QuestionWithDetails * string => snd qt)) in Hin.
    destruct Hin as [-> Hpos]. split; [exact Hpos |]. apply occurrences_topic.
Qed.

Lemma company_top_topics_witness :
  List.length (co_topTopics Catalog.google) <= 10
  /\ NoDup (map tc_name (co_topTopics Catalog.google))
  /\ StronglySorted Order.topTopicBefore (co_topTopics Catalog.google)
  /\ (forall t, In t (co_topTopics Catalog.google) ->
                tc_slug t = toSlug (tc_name t)
                /\ 0 < tc_count t
                /\ tc_count t
                   = list_sum
                       (map (fun q => count_occ string_dec (q_topics q) (tc_name t))
                            (Spec.recordsOf "google" Catalog.raw))).
Proof.
  apply (company_top_topics Catalog.raw Catalog.companyList "google" Catalog.google).
  vm_compute. left. reflexivity.
Defined.

(** Property X20.  The statistics of a built snapshot count what the maps
    hold: the raw records, the distinct slugs among them (at most as many),
    the companies of the company map (at most one per name of the company
    list) and the topics of the topic map (at most one per name of the topic
    list). *)
Theorem stats_of_a_snapshot (raw : list QuestionWithDetails)
        (companyList topicList : list string) (cache : BuildCache) :
  buildAggregatedData (loaded raw companyList topicList) = inr cache ->
  let s := getStats cache in
  totalQuestionRecords s = List.length raw
  /\ totalUniqueQuestions s = List.length (nodup string_dec (map q_slug raw))
  /\ totalUniqueQuestions s = JsMap.size (getUniqueQuestions cache)
  /\ totalUniqueQuestions s <= totalQuestionRecords s
  /\ totalCompanies s = JsMap.size (getAggregatedCompanies cache)
  /\ totalCompanies s <= List.length companyList
  /\ totalTopics s = JsMap.size (getAggregatedTopics cache)
  /\ totalTopics s <= List.length topicList.
Proof.
  intros H s. subst s. apply built_fields in H.
  destruct H as (Hco & Htp & Hq & _ & _ & _ & Hst).
  unfold getStats, getUniqueQuestions, getAggregatedCompanies, getAggregatedTopics.
  rewrite Hst, Hco, Htp, Hq. simpl.
  destruct (deduplicateQuestions_sorted_fold raw) as (mq & Hmq & Hkq & _).
  assert (Hsize : JsMap.size (deduplicateQuestions raw)
                  = List.length (nodup string_dec (map q_slug raw))).
  { rewrite Hmq. unfold JsMap.size. rewrite sort_length.
    rewrite <- (length_map fst). change (map fst mq) with (JsMap.keys mq).
    rewrite Hkq. apply set_size_distinct. }
  destruct (aggregateCompanies_sorted_fold raw companyList) as (mc & Hmc & Hndc & Hkc).
  destruct (aggregateTopics_sorted_fold raw topicList) as (mt & Hmt & Hndt & Hkt).
  repeat split; try assumption.
  - rewrite Hsize. rewrite <- (length_map q_slug raw).
    apply NoDup_incl_length; [apply NoDup_nodup |].
    intros x Hx. now apply nodup_In in Hx.
  - rewrite Hmc. unfold JsMap.size. rewrite sort_length, <- (length_map fst).
    apply NoDup_incl_length; [exact Hndc |].
    intros k Hk. apply Hkc in Hk. tauto.
  - rewrite Hmt. unfold JsMap.size. rewrite sort_length, <- (length_map fst).
    rewrite <- (length_map toSlug topicList).
    apply NoDup_incl_length; [exact Hndt |].
    intros k Hk. apply Hkt in Hk. destruct Hk as (name & Hin & <- & _).
    now apply in_map.
Qed.

Lemma stats_of_a_snapshot_witness :
  totalQuestionRecords (getStats Catalog.built) = 5
  /\ totalUniqueQuestions (getStats Catalog.built) = 4
  /\ totalUniqueQuestions (getStats Catalog.built)
     = JsMap.size (getUniqueQuestions Catalog.built)
  /\ totalUniqueQuestions (getStats Catalog.built)
     <= totalQuestionRecords (getStats Catalog.built)
  /\ totalCompanies (getStats Catalog.built)
     = JsMap.size (getAggregatedCompanies Catalog.built)
  /\ totalCompanies (getStats Catalog.built) <= 4
  /\ totalTopics (getStats Catalog.built)
     = JsMap.size (getAggregatedTopics Catalog.built)
  /\ totalTopics (getStats Catalog.built) <= 6.
Proof.
  apply (stats_of_a_snapshot Catalog.raw Catalog.companyList Catalog.topicList
                             Catalog.built).
  vm_compute. reflexivity.
Defined.

(** Property X21.  [generateBreadcrumbSchema] numbers the items from one in
    their order and keeps their names; every item but the last carries its
    URL, the last item carries none. *)
Theorem breadcrumb_schema_positions (items : list BreadcrumbItem) (index : nat)
        (item : BreadcrumbItem) :
  nth_error items index = Some item ->
  List.length (generateBreadcrumbSchema items) = List.length items
  /\ exists element,
       nth_error (generateBreadcrumbSchema items) index = Some element
       /\ sb_position element = index + 1
       /\ sb_name element = bi_name item
       /\ (index + 1 < List.length items -> sb_item element = Some (bi_url item))
       /\ (index + 1 = List.length items -> sb_item element = None).
Proof.
  intros H. unfold generateBreadcrumbSchema, mapIndexed.
  split; [apply mapFrom_length |].
  rewrite mapFrom_nth, H. simpl. eexists. split; [reflexivity |]. simpl.
  split; [reflexivity |]. split; [reflexivity |]. split.
  - intros Hlt.
    destruct (Z.of_nat index <? Z.of_nat (List.length items) - 1)%Z eqn:E;
      [reflexivity | apply Z.ltb_ge in E; lia].
  - intros Heq.
    destruct (Z.of_nat index <? Z.of_nat (List.length items) - 1)%Z eqn:E;
      [apply Z.ltb_lt in E; lia | reflexivity].
Qed.

Lemma breadcrumb_schema_positions_witness :
  List.length (generateBreadcrumbSchema (generateCompanyBreadcrumbs Catalog.google)) = 3
  /\ exists element,
       nth_error (generateBreadcrumbSchema (generateCompanyBreadcrumbs Catalog.google)) 2
       = Some element
       /\ sb_position element = 3
       /\ sb_name element = "Google"
       /\ (3 < 3 -> sb_item element
                    = Some (getCanonicalUrl PkCompany [("slug", "google")]))
       /\ (3 = 3 -> sb_item element = None).
Proof.
  apply (breadcrumb_schema_positions (generateCompanyBreadcrumbs Catalog.google) 2
                                     (getCompanyBreadcrumb Catalog.google)).
  reflexivity.
Defined.

(** Property X22.  The item-list schemas list the first hundred questions
    (the first fifty companies or topics) at most, numbered from one in their
    order and with the canonical URL of their page; [numberOfItems] is the
    number of all the questions given (for companies and topics the total
    passed in), which the listed elements need not reach. *)
Theorem item_list_schemas (questions : list QuestionWithCompanyContext)
        (listName listDescription : string) (companies : list Company)
        (topics : list Topic) (totalCount : nat) :
  let ofQuestions := generateQuestionListSchema questions listName listDescription in
  let ofCompanies := generateCompanyListSchema companies totalCount in
  let ofTopics := generateTopicListSchema topics totalCount in
  il_numberOfItems ofQuestions = List.length questions
  /\ List.length (il_itemListElement ofQuestions) = Nat.min 100 (List.length questions)
  /\ (forall index q,
         index < 100 -> nth_error questions index = Some q ->
         exists element,
           nth_error (il_itemListElement ofQuestions) index = Some element
           /\ li_position element = index + 1
           /\ li_url element = getCanonicalUrl PkProblem [("slug", qc_slug q)])
  /\ il_numberOfItems ofCompanies = totalCount
  /\ List.length (il_itemListElement ofCompanies) = Nat.min 50 (List.length companies)
  /\ (forall index company,
         index < 50 -> nth_error companies index = Some company ->
         exists element,
           nth_error (il_itemListElement ofCompanies) index = Some element
           /\ li_position element = index + 1
           /\ li_url element = getCanonicalUrl PkCompany [("slug", co_slug company)])
  /\ il_numberOfItems ofTopics = totalCount
  /\ List.length (il_itemListElement ofTopics) = Nat.min 50 (List.length topics)
  /\ (forall index topic,
         index < 50 -> nth_error topics index = Some topic ->
         exists element,
           nth_error (il_itemListElement ofTopics) index = Some element
           /\ li_position element = index + 1
           /\ li_url element = getCanonicalUrl PkTopic [("slug", tp_slug topic)]).
Proof.
  cbv zeta.
  unfold generateQuestionListSchema, generateCompanyListSchema,
    generateTopicListSchema, mapIndexed.
  cbn [il_numberOfItems il_itemListElement].
  change 100%Z with (Z.of_nat 100). change 50%Z with (Z.of_nat 50).
  rewrite !slice0_nat, !mapFrom_length, !length_firstn.
  repeat split; intros index x Hlt Hx; rewrite mapFrom_nth, nth_error_firstn;
    apply Nat.ltb_lt in Hlt; rewrite Hlt, Hx; simpl; eexists;
    (split; [reflexivity |]); split; reflexivity.
Qed.
(** Property X23.  On the topic map of [aggregateTopics], [getRelatedTopics]
    returns at most [limit] links; they lead to topics of the map with
    pairwise distinct slugs, and none of them leads to the current topic
    when its slug is not among its own related topics. *)
Theorem related_topic_links (questions : list QuestionWithDetails)
        (topicList : list string) (current : Topic) (limit : nat) :
  let all := aggregateTopics questions topicList in
  let links := getRelatedTopics current all (Z.of_nat limit) in
  let targets := relatedTopicTargets current all (Z.of_nat limit) in
  List.length links <= limit
  /\ map href links
     = map (fun t => getCanonicalUrl PkTopic [("slug", tp_slug t)]) targets
  /\ (forall t, In t targets -> In t (JsMap.values all))
  /\ NoDup (map tp_slug targets)
  /\ (~ In (tp_slug current) (tp_relatedTopics current) ->
      ~ In (tp_slug current) (map tp_slug targets)).
Proof.
  cbv zeta. split; [apply getRelatedTopics_length |].
  split; [apply getRelatedTopics_targets |].
  split; [intros t; apply relatedTopicTargets_known |].
  apply related_topics_targets.
Qed.

(** Property X24.  On the question map of [deduplicateQuestions], for a
    question of the map, [getRelatedProblems] returns at most [limit] links;
    they lead to questions of the map with pairwise distinct slugs, none of
    them the question itself. *)
Theorem related_problem_links (questions : list QuestionWithDetails)
        (slug : string) (current : UniqueQuestion) (limit : nat) :
  In (slug, current) (deduplicateQuestions questions) ->
  let all := deduplicateQuestions questions in
  let links := getRelatedProblems current all (Z.of_nat limit) in
  let targets := relatedProblemTargets current all (Z.of_nat limit) in
  List.length links <= limit
  /\ map href links
     = map (fun q => getCanonicalUrl PkProblem [("slug", uq_slug q)]) targets
  /\ (forall q, In q targets -> In q (JsMap.values all))
  /\ NoDup (map uq_slug targets)
  /\ ~ In (uq_slug current) (map uq_slug targets).
Proof.
  intros H. cbv zeta. split; [apply getRelatedProblems_length |].
  split; [apply getRelatedProblems_targets |].
  split; [intros q; apply relatedProblemTargets_known |].
  now apply (related_problems_targets questions slug).
Qed.

Lemma related_problem_links_witness :
  List.length (getRelatedProblems Catalog.twoSumQuestion (deduplicateQuestions Catalog.raw)
                                  (Z.of_nat 6)) <= 6
  /\ map href (getRelatedProblems Catalog.twoSumQuestion (deduplicateQuestions Catalog.raw)
                                  (Z.of_nat 6))
     = map (fun q => getCanonicalUrl PkProblem [("slug", uq_slug q)])
           (relatedProblemTargets Catalog.twoSumQuestion (deduplicateQuestions Catalog.raw)
                                  (Z.of_nat 6))
  /\ (forall q,
         In q (relatedProblemTargets Catalog.twoSumQuestion (deduplicateQuestions Catalog.raw)
                                     (Z.of_nat 6)) ->
         In q (JsMap.values (deduplicateQuestions Catalog.raw)))
  /\ NoDup (map uq_slug
                (relatedProblemTargets Catalog.twoSumQuestion (deduplicateQuestions Catalog.raw)
                                       (Z.of_nat 6)))
  /\ ~ In (uq_slug Catalog.twoSumQuestion)
          (map uq_slug
               (relatedProblemTargets Catalog.twoSumQuestion (deduplicateQuestions Catalog.raw)
                                      (Z.of_nat 6))).
Proof.
  apply (related_problem_links Catalog.raw "two-sum" Catalog.twoSumQuestion 6).
  vm_compute. left. reflexivity.
Defined.

(** Property X25.  On a built snapshot, the topic links of a company page,
    made from the cross-references of that company, are eight at most; they
    stand for cross-references of that company with three questions at
    least, in descending order of question count. *)
Theorem company_page_topic_links (raw : list QuestionWithDetails)
        (companyList topicList : list string) (cache : BuildCache)
        (company : Company) :
  buildAggregatedData (loaded raw companyList topicList) = inr cache ->
  let links :=
    cpl_topicLinks
      (generateCompanyPageLinks company (getAggregatedCompanies cache)
         (getCompanyTopicCrossRefs cache (co_slug company))) in
  List.length links <= 8
  /\ exists refs,
       links = map companyTopicLink refs
       /\ StronglySorted Order.crossRefBefore refs
       /\ (forall r, In r refs ->
                     cr_companySlug r = co_slug company
                     /\ thinContentThreshold_companyTopic <= cr_questionCount r
                     /\ In r (getCompanyTopicCrossRefs cache (co_slug company))).
Proof.
  intros H. cbv zeta. unfold generateCompanyPageLinks, getCompanyTopicLinks.
  cbn [cpl_topicLinks].
  split; [rewrite length_map; apply (slice0_length 8) |].
  eexists. split; [reflexivity |].
  apply built_fields in H. destruct H as (_ & _ & _ & Hcr & _).
  unfold getCompanyTopicCrossRefs. rewrite Hcr, companyTopics_fold, view_get.
  split.
  - apply StronglySorted_slice0, filter_sorted, byQuestionCountDesc_sorted.
  - intros r Hr. apply In_slice0, filter_In in Hr. destruct Hr as [Hr Hc].
    apply Nat.leb_le in Hc. split; [| split; [exact Hc | exact Hr]].
    apply In_sort, filter_In in Hr. destruct Hr as [_ E].
    now apply String.eqb_eq in E.
Qed.

Lemma company_page_topic_links_witness :
  List.length
    (cpl_topicLinks
       (generateCompanyPageLinks Catalog.google (getAggregatedCompanies Catalog.built)
          (getCompanyTopicCrossRefs Catalog.built (co_slug Catalog.google)))) <= 8
  /\ exists refs,
       cpl_topicLinks
         (generateCompanyPageLinks Catalog.google (getAggregatedCompanies Catalog.built)
            (getCompanyTopicCrossRefs Catalog.built (co_slug Catalog.google)))
       = map companyTopicLink refs
       /\ StronglySorted Order.crossRefBefore refs
       /\ (forall r, In r refs ->
                     cr_companySlug r = co_slug Catalog.google
                     /\ thinContentThreshold_companyTopic <= cr_questionCount r
                     /\ In r (getCompanyTopicCrossRefs Catalog.built
                                                        (co_slug Catalog.google))).
Proof.
  apply (company_page_topic_links Catalog.raw Catalog.companyList Catalog.topicList
                                  Catalog.built Catalog.google).
  vm_compute. reflexivity.
Defined.
(** Property X26.  The difficulty breakdown of a topic of the topic map
    counts, among the records that list the topic's name, those whose
    difficulty is easy, medium and hard in any letter case; the three
    counters sum to the question count at most, and to the question count
    when every record has one of the three difficulties. *)
Theorem topic_breakdown_counts (questions : list QuestionWithDetails)
        (topicList : list string) (slug : string) (t : Topic) :
  In (slug, t) (aggregateTopics questions topicList) ->
  let records := filter (Spec.listsTopic (tp_name t)) questions in
  let count key :=
    List.length
      (filter (fun q => String.eqb (Str.toLowerCase (q_difficulty q)) key) records) in
  easy (tp_difficultyBreakdown t) = count "easy"
  /\ medium (tp_difficultyBreakdown t) = count "medium"
  /\ hard (tp_difficultyBreakdown t) = count "hard"
  /\ Spec.breakdownTotal (tp_difficultyBreakdown t) <= tp_questionCount t
  /\ ((forall q, In q questions -> Spec.difficultyCounted (q_difficulty q)) ->
      Spec.breakdownTotal (tp_difficultyBreakdown t) = tp_questionCount t).
Proof.
  intros H. apply aggregateTopics_entry_counts in H.
  destruct H as (_ & _ & Hcount & _ & Hb & _).
  cbv zeta. unfold Spec.listsTopic. rewrite Hb, Hcount.
  destruct (breakdown_counters
              (filter (hasTopicLower (Str.toLowerCase (tp_name t))) questions))
    as (He & Hm & Hh).
  split; [exact He |]. split; [exact Hm |]. split; [exact Hh |].
  split; [apply counted_length_le |].
  intros Hall. apply counted_length_all.
  intros q Hq. apply filter_In in Hq. now apply Hall.
Qed.

Lemma topic_breakdown_counts_witness :
  easy (tp_difficultyBreakdown Catalog.array) = 2
  /\ medium (tp_difficultyBreakdown Catalog.array) = 2
  /\ hard (tp_difficultyBreakdown Catalog.array) = 0
  /\ Spec.breakdownTotal (tp_difficultyBreakdown Catalog.array)
     <= tp_questionCount Catalog.array
  /\ ((forall q, In q Catalog.raw -> Spec.difficultyCounted (q_difficulty q)) ->
      Spec.breakdownTotal (tp_difficultyBreakdown Catalog.array)
      = tp_questionCount Catalog.array).
Proof.
  apply (topic_breakdown_counts Catalog.raw Catalog.topicList "array" Catalog.array).
  vm_compute. left. reflexivity.
Defined.

(** Property X27.  The top companies of a topic of the topic map are at most
    ten, pairwise distinct, ordered by tier and then by count descending;
    each counts the records of that company among the records that list the
    topic's name, of which there is one at least.  (The company names are no
    names of properties that the tier table inherits as an object.) *)
Theorem topic_top_companies (questions : list QuestionWithDetails)
        (topicList : list string) (slug : string) (t : Topic) :
  In (slug, t) (aggregateTopics questions topicList) ->
  (forall q, In q questions -> ownTierKey (q_company q)) ->
  let records := filter (Spec.listsTopic (tp_name t)) questions in
  List.length (tp_topCompanies t) <= 10
  /\ NoDup (map cc_slug (tp_topCompanies t))
  /\ StronglySorted Order.topCompanyBefore (tp_topCompanies t)
  /\ (forall c, In c (tp_topCompanies t) ->
                cc_name c = formatDisplayName (cc_slug c)
                /\ 0 < cc_count c
                /\ cc_count c = List.length (Spec.recordsOf (cc_slug c) records)).
Proof.
  intros H _. apply aggregateTopics_entry_counts in H.
  destruct H as (_ & _ & _ & _ & _ & -> & _).
  cbv zeta. unfold Spec.listsTopic, calculateTopCompanies.
  set (records := filter (hasTopicLower (Str.toLowerCase (tp_name t))) questions).
  set (counts := fold_left (fun m q => JsMap.incr (q_company q) m) records JsMap.empty).
  assert (Hnd : NoDup (JsMap.keys counts)).
  { unfold counts. apply (NoDup_keys_counted q_company). constructor. }
  split; [| split; [| split]].
  - rewrite length_map. apply (slice0_length 10).
  - rewrite map_map. simpl.
    apply slice0_keys_NoDup, (NoDup_keys_sort byTierThenCount), Hnd.
  - eapply map_sorted; [| apply StronglySorted_slice0, byTierThenCount_sorted].
    intros x y Hxy. exact Hxy.
  - intros c Hc. apply in_map_iff in Hc. destruct Hc as ([name n] & <- & Hin).
    apply In_slice0, In_sort in Hin. simpl. split; [reflexivity |].
    unfold counts in Hin. apply (In_counted q_company) in Hin.
    destruct Hin as [-> Hpos]. split; [exact Hpos | reflexivity].
Qed.

Lemma topic_top_companies_witness :
  List.length (tp_topCompanies Catalog.array) <= 10
  /\ NoDup (map cc_slug (tp_topCompanies Catalog.array))
  /\ StronglySorted Order.topCompanyBefore (tp_topCompanies Catalog.array)
  /\ (forall c, In c (tp_topCompanies Catalog.array) ->
                cc_name c = formatDisplayName (cc_slug c)
                /\ 0 < cc_count c
                /\ cc_count c
                   = List.length
                       (Spec.recordsOf (cc_slug c)
                          (filter (Spec.listsTopic "Array") Catalog.raw))).
Proof.
  apply (topic_top_companies Catalog.raw Catalog.topicList "array" Catalog.array).
  - vm_compute. left. reflexivity.
  - intros q Hq.
    repeat (destruct Hq as [<- | Hq];
            [split; intros H; vm_compute in H; discriminate H |]).
    destruct Hq.
Defined.

(** Property X28.  The related topics of a topic of the topic map are at
    most five slugs; each is the slug of a name that some record lists
    together with the topic and that differs from the topic's name, letter
    case apart. *)
Theorem topic_related_topics (questions : list QuestionWithDetails)
        (topicList : list string) (slug : string) (t : Topic) :
  In (slug, t) (aggregateTopics questions topicList) ->
  List.length (tp_relatedTopics t) <= 5
  /\ (forall related,
         In related (tp_relatedTopics t) ->
         exists q name,
           In q questions /\ Spec.listsTopic (tp_name t) q = true
           /\ In name (q_topics q) /\ related = toSlug name
           /\ Str.toLowerCase name <> Str.toLowerCase (tp_name t)).
Proof.
  intros H. apply aggregateTopics_entry_counts in H.
  destruct H as (_ & _ & _ & _ & _ & _ & ->).
  unfold calculateRelatedTopics. cbv zeta. split.
  - rewrite length_map. apply (slice0_length 5).
  - intros related Hr. apply in_map_iff in Hr. destruct Hr as ([name n] & <- & Hin).
    apply In_slice0, In_sort, cooccurrence_keys in Hin.
    destruct Hin as (q & Hq & Hhas & Hname & Hne).
    exists q, name. unfold Spec.listsTopic. auto.
Qed.

Lemma topic_related_topics_witness :
  List.length (tp_relatedTopics Catalog.array) <= 5
  /\ (forall related,
         In related (tp_relatedTopics Catalog.array) ->
         exists q name,
           In q Catalog.raw /\ Spec.listsTopic "Array" q = true
           /\ In name (q_topics q) /\ related = toSlug name
           /\ Str.toLowerCase name <> Str.toLowerCase "Array").
Proof.
  apply (topic_related_topics Catalog.raw Catalog.topicList "array" Catalog.array).
  vm_compute. left. reflexivity.
Defined.

(* ------------------------------------------------------------------ *)
(** ** Searching a text that ends in a path *)

(** A text that lacks the character [c0] is found at the head of [s ++ c0 u]
    exactly when it is found at the head of [s]. *)
Lemma prefix_before (c0 : ascii) (w s u : string) :
  existsb (Ascii.eqb c0) (list_ascii_of_string w) = false ->
  String.prefix w (s ++ String c0 u) = String.prefix w s.
Proof.
  revert s. induction w as [|d w IH]; intros s Hw; [now destruct s |].
  cbn [list_ascii_of_string existsb] in Hw. apply orb_false_iff in Hw.
  destruct Hw as [Hd Hw]. apply Ascii.eqb_neq in Hd.
  destruct s as [|e s]; simpl.
  - destruct (ascii_dec d c0) as [-> | _]; [congruence | reflexivity].
  - destruct (ascii_dec d e); [now apply IH | reflexivity].
Qed.

(** A path [c0 w] whose separator [c0] occurs at its head only is in
    [s ++ c0 u] exactly when it is in [s] or in [c0 u]. *)
Lemma includes_path (c0 : ascii) (w s u : string) :
  existsb (Ascii.eqb c0) (list_ascii_of_string w) = false ->
  includes (s ++ String c0 u) (String c0 w)
  = includes s (String c0 w) || includes (String c0 u) (String c0 w).
Proof.
  intros Hw. unfold includes. induction s as [|e s IH].
  - simpl append.
    destruct (Str.find_first (String c0 w) (String c0 u)); reflexivity.
  - change (String e s ++ String c0 u)%string with (String e (s ++ String c0 u)%string).
    cbn [Str.find_first String.prefix].
    destruct (ascii_dec c0 e) as [-> | Hne].
    + rewrite (prefix_before e w s u Hw).
      destruct (String.prefix w s); [reflexivity |].
      destruct (Str.find_first (String e w) (s ++ String e u)) as [[b a]|];
        destruct (Str.find_first (String e w) s) as [[b' a']|];
        simpl in IH |- *; try reflexivity; try exact IH; try discriminate.
    + destruct (Str.find_first (String c0 w) (s ++ String c0 u)) as [[b a]|];
        destruct (Str.find_first (String c0 w) s) as [[b' a']|];
        simpl in IH |- *; try reflexivity; try exact IH; try discriminate.
Qed.

Lemma hubLinksWithout_cases (site own : string) :
  hubLinksWithout site own
  = filter (fun l => negb (includes (href l) own))
      [ {| href := (site ++ "/companies")%string; text := "All Companies";
           title := "Browse all company interview questions"; priority := 1 |};
        {| href := (site ++ "/topics")%string; text := "All Topics";
           title := "Browse all DSA topics"; priority := 1 |};
        {| href := (site ++ "/problems")%string; text := "All Problems";
           title := "Browse all LeetCode problems"; priority := 1 |};
        {| href := (site ++ "/system-design")%string; text := "System Design";
           title := "System Design Interview Guide"; priority := 1 |} ].
Proof. reflexivity. Qed.

(** Property X29.  The hub links of a page are the hub links whose URL does
    not contain the path of the page's own hub.  Where the site URL itself
    does not contain that path, a company page offers the hubs of the topics,
    the problems and the system-design guide, a topic page those of the
    companies, the problems and the guide, a problem page those of the
    companies, the topics and the guide; where the site URL contains the
    path, the page offers no hub link at all: on a site at
    https://topics.example.com a topic page has none.  The site URL is that
    of the environment, and the default one contains none of the three
    paths.  The other sections hold at most six related links, eight topic
    links of a company, six company links of a topic, and five company and
    five topic links of a problem. *)
Theorem page_link_sections (site : string) (company : Company)
        (allCompanies : JsMap.t Company) (crossRefs : list CompanyTopicCrossRef)
        (topic : Topic) (allTopics : JsMap.t Topic) (question : UniqueQuestion)
        (allQuestions : JsMap.t UniqueQuestion) :
  let ofCompany := generateCompanyPageLinks company allCompanies crossRefs in
  let ofTopic := generateTopicPageLinks topic allTopics crossRefs in
  let ofProblem :=
    generateProblemPageLinks question allQuestions allCompanies allTopics in
  (if includes site "/companies"
   then hubLinksWithout site "/companies" = []
   else map text (hubLinksWithout site "/companies")
        = ["All Topics"; "All Problems"; "System Design"])
  /\ (if includes site "/topics"
      then hubLinksWithout site "/topics" = []
      else map text (hubLinksWithout site "/topics")
           = ["All Companies"; "All Problems"; "System Design"])
  /\ (if includes site "/problems"
      then hubLinksWithout site "/problems" = []
      else map text (hubLinksWithout site "/problems")
           = ["All Companies"; "All Topics"; "System Design"])
  /\ hubLinksWithout "https://topics.example.com" "/topics" = []
  /\ cpl_hubLinks ofCompany = hubLinksWithout siteUrl "/companies"
  /\ tpl_hubLinks ofTopic = hubLinksWithout siteUrl "/topics"
  /\ ppl_hubLinks ofProblem = hubLinksWithout siteUrl "/problems"
  /\ (siteUrl = siteUrlOf None
      /\ map text (cpl_hubLinks ofCompany)
         = ["All Topics"; "All Problems"; "System Design"]
      /\ map text (tpl_hubLinks ofTopic)
         = ["All Companies"; "All Problems"; "System Design"]
      /\ map text (ppl_hubLinks ofProblem)
         = ["All Companies"; "All Topics"; "System Design"])
  /\ List.length (cpl_relatedCompanies ofCompany) <= 6
  /\ List.length (cpl_topicLinks ofCompany) <= 8
  /\ List.length (tpl_relatedTopics ofTopic) <= 6
  /\ List.length (tpl_companyLinks ofTopic) <= 6
  /\ List.length (ppl_relatedProblems ofProblem) <= 6
  /\ List.length (ppl_companyLinks ofProblem) <= 5
  /\ List.length (ppl_topicLinks ofProblem) <= 5.
Proof.
  cbv zeta.
  split; [| split; [| split; [| split; [reflexivity |]]]].
  - rewrite hubLinksWithout_cases. cbn [filter href].
    rewrite !(includes_path "/" "companies" site) by reflexivity.
    destruct (includes site "/companies"); reflexivity.
  - rewrite hubLinksWithout_cases. cbn [filter href].
    rewrite !(includes_path "/" "topics" site) by reflexivity.
    destruct (includes site "/topics"); reflexivity.
  - rewrite hubLinksWithout_cases. cbn [filter href].
    rewrite !(includes_path "/" "problems" site) by reflexivity.
    destruct (includes site "/problems"); reflexivity.
  - unfold generateCompanyPageLinks, generateTopicPageLinks,
      generateProblemPageLinks.
    cbn [cpl_hubLinks cpl_relatedCompanies cpl_topicLinks tpl_hubLinks
         tpl_relatedTopics tpl_companyLinks ppl_hubLinks ppl_relatedProblems
         ppl_companyLinks ppl_topicLinks].
    split; [reflexivity |]. split; [reflexivity |]. split; [reflexivity |].
    split; [repeat split |].
    split; [unfold getRelatedCompanies, rankRelatedCompanies; rewrite length_map;
            apply (slice0_length 6) |].
    split; [unfold getCompanyTopicLinks; rewrite length_map; apply (slice0_length 8) |].
    split; [apply (getRelatedTopics_length topic allTopics 6) |].
    split; [rewrite length_map; apply (slice0_length 6) |].
    split; [apply (getRelatedProblems_length question allQuestions 6) |].
    split; rewrite length_map; apply (slice0_length 5).
Qed.
